(** * The site crawler of [crawler.js]: model and properties

    The crawler visits a start URL with a headless browser, records every
    same-origin link it finds as a child of the page, and recurses into the
    children up to [maxDepth].  Pages already crawled are looked up in the
    [crawledPages] map instead of being loaded again.  Cookies and iframes
    are recorded once, with the page on which they were first seen.

    JavaScript objects are mutable and passed by reference, and the crawler
    relies on it: [crawledPages] stores the very object that sits in the
    tree, and a reused route gets the children array of the stored object.
    The model therefore keeps every page object in a store ([heap]) and
    lets arrays hold addresses of page objects.  An array is never changed
    after it is built ([Array.prototype.map] builds it, nothing pushes to
    it), so an array value is the list of the addresses it holds. *)

From stdpp Require Import gmap strings list fin_maps.
From Stdlib Require Import ZArith Lia Ascii.

Open Scope string_scope.
Open Scope list_scope.
Open Scope Z_scope.

(** ** Data *)

(** Address of a page object in the store. *)
Abbreviation loc := nat (only parsing).

(** [{url, title, children}]: a field that was never assigned is [None]
    ([undefined] in JavaScript). *)
Record PageNode : Type := mkPageNode {
  url : string;
  title : option string;
  children : option (list loc)
}.

(** A cookie as [Network.getAllCookies] returns it: its name and the other
    fields (domain, value, flags, ...). *)
Record Cookie : Type := mkCookie {
  name : string;
  attributes : list (string * string)
}.

(** The cookie object after [cookie.firstFound = page.url]. *)
Record CookieRecord : Type := mkCookieRecord {
  cookie : Cookie;
  cookie_firstFound : string
}.

(** [iframedata]. *)
Record IframeRecord : Type := mkIframeRecord {
  src : string;
  firstFound : string
}.

(** A DOM element as far as the in-page scripts look at it.  [href] and
    [el_src] are the empty string when the attribute is missing (the only
    falsy value they take on an anchor resp. an iframe); [shadowRoot] is
    [el.shadowRoot.querySelectorAll('*')], empty when [el.shadowRoot] is
    null. *)
#[warnings="-register-all"]
Inductive Element : Type :=
  mkElement (localName : string) (href : string) (el_src : string)
            (shadowRoot : list Element).

Definition localName (el : Element) : string :=
  match el with mkElement n _ _ _ => n end.
Definition href (el : Element) : string :=
  match el with mkElement _ h _ _ => h end.
Definition el_src (el : Element) : string :=
  match el with mkElement _ _ s _ => s end.
Definition shadowRoot (el : Element) : list Element :=
  match el with mkElement _ _ _ r => r end.

(** What the browser shows once [goto] has settled. *)
Record LoadedPage : Type := mkLoadedPage {
  location_href : string;
  document_title : string;
  document_all : list Element;        (* document.querySelectorAll('*') *)
  all_cookies : list Cookie           (* Network.getAllCookies *)
}.

Inductive Error : Type :=
| NavigationError (u : string)   (* goto rejected *)
| ScriptError (u : string)       (* evaluate rejected: the script threw *)
| TypeError                      (* a property of undefined was read *)
| BadRef.                        (* an address outside the store: no
                                    JavaScript program can produce one *)

(** ** Numbers

    [maxDepth] and [depth] are JavaScript numbers.  [maxDepth] is what
    [parseInt] returned when it is not [NaN]: an integer or an infinity.
    [depth] starts at 0 and grows by [depth + 1] in double arithmetic,
    which is exact up to [2^53] and rounds to the nearest double, ties to
    even, beyond it.  A double with an integer value is given by that
    value. *)
Inductive Num : Type :=
| Fin (z : Z)
| Infinity
| NegInfinity.
Coercion Fin : Z >-> Num.

(** [depth > maxDepth] *)
Definition exceeds (depth : Z) (limit : Num) : Prop :=
  match limit with
  | Fin m => depth > m
  | Infinity => False
  | NegInfinity => True
  end.

#[global] Instance exceeds_dec (depth : Z) (limit : Num) :
    Decision (exceeds depth limit) :=
  match limit return Decision (exceeds depth limit) with
  | Fin m => decide (depth > m)
  | Infinity => right (λ H : False, H)
  | NegInfinity => left I
  end.

(** [depth + 1]: exact from [-2^53] to [2^53 - 1].  At [2^53] the sum lies
    halfway between two doubles and is rounded back to [2^53]; from there
    to [2^54] doubles are two apart and the sum goes to the neighbour with
    the even significand; beyond, it is rounded back to [depth]. *)
Definition add1 (depth : Z) : Z :=
  if decide (- 2 ^ 53 ≤ depth < 2 ^ 53) then depth + 1
  else if decide (Z.abs depth < 2 ^ 54 ∧ depth mod 4 = 2) then depth + 2
  else depth.

(** The value of [depth] in a call [n] calls below [crawl(browser, root)]. *)
Definition depth_after (n : nat) : Z := Nat.iter n add1 0.

(** ** State *)

(** The module-level maps, the store of page objects, and two traces: the
    lines written to the console and the URLs handed to [goto]. *)
Record State : Type := mkState {
  heap : list PageNode;
  crawledPages : gmap string loc;
  crawledCookies : gmap string CookieRecord;
  crawledIframes : gmap string IframeRecord;
  console : list string;
  navigations : list string
}.

Definition initial : State := mkState [] ∅ ∅ ∅ [] [].

Definition with_heap (f : list PageNode → list PageNode) (st : State) : State :=
  mkState (f (heap st)) (crawledPages st) (crawledCookies st)
          (crawledIframes st) (console st) (navigations st).
Definition with_pages (f : gmap string loc → gmap string loc) (st : State) : State :=
  mkState (heap st) (f (crawledPages st)) (crawledCookies st)
          (crawledIframes st) (console st) (navigations st).
Definition with_cookies (f : gmap string CookieRecord → gmap string CookieRecord)
    (st : State) : State :=
  mkState (heap st) (crawledPages st) (f (crawledCookies st))
          (crawledIframes st) (console st) (navigations st).
Definition with_iframes (f : gmap string IframeRecord → gmap string IframeRecord)
    (st : State) : State :=
  mkState (heap st) (crawledPages st) (crawledCookies st)
          (f (crawledIframes st)) (console st) (navigations st).
Definition with_console (f : list string → list string) (st : State) : State :=
  mkState (heap st) (crawledPages st) (crawledCookies st)
          (crawledIframes st) (f (console st)) (navigations st).
Definition with_navigations (f : list string → list string) (st : State) : State :=
  mkState (heap st) (crawledPages st) (crawledCookies st)
          (crawledIframes st) (console st) (f (navigations st)).

(** ** A state and exception monad with fuel *)

Inductive Result (A : Type) : Type :=
| Ok (a : A) (st : State)
| Thrown (e : Error) (st : State)
| OutOfFuel.
Arguments Ok {A} a st.
Arguments Thrown {A} e st.
Arguments OutOfFuel {A}.

Definition M (A : Type) : Type := State → Result A.

Definition ret {A} (a : A) : M A := λ st, Ok a st.
Definition bind {A B} (m : M A) (f : A → M B) : M B :=
  λ st, match m st with
        | Ok a st' => f a st'
        | Thrown e st' => Thrown e st'
        | OutOfFuel => OutOfFuel
        end.
Definition throw {A} (e : Error) : M A := λ st, Thrown e st.
Definition gets {A} (f : State → A) : M A := λ st, Ok (f st) st.
Definition modify (f : State → State) : M unit := λ st, Ok tt (f st).

#[global] Instance M_ret : MRet M := @ret.
#[global] Instance M_bind : MBind M := λ A B f m, bind m f.

(** [array.forEach(f)] and [for (const x of array) await f(x)]. *)
Fixpoint forEach {A} (f : A → M unit) (l : list A) : M unit :=
  match l with
  | [] => ret tt
  | x :: l' => f x ;; forEach f l'
  end.

(** [array.map(f)] for an [f] with effects. *)
Fixpoint mapEach {A B} (f : A → M B) (l : list A) : M (list B) :=
  match l with
  | [] => ret []
  | x :: l' => y ← f x; ys ← mapEach f l'; ret (y :: ys)
  end.

(** The state a computation stopped in, however it stopped. *)
Definition final {A} (r : Result A) : option State :=
  match r with
  | Ok _ st | Thrown _ st => Some st
  | OutOfFuel => None
  end.

(** ** Store operations *)

Definition read (l : loc) : M PageNode :=
  λ st, match heap st !! l with
        | Some n => Ok n st
        | None => Thrown BadRef st
        end.

(** [{url}] *)
Definition alloc (n : PageNode) : M loc :=
  λ st, Ok (length (heap st)) (with_heap (λ h, h ++ [n]) st).

Definition put_title (t : option string) (n : PageNode) : PageNode :=
  mkPageNode (url n) t (children n).
Definition put_children (cs : option (list loc)) (n : PageNode) : PageNode :=
  mkPageNode (url n) (title n) cs.

(** [l.title = t] and [l.children = cs] *)
Definition set_title (l : loc) (t : option string) : M unit :=
  modify (with_heap (alter (put_title t) l)).
Definition set_children (l : loc) (cs : option (list loc)) : M unit :=
  modify (with_heap (alter (put_children cs) l)).

Definition log (line : string) : M unit :=
  modify (with_console (λ c, c ++ [line])).

(** ** The scripts evaluated in the page *)

(** [indexOf(pat) < 0] *)
Definition lacks (pat s : string) : bool :=
  match String.index 0 pat s with
  | Some _ => false
  | None => true
  end.

(** [findAllElements]: every element in document order, each followed by
    what is found below its shadow root. *)
Fixpoint with_shadow (el : Element) : list Element :=
  match el with
  | mkElement n h s r => mkElement n h s r :: flat_map with_shadow r
  end.

Definition findAllElements (nodes : list Element) : list Element :=
  flat_map with_shadow nodes.

(** [Array.from(new Set(filtered))]: insertion order, first occurrence kept. *)
Definition set_add (acc : list string) (x : string) : list string :=
  if decide (x ∈ acc) then acc else acc ++ [x].
Definition from_set (l : list string) : list string := fold_left set_add l [].

(** [{url}]: a page object with nothing but its URL. *)
Definition stub (a : string) : PageNode := mkPageNode a None None.

(** What one round of the two [forEach] loops over iframes and cookies
    does to the maps. *)
Definition add_iframe (u : string) (m : gmap string IframeRecord) (x : string)
    : gmap string IframeRecord :=
  match m !! x with
  | Some _ => m
  | None => <[x := mkIframeRecord x u]> m
  end.
Definition add_cookie (u : string) (m : gmap string CookieRecord) (c : Cookie)
    : gmap string CookieRecord :=
  match m !! name c with
  | Some _ => m
  | None => <[name c := mkCookieRecord c u]> m
  end.

(** ** Configuration and the output directory *)

(** [str.replace(/[\/:]/g, '_')].  Strings are sequences of bytes here;
    [/] and [:] are single bytes that occur in no multi-byte character, so
    replacing bytes is replacing characters. *)
Definition slug_char (c : ascii) : ascii :=
  if decide (c = "/"%char ∨ c = ":"%char) then "_"%char else c.

Fixpoint slugify (str : string) : string :=
  match str with
  | EmptyString => EmptyString
  | String c rest => String (slug_char c) (slugify rest)
  end.

(** [env || fallback] for an environment variable: unset and empty are
    both falsy. *)
Definition or_default (env : option string) (fallback : string) : string :=
  match env with
  | Some (String c rest) => String c rest
  | _ => fallback
  end.

(** [process.env.URL || '...'] *)
Definition config_URL (env_URL : option string) : string :=
  or_default env_URL "https://alc-roehrsdorf.de/anfahrt.html".


(** [process.env.OUTDIR || `output/${slugify(URL)}`] *)
Definition config_OUT_DIR (env_OUTDIR : option string) (url : string) : string :=
  or_default env_OUTDIR ("output/" +:+ slugify url).

(** [s.split('/')] *)
Fixpoint split_on (sep : ascii) (s : string) : list string :=
  match s with
  | EmptyString => [EmptyString]
  | String c rest =>
      if decide (c = sep) then EmptyString :: split_on sep rest
      else match split_on sep rest with
           | [] => [String c EmptyString]
           | part :: parts => String c part :: parts
           end
  end.

(** What [fs.mkdirSync] does to a file system of type [FS]: it returns, or
    it throws an error with a code. *)
Inductive MkResult (FS : Type) : Type :=
| Made (fs : FS)
| Failed (code : string) (fs : FS).
Arguments Made {FS} fs.
Arguments Failed {FS} code fs.

(** The [reduce] of [mkdirSync] from [parentPath] on: every directory name
    is appended to the path so far, the path is created unless it exists,
    and the next round starts from the path with a slash.  The first error
    ends the loop.  [existsSync] and [mkdir] are [fs.existsSync] and
    [fs.mkdirSync]. *)
Fixpoint make_dirs {FS} (existsSync : FS → string → bool)
    (mkdir : FS → string → MkResult FS)
    (parentPath : string) (parts : list string) (fs : FS) : MkResult FS :=
  match parts with
  | [] => Made fs
  | dirName :: rest =>
      let currentPath := parentPath +:+ dirName in
      if existsSync fs currentPath
      then make_dirs existsSync mkdir (currentPath +:+ "/") rest fs
      else match mkdir fs currentPath with
           | Made fs' => make_dirs existsSync mkdir (currentPath +:+ "/") rest fs'
           | Failed code fs' => Failed code fs'
           end
  end.

(** [mkdirSync(dirPath)]: the loop inside [try], and the handler that lets
    the code [EEXIST] pass. *)
Definition mkdirSync {FS} (existsSync : FS → string → bool)
    (mkdir : FS → string → MkResult FS) (dirPath : string) (fs : FS) : MkResult FS :=
  match make_dirs existsSync mkdir "" (split_on "/" dirPath) fs with
  | Made fs' => Made fs'
  | Failed code fs' => if decide (code ≠ "EEXIST") then Failed code fs' else Made fs'
  end.

(** The paths the loop looks at, in order. *)
Fixpoint paths_from (parentPath : string) (parts : list string) : list string :=
  match parts with
  | [] => []
  | dirName :: rest =>
      (parentPath +:+ dirName) :: paths_from ((parentPath +:+ dirName) +:+ "/") rest
  end.

Definition dir_paths (dirPath : string) : list string :=
  paths_from "" (split_on "/" dirPath).

(** A file system that is the set of the paths that exist, where making
    a directory fails with [EEXIST] on a path that exists. *)
Definition set_exists (fs : gset string) (p : string) : bool := bool_decide (p ∈ fs).
Definition set_mkdir (fs : gset string) (p : string) : MkResult (gset string) :=
  if decide (p ∈ fs) then Failed "EEXIST" fs else Made (fs ∪ {[p]}).

(** The file system a call of [fs.mkdirSync] leaves behind. *)
Definition fs_of {FS} (r : MkResult FS) : FS :=
  match r with Made fs | Failed _ fs => fs end.

(** [s] has the character [c]. *)
Fixpoint has_char (c : ascii) (s : string) : bool :=
  match s with
  | EmptyString => false
  | String d rest => bool_decide (d = c) || has_char c rest
  end.

(** ** Reading the result *)

(** The tree [JSON.stringify(root)] walks.  The walk runs out of fuel on a
    cyclic structure. *)
#[warnings="-register-all"]
Inductive Tree : Type :=
  TNode (u : string) (t : option string) (cs : option (list Tree)).

Fixpoint tree_of (fuel : nat) (h : list PageNode) (l : loc) : option Tree :=
  match fuel with
  | O => None
  | S k =>
      n ← h !! l;
      match children n with
      | None => Some (TNode (url n) (title n) None)
      | Some cs => ts ← mapM (tree_of k h) cs; Some (TNode (url n) (title n) (Some ts))
      end
  end.

(** The object reached from [l] by following child indices. *)
Fixpoint descend (h : list PageNode) (l : loc) (path : list nat) : option loc :=
  match path with
  | [] => Some l
  | i :: rest =>
      n ← h !! l;
      cs ← children n;
      c ← cs !! i;
      descend h c rest
  end.

(** A postcondition for results: [I] after a normal return, [J e] after
    an exception [e]; running out of fuel promises nothing. *)
Definition post {A} (I : State → Prop) (J : Error → State → Prop) (r : Result A) : Prop :=
  match r with
  | Ok _ st' => I st'
  | Thrown e st' => J e st'
  | OutOfFuel => True
  end.

(** Two states with the same maps and the same navigation trace. *)
Definition same_maps (st st' : State) : Prop :=
  crawledPages st' = crawledPages st
  ∧ crawledCookies st' = crawledCookies st
  ∧ crawledIframes st' = crawledIframes st
  ∧ navigations st' = navigations st.

(** Two stores that hold the same objects up to their titles. *)
Definition same_links (h h' : list PageNode) : Prop :=
  ∀ l, url <$> h' !! l = url <$> h !! l
       ∧ children <$> h' !! l = children <$> h !! l.

(** The state after the first half of the reuse branch: the line is
    logged, title and children of [it] are assigned to [page]. *)
Definition reused_head (page : loc) (u : string) (it : PageNode) (st : State) : State :=
  mkState
    (alter (put_children (children it)) page
       (alter (put_title (title it)) page (heap st)))
    (crawledPages st) (crawledCookies st) (crawledIframes st)
    (console st ++ ["Reusing route: " +:+ u]) (navigations st).

(** What the reuse branch may change: no map, no URL, and no children
    field but that of [page], which becomes that of the entry [i]. *)
Definition reuse_effect (page i : loc) (st st' : State) : Prop :=
  same_maps st st'
  ∧ (∀ l, url <$> heap st' !! l = url <$> heap st !! l)
  ∧ (∀ l, l ≠ page → children <$> heap st' !! l = children <$> heap st !! l)
  ∧ (children <$> heap st' !! page = children <$> heap st !! page
     ∨ children <$> heap st' !! page = children <$> heap st !! i).

(** The state a result carries. *)
Definition state_of {A} (r : Result A) : State :=
  match r with
  | Ok _ st | Thrown _ st => st
  | OutOfFuel => initial
  end.

(** *** The tree as the specification describes it *)

(** An object nothing was written to. *)
Definition unexplored (n : PageNode) : Prop :=
  (title n = None ∨ title n = Some "") ∧ (children n = None ∨ children n = Some []).

(** Every object [D + 1] links below [root] is unexplored. *)
Definition depth_bound (D : Z) (h : list PageNode) (root : loc) : Prop :=
  ∀ path l n, Z.of_nat (length path) = D + 1 →
    descend h root path = Some l → h !! l = Some n → unexplored n.


(** The tree expected for the three pages [a], [b], [c]: the child of [c]
    carries the title of [b]. *)
Definition scenario_as_specified (a b c : string) (t : Tree) : Prop :=
  ∃ ta tb tc cs,
    (cs = None ∨ cs = Some [])
    ∧ t = TNode a (Some ta)
            (Some [TNode b (Some tb) (Some []);
                   TNode c (Some tc) (Some [TNode b (Some tb) cs])]).

(** Below [page] titles are shown one level down and no further: an
    object reached from [page] that carries a title is [page] itself or
    one of its children. *)
Definition one_level (h : list PageNode) (page : loc) : Prop :=
  ∀ path l n, descend h page path = Some l → h !! l = Some n →
    is_Some (title n) → (length path ≤ 1)%nat.


(** [l] lies so few links below [root] that a call that many calls below
    the first one passes the guard [depth > D]. *)
Definition within (D : Num) (h : list PageNode) (root l : loc) : Prop :=
  ∃ path, ¬ exceeds (depth_after (length path)) D ∧ descend h root path = Some l.

(** Every object whose children have been assigned lies that close to
    [root]. *)
Definition explored_within (D : Num) (h : list PageNode) (root : loc) : Prop :=
  ∀ l n, h !! l = Some n → is_Some (children n) → within D h root l.

(** A children field that has been assigned keeps its value. *)
Definition grows (h h' : list PageNode) : Prop :=
  ∀ l n cs, h !! l = Some n → children n = Some cs →
    ∃ n', h' !! l = Some n' ∧ children n' = Some cs.

(** *** Shapes of the store *)

(** Every entry of [crawledPages] is an object with that URL whose
    children have been assigned. *)
Definition entries_ok (st : State) : Prop :=
  ∀ u i, crawledPages st !! u = Some i →
    ∃ n, heap st !! i = Some n ∧ url n = u ∧ is_Some (children n).

(** Arrays hold addresses of objects of the store. *)
Definition closed (h : list PageNode) : Prop :=
  ∀ l n cs c, h !! l = Some n → children n = Some cs → c ∈ cs → is_Some (h !! c).

(** An object with children has the children of the entry of its URL. *)
Definition shares_with_entry (st : State) : Prop :=
  ∀ l n cs, heap st !! l = Some n → children n = Some cs →
    ∃ i ni, crawledPages st !! url n = Some i
            ∧ heap st !! i = Some ni ∧ children ni = Some cs.

(** The shape every state of a run has. *)
Definition wf (st : State) : Prop :=
  entries_ok st ∧ closed (heap st) ∧ shares_with_entry st.

(** [Q u a] holds for every parent with URL [u] and every child of it
    with URL [a]. *)
Definition child_urls (Q : string → string → Prop) (h : list PageNode) : Prop :=
  ∀ l n cs c cn, h !! l = Some n → children n = Some cs → c ∈ cs →
    h !! c = Some cn → Q (url n) (url cn).

(** No child has the URL [seed]. *)
Definition no_seed_child (seed : string) (h : list PageNode) : Prop :=
  child_urls (λ _ a, a ≠ seed) h.

(** No child has the URL of its parent. *)
Definition no_own_child (h : list PageNode) : Prop :=
  child_urls (λ u a, a ≠ u) h.

(** The title the reuse branch writes into a child with URL [u]:
    [item ? item.title : ''] for [item = crawledPages.get(u)]. *)
Definition backfill (st : State) (u : string) : option string :=
  match crawledPages st !! u with
  | Some j => n ← heap st !! j; title n
  | None => Some ""
  end.

(** The object at [l] after the reuse branch has run on [page] with the
    entry [it] whose children are [cs]. *)
Definition reused_node (st : State) (page : loc) (it : PageNode) (cs : list loc)
    (l : loc) (n : PageNode) : PageNode :=
  mkPageNode (url n)
    (if decide (l ∈ cs) then backfill st (url n)
     else if decide (l = page) then title it else title n)
    (if decide (l = page) then children it else children n).

(** ** Sample sites *)

Definition anchor (h : string) : Element := mkElement "a" h "" [].
Definition iframe (s : string) : Element := mkElement "iframe" "" s [].

(** A browser that knows the listed pages, each under its own address, and
    rejects every other URL. *)
Fixpoint site (pages : list LoadedPage) (u : string) : option LoadedPage :=
  match pages with
  | [] => None
  | pg :: rest => if decide (location_href pg = u) then Some pg else site rest u
  end.

(** Every URL parses and has the same origin. *)
Definition one_origin (u : string) : option string := Some "https://example.com".

(** The same, but [http://] does not parse: [new URL('http://')] throws. *)
Definition strict_origin (u : string) : option string :=
  if decide (u = "http://") then None else Some "https://example.com".

(** [a] links to [b] and [c], [b] to [d], [c] to [b], [d] to [e]; [e] does
    not load.  [a] and [b] both set a cookie named [session]. *)
Definition shop_a : LoadedPage :=
  mkLoadedPage "a" "A" [anchor "b"; iframe "ads"; anchor "c"]
    [mkCookie "session" [("value", "1")]].
Definition shop_b : LoadedPage :=
  mkLoadedPage "b" "B" [anchor "d"; iframe "ads"]
    [mkCookie "session" [("value", "2")]; mkCookie "cart" []].
Definition shop_c : LoadedPage := mkLoadedPage "c" "C" [anchor "b"] [].
Definition shop_d : LoadedPage := mkLoadedPage "d" "D" [anchor "e"] [].
Definition shop : list LoadedPage := [shop_a; shop_b; shop_c; shop_d].

(** The three pages of the scenario: [a] links to [b] and [c], [b] to
    [a], [c] to [b]. *)
Definition trio_a : LoadedPage :=
  mkLoadedPage "https://example.com/a" "A"
    [anchor "https://example.com/b"; anchor "https://example.com/c"] [].
Definition trio_b : LoadedPage :=
  mkLoadedPage "https://example.com/b" "B" [anchor "https://example.com/a"] [].
Definition trio_c : LoadedPage :=
  mkLoadedPage "https://example.com/c" "C" [anchor "https://example.com/b"] [].
Definition trio : list LoadedPage := [trio_a; trio_b; trio_c].

(** The shop with a page [e] that loads and has no links. *)
Definition shop_e : LoadedPage := mkLoadedPage "e" "E" [] [].
Definition deep_shop : list LoadedPage := shop ++ [shop_e].

(** A page with a cookie, an iframe and two anchors, the second with an
    [href] that does not parse. *)
Definition broken_a : LoadedPage :=
  mkLoadedPage "a" "A" [anchor "b"; iframe "ads"; anchor "http://"]
    [mkCookie "session" []].
Definition broken : list LoadedPage := [broken_a].



(** [a] links to [b], [b] to [c], and [c] back to [b]. *)
Definition ring_a : LoadedPage := mkLoadedPage "a" "A" [anchor "b"] [].
Definition ring_b : LoadedPage := mkLoadedPage "b" "B" [anchor "c"] [].
Definition ring_c : LoadedPage := mkLoadedPage "c" "C" [anchor "b"] [].
Definition ring : list LoadedPage := [ring_a; ring_b; ring_c].

Section Crawler.

(** Configuration and environment: the start URL, the depth limit, the
    browser's [new URL(s).origin] ([None] when [new URL(s)] throws because
    [s] does not parse), and what the browser shows for a URL ([None] when
    [goto] rejects). *)
Variable URL : string.
Variable maxDepth : Num.
Variable origin : string → option string.
Variable goto : string → option LoadedPage.

Definition is_page_anchor (el : Element) : bool :=
  bool_decide (localName el = "a")
  && negb (bool_decide (href el = ""))
  && lacks ".pdf" (href el)
  && negb (bool_decide (href el = ""))
  && lacks ".ics" (href el)
  && lacks "ahPg=search.list" (href el)
  && lacks "ahPg=show.vehicle" (href el).

(** The third [filter] of the anchor script, with [sameOrigin = true]:
    [new URL(location).origin === new URL(el.href).origin] is evaluated
    for the elements in turn; the first [new URL] that throws ends the
    script. *)
Fixpoint same_origin (location : string) (els : list Element)
    : option (list Element) :=
  match els with
  | [] => Some []
  | el :: rest =>
      here ← origin location;
      there ← origin (href el);
      kept ← same_origin location rest;
      Some (if decide (here = there) then el :: kept else kept)
  end.

(** What the first two [filter]s of the anchor script keep. *)
Definition candidates (pg : LoadedPage) : list Element :=
  let allElements := findAllElements (document_all pg) in
  filter (λ el, href el ≠ location_href pg)
    (filter (λ el, is_page_anchor el = true) allElements).

(** [collectAllSameOriginAnchorsDeep()], called with [sameOrigin = true]:
    the list it returns, or [None] when it throws. *)
Definition collectAllSameOriginAnchorsDeep (pg : LoadedPage) : option (list string) :=
  kept ← same_origin (location_href pg) (candidates pg);
  Some (from_set (href <$> kept)).

(** [findAllIframes()] *)
Definition findAllIframes (pg : LoadedPage) : list string :=
  let allElements := findAllElements (document_all pg) in
  let filtered :=
    el_src <$>
      filter (λ el, el_src el ≠ location_href pg)
        (filter (λ el, localName el = "iframe") allElements) in
  from_set filtered.

(** ** [crawl] *)

(** [browser.newPage()] and [newPage.goto(u, ...)]: the URL is recorded
    before the browser answers. *)
Definition navigate (u : string) : M LoadedPage :=
  modify (with_navigations (λ n, n ++ [u])) ;;
  match goto u with
  | Some pg => ret pg
  | None => throw (NavigationError u)
  end.

(** The callback of [page.children.forEach] in the reuse branch. *)
Definition fill_in (c : loc) : M unit :=
  cn ← read c;
  item ← gets (λ st, crawledPages st !! url cn);
  match item with
  | Some i => ni ← read i; set_title c (title ni)
  | None => set_title c (Some "")
  end.

(** The branch for a URL found in [crawledPages]. *)
Definition reuse (page : loc) (item : loc) : M unit :=
  p ← read page;
  log ("Reusing route: " +:+ url p) ;;
  it ← read item;
  set_title page (title it) ;;
  it ← read item;
  set_children page (children it) ;;
  p ← read page;
  match children p with
  | Some cs => forEach fill_in cs
  | None => throw TypeError
  end.

Definition note_iframe (u : string) (iframe : string) : M unit :=
  seen ← gets (λ st, crawledIframes st !! iframe);
  match seen with
  | Some _ => ret tt
  | None => modify (with_iframes (insert iframe (mkIframeRecord iframe u)))
  end.

Definition note_cookie (u : string) (c : Cookie) : M unit :=
  seen ← gets (λ st, crawledCookies st !! name c);
  match seen with
  | Some _ => ret tt
  | None => modify (with_cookies (insert (name c) (mkCookieRecord c u)))
  end.

(** [newPage.evaluate(collectAllSameOriginAnchorsDeep)]: the promise is
    rejected when the script throws. *)
Definition evaluate_anchors (u : string) (pg : LoadedPage) : M (list string) :=
  match collectAllSameOriginAnchorsDeep pg with
  | Some anchors => ret anchors
  | None => throw (ScriptError u)
  end.

(** The branch for a new URL, up to [newPage.close()].  [page.url] is
    read once: nothing ever assigns the [url] field of an object. *)
Definition load (page : loc) : M unit :=
  p ← read page;
  let u := url p in
  log ("Loading: " +:+ u) ;;
  pg ← navigate u;
  anchors ← evaluate_anchors u pg;
  let anchors := filter (λ a, a ≠ URL) anchors in
  set_title page (Some (document_title pg)) ;;
  cs ← mapEach (λ a, alloc (stub a)) anchors;
  set_children page (Some cs) ;;
  forEach (note_iframe u) (findAllIframes pg) ;;
  forEach (note_cookie u) (all_cookies pg) ;;
  modify (with_pages (insert u page)).

(** [crawl(browser, page, depth)].  One unit of fuel per nested call. *)
Fixpoint crawl (fuel : nat) (page : loc) (depth : Z) : M unit :=
  match fuel with
  | O => λ _, OutOfFuel
  | S fuel' =>
      if bool_decide (exceeds depth maxDepth) then ret tt
      else
        p ← read page;
        item ← gets (λ st, crawledPages st !! url p);
        match item with
        | Some i => reuse page i
        | None =>
            load page ;;
            p ← read page;
            match children p with
            | Some cs => forEach (λ childPage, crawl fuel' childPage (add1 depth)) cs
            | None => throw TypeError
            end
        end
  end.

(** The body of the top-level async function, up to the end of the
    crawl: [const root = {url: URL}; await crawl(browser, root)]. *)
Definition main (fuel : nat) : M loc :=
  root ← alloc (stub URL);
  crawl fuel root 0 ;;
  ret root.

(** *** First sightings

    What the maps of cookies and iframes should hold after the URLs of
    [log] have been visited in that order: for every name the record made
    on the first page that showed it. *)

Fixpoint find_cookie (n : string) (l : list Cookie) : option Cookie :=
  match l with
  | [] => None
  | c :: l' => if decide (name c = n) then Some c else find_cookie n l'
  end.

(** The page a visit of [u] records: the page the browser shows, when the
    anchor script returns on it.  The title, the children, the iframes
    and the cookies are all taken after that script has run. *)
Definition visit (u : string) : option LoadedPage :=
  pg ← goto u; _ ← collectAllSameOriginAnchorsDeep pg; Some pg.

(** The record a visit of [u] makes for the cookie name [n], the iframe
    source [x], when the maps have none yet. *)
Definition cookie_on (u n : string) : option CookieRecord :=
  pg ← visit u; c ← find_cookie n (all_cookies pg); Some (mkCookieRecord c u).

Definition iframe_on (u x : string) : option IframeRecord :=
  pg ← visit u;
  if decide (x ∈ findAllIframes pg) then Some (mkIframeRecord x u) else None.

Fixpoint first_cookie (log : list string) (n : string) : option CookieRecord :=
  match log with
  | [] => None
  | u :: rest =>
      match cookie_on u n with
      | Some r => Some r
      | None => first_cookie rest n
      end
  end.

Fixpoint first_iframe (log : list string) (x : string) : option IframeRecord :=
  match log with
  | [] => None
  | u :: rest =>
      match iframe_on u x with
      | Some r => Some r
      | None => first_iframe rest x
      end
  end.

(** *** The two branches as state transformers

    Closed forms of the state [load] ends in, used by the proofs below
    ([load_Some], [load_None]). *)

(** [anchors] after the start URL has been filtered out, for a page on
    which the script returns (the empty list stands in where it throws:
    there [load] stops before it uses them). *)
Definition links (pg : LoadedPage) : list string :=
  filter (λ a, a ≠ URL) (default [] (collectAllSameOriginAnchorsDeep pg)).

Definition loaded (page : loc) (u : string) (pg : LoadedPage) (st : State) : State :=
  mkState
    (alter (put_children (Some (seq (length (heap st)) (length (links pg))))) page
       (alter (put_title (Some (document_title pg))) page (heap st)
          ++ (stub <$> links pg)))
    (<[u := page]> (crawledPages st))
    (foldl (add_cookie u) (crawledCookies st) (all_cookies pg))
    (foldl (add_iframe u) (crawledIframes st) (findAllIframes pg))
    (console st ++ ["Loading: " +:+ u])
    (navigations st ++ [u]).

Definition refused (u : string) (st : State) : State :=
  mkState (heap st) (crawledPages st) (crawledCookies st) (crawledIframes st)
    (console st ++ ["Loading: " +:+ u]) (navigations st ++ [u]).

(** What a visit of [u] that fails throws: [goto] rejects, or else the
    anchor script throws. *)
Definition load_error (u : string) : Error :=
  match goto u with
  | None => NavigationError u
  | Some _ => ScriptError u
  end.

(** *** What holds of the states of a run *)

(** The state in which [main] calls [crawl]: the root object is the only
    object, every map is empty. *)
Definition started : State := mkState [stub URL] ∅ ∅ ∅ [] [].

(** Whatever was loaded is in [crawledPages], and nothing was loaded twice. *)
Definition fetched_once (st : State) : Prop :=
  NoDup (navigations st)
  ∧ ∀ u, u ∈ navigations st → is_Some (crawledPages st !! u).

(** The same after an exception: the URL whose visit failed is in the
    trace but not in the map. *)
Definition fetched_once_or_failed (st : State) : Prop :=
  NoDup (navigations st)
  ∧ ∀ u, u ∈ navigations st → is_Some (crawledPages st !! u) ∨ visit u = None.

(** The maps hold the first sightings along the navigation trace. *)
Definition first_sightings (st : State) : Prop :=
  ∀ n, crawledCookies st !! n = first_cookie (navigations st) n
       ∧ crawledIframes st !! n = first_iframe (navigations st) n.

(** The records of [st0] are still there. *)
Definition keeps_records (st0 st : State) : Prop :=
  (∀ n r, crawledCookies st0 !! n = Some r → crawledCookies st !! n = Some r)
  ∧ (∀ x r, crawledIframes st0 !! x = Some r → crawledIframes st !! x = Some r).

(** Every URL of the trace loaded. *)
Definition all_loaded (st : State) : Prop :=
  ∀ u, u ∈ navigations st → is_Some (goto u).

(** After a navigation error the URL that did not load is the last of the
    trace, and the only one that did not load. *)
Definition aborted (e : Error) (st : State) : Prop :=
  match e with
  | NavigationError u =>
      goto u = None
      ∧ ∃ log, navigations st = log ++ [u] ∧ ∀ v, v ∈ log → is_Some (goto v)
  | _ => all_loaded st
  end.

(** What the browser returns for a URL does not list that URL among its
    anchors. *)
Definition own_url_excluded : Prop :=
  ∀ u pg anchors,
    goto u = Some pg → collectAllSameOriginAnchorsDeep pg = Some anchors →
    u ∉ anchors.

(** On a well-formed store no child has the start URL, and none has the
    URL of its parent when the browser leaves out a page's own URL. *)
Definition loop_free (st : State) : Prop :=
  wf st ∧ no_seed_child URL (heap st)
  ∧ (own_url_excluded → no_own_child (heap st)).

(** [page] lies as many links below [root] as it takes calls to get from
    depth 0 to [depth]. *)
Definition at_depth (root : loc) (st : State) (page : loc) (depth : Z) : Prop :=
  ∃ path, depth_after (length path) = depth ∧ descend (heap st) root path = Some page.

(** From [st0] to [st] no assigned children field has changed, and in [st]
    the store is well formed with nothing explored below the limit. *)
Definition explored (root : loc) (st0 st : State) : Prop :=
  wf st ∧ explored_within maxDepth (heap st) root ∧ grows (heap st0) (heap st).

(** Every entry of [crawledPages] is an object with the URL of its key. *)
Definition keys_ok (st : State) : Prop :=
  ∀ u j, crawledPages st !! u = Some j → ∃ n, heap st !! j = Some n ∧ url n = u.

(** From [st0] to [st] nothing is taken back: every object is still
    there with its URL, every registered page is still registered as the
    same object, and that object has not changed; the navigation trace
    and the console have only been appended to. *)
Definition extends (st0 st : State) : Prop :=
  (∀ l n, heap st0 !! l = Some n → ∃ n', heap st !! l = Some n' ∧ url n' = url n)
  ∧ (∀ u i n, crawledPages st0 !! u = Some i → heap st0 !! i = Some n →
       crawledPages st !! u = Some i ∧ heap st !! i = Some n)
  ∧ navigations st0 `prefix_of` navigations st
  ∧ console st0 `prefix_of` console st.

(** The object [n] shows the page [pg]: it has its title, and the URLs of
    its children are the links of the page, in their order. *)
Definition shows (h : list PageNode) (n : PageNode) (pg : LoadedPage) : Prop :=
  title n = Some (document_title pg)
  ∧ ∃ cs, children n = Some cs
          ∧ Forall2 (λ c a, url <$> h !! c = Some a) cs (links pg).

(** Titles and children are those of the pages: a title is empty or the
    title of the page a visit of the URL of the object records, and an
    object whose children have been assigned shows that page. *)
Definition page_data (st : State) : Prop :=
  ∀ l n, heap st !! l = Some n →
    (∀ t, title n = Some t →
       t = "" ∨ ∃ pg, visit (url n) = Some pg ∧ t = document_title pg)
    ∧ (is_Some (children n) → ∃ pg, visit (url n) = Some pg ∧ shows (heap st) n pg).

(** Only URLs that were navigated to, loaded, and scanned by the anchor
    script are registered. *)
Definition keys_navigated (st : State) : Prop :=
  ∀ u, is_Some (crawledPages st !! u) → u ∈ navigations st ∧ is_Some (visit u).

(** The lines [crawl] prints. *)
Definition is_loading (line : string) : bool := String.prefix "Loading: " line.

Definition console_ok (st : State) : Prop :=
  filter (λ line, is_loading line = true) (console st)
  = (λ u, "Loading: " +:+ u) <$> navigations st
  ∧ Forall (λ line, ∃ u, line = "Loading: " +:+ u ∨ line = "Reusing route: " +:+ u)
      (console st).

(** [u] is a link of a page among [before] that loaded. *)
Definition link_of_loaded (before : list string) (u : string) : Prop :=
  ∃ v pg, v ∈ before ∧ goto v = Some pg ∧ u ∈ links pg.

(** Every URL of an object, and every URL handed to the browser, is the
    start URL or a link of a page that loaded before. *)
Definition reasoned (st : State) : Prop :=
  (∀ l n, heap st !! l = Some n →
     url n = URL ∨ link_of_loaded (navigations st) (url n))
  ∧ (∀ i u, navigations st !! i = Some u →
       u = URL ∨ link_of_loaded (take i (navigations st)) u).

(** ** Properties *)

(** *** Numbers *)

Lemma add1_exact d : - 2 ^ 53 ≤ d < 2 ^ 53 → add1 d = d + 1.
Proof. intros Hd. unfold add1. by rewrite decide_True. Qed.

Lemma add1_stuck : add1 (2 ^ 53) = 2 ^ 53.
Proof. reflexivity. Qed.

Lemma exceeds_mono d d' limit : d ≤ d' → exceeds d limit → exceeds d' limit.
Proof. destruct limit; cbn; [lia|done..]. Qed.

Lemma depth_after_S n : depth_after (S n) = add1 (depth_after n).
Proof. reflexivity. Qed.

(** [depth] counts the calls up to [2^53] and stays there. *)
Lemma depth_after_eq n : depth_after n = Z.min (Z.of_nat n) (2 ^ 53).
Proof.
  induction n as [|n IH]; [done|]. rewrite depth_after_S, IH.
  destruct (decide (Z.of_nat n < 2 ^ 53)) as [Hlt|Hge].
  - rewrite Z.min_l by lia. rewrite add1_exact by lia. lia.
  - rewrite Z.min_r by lia. rewrite add1_stuck. lia.
Qed.

(** *** Running the monad *)

Lemma bind_run {A B} (m : M A) (f : A → M B) st :
  (m ≫= f) st = match m st with
                | Ok a st' => f a st'
                | Thrown e st' => Thrown e st'
                | OutOfFuel => OutOfFuel
                end.
Proof. reflexivity. Qed.

Lemma post_forEach {A} (I : State → Prop) (J : Error → State → Prop)
    (f : A → M unit) (l : list A) :
  (∀ x st, x ∈ l → I st → post I J (f x st)) →
  ∀ st, I st → post I J (forEach f l st).
Proof.
  induction l as [|x l IH]; intros Hf st HI; [done|].
  cbn [forEach]. rewrite bind_run.
  specialize (Hf x st (list_elem_of_here _ _) HI) as Hx.
  destruct (f x st) as [[] st1|e st1|]; [|done..].
  apply IH; [|done]. intros y st' Hy. apply Hf. by apply list_elem_of_further.
Qed.

Lemma mapEach_alloc (l : list string) st :
  mapEach (λ a, alloc (stub a)) l st
  = Ok (seq (length (heap st)) (length l))
       (mkState (heap st ++ (stub <$> l)) (crawledPages st) (crawledCookies st)
                (crawledIframes st) (console st) (navigations st)).
Proof.
  revert st. induction l as [|a l IH]; intros st.
  - cbn. rewrite app_nil_r. by destruct st.
  - cbn [mapEach]. rewrite bind_run. unfold alloc at 1. rewrite bind_run, IH.
    cbn. rewrite length_app. cbn. rewrite Nat.add_1_r.
    by rewrite <- app_assoc.
Qed.

Lemma forEach_note_iframe u (l : list string) st :
  forEach (note_iframe u) l st
  = Ok tt (mkState (heap st) (crawledPages st) (crawledCookies st)
             (foldl (add_iframe u) (crawledIframes st) l)
             (console st) (navigations st)).
Proof.
  revert st. induction l as [|a l IH]; intros st.
  - cbn. by destruct st.
  - cbn [forEach]. rewrite bind_run. unfold note_iframe at 1. rewrite bind_run.
    cbn [gets foldl]. unfold add_iframe at 2.
    destruct (crawledIframes st !! a) eqn:E.
    + cbn [ret mret M_ret]. by rewrite IH.
    + cbn [modify]. by rewrite IH.
Qed.

Lemma forEach_note_cookie u (l : list Cookie) st :
  forEach (note_cookie u) l st
  = Ok tt (mkState (heap st) (crawledPages st)
             (foldl (add_cookie u) (crawledCookies st) l)
             (crawledIframes st) (console st) (navigations st)).
Proof.
  revert st. induction l as [|a l IH]; intros st.
  - cbn. by destruct st.
  - cbn [forEach]. rewrite bind_run. unfold note_cookie at 1. rewrite bind_run.
    cbn [gets foldl]. unfold add_cookie at 2.
    destruct (crawledCookies st !! name a) eqn:E.
    + cbn [ret mret M_ret]. by rewrite IH.
    + cbn [modify]. by rewrite IH.
Qed.

(** *** The new-URL branch *)

Lemma visit_Some u pg :
  visit u = Some pg ↔ goto u = Some pg ∧ is_Some (collectAllSameOriginAnchorsDeep pg).
Proof.
  unfold visit. destruct (goto u) as [pg'|]; cbn; [|by split; [|intros [? _]]].
  destruct (collectAllSameOriginAnchorsDeep pg') as [anchors|] eqn:Hc; cbn.
  - split; [intros [= <-]; by rewrite Hc|by intros [[= <-] _]].
  - split; [done|]. intros [[= <-] [? Hs]]. congruence.
Qed.

Lemma visit_None u :
  visit u = None ↔
  goto u = None ∨ ∃ pg, goto u = Some pg ∧ collectAllSameOriginAnchorsDeep pg = None.
Proof.
  unfold visit. destruct (goto u) as [pg|]; cbn; [|by split; [left|]].
  destruct (collectAllSameOriginAnchorsDeep pg) as [anchors|] eqn:Hc; cbn.
  - split; [done|]. intros [?|(pg' & [= <-] & ?)]; congruence.
  - split; [|done]. intros _. right. eauto.
Qed.

Lemma visit_goto u pg : visit u = Some pg → goto u = Some pg.
Proof. by intros [? _]%visit_Some. Qed.

Lemma load_Some page p pg st :
  heap st !! page = Some p → visit (url p) = Some pg →
  load page st = Ok tt (loaded page (url p) pg st).
Proof.
  intros Hp [Hg [anchors Hc]]%visit_Some. unfold load. rewrite bind_run.
  unfold read. rewrite Hp.
  rewrite bind_run. cbn [log modify]. rewrite bind_run.
  unfold navigate. rewrite bind_run. cbn [modify]. rewrite Hg. cbn [ret mret M_ret].
  rewrite bind_run. unfold evaluate_anchors. rewrite Hc. cbn [ret mret M_ret].
  rewrite bind_run. cbn [set_title modify]. rewrite bind_run, mapEach_alloc.
  rewrite bind_run. cbn [set_children modify]. rewrite bind_run, forEach_note_iframe.
  rewrite bind_run, forEach_note_cookie. unfold loaded, links. rewrite Hc.
  cbn. rewrite length_alter. reflexivity.
Qed.

Lemma load_None page p st :
  heap st !! page = Some p → visit (url p) = None →
  load page st = Thrown (load_error (url p)) (refused (url p) st).
Proof.
  intros Hp Hv. unfold load, load_error. rewrite bind_run. unfold read. rewrite Hp.
  rewrite bind_run. cbn [log modify]. rewrite bind_run.
  unfold navigate. rewrite bind_run. cbn [modify].
  apply visit_None in Hv as [Hg|(pg & Hg & Hc)]; rewrite Hg; [reflexivity|].
  cbn [ret mret M_ret]. rewrite bind_run. unfold evaluate_anchors. by rewrite Hc.
Qed.

(** The page object after [load]: title and children are set, the
    children are the addresses right above the old store. *)
Lemma loaded_page page p pg st :
  heap st !! page = Some p →
  heap (loaded page (url p) pg st) !! page
  = Some (mkPageNode (url p) (Some (document_title pg))
            (Some (seq (length (heap st)) (length (links pg))))).
Proof.
  intros Hp. cbn. apply lookup_lt_Some in Hp as Hlt.
  rewrite list_lookup_alter_eq, lookup_app_l by (by rewrite length_alter).
  by rewrite list_lookup_alter_eq, Hp.
Qed.

Lemma loaded_other page u pg st l :
  l ≠ page → (l < length (heap st))%nat →
  heap (loaded page u pg st) !! l = heap st !! l.
Proof.
  intros Hne Hlt. cbn.
  rewrite list_lookup_alter_ne, lookup_app_l by (done || by rewrite length_alter).
  by rewrite list_lookup_alter_ne.
Qed.

Lemma loaded_new page u pg st (k : nat) a :
  (page < length (heap st))%nat →
  links pg !! k = Some a →
  heap (loaded page u pg st) !! (length (heap st) + k)%nat = Some (stub a).
Proof.
  intros Hlt Hk. cbn.
  rewrite list_lookup_alter_ne by lia.
  rewrite lookup_app_r by (rewrite length_alter; lia).
  rewrite length_alter, list_lookup_fmap.
  replace (length (heap st) + k - length (heap st))%nat with k by lia.
  by rewrite Hk.
Qed.

Lemma loaded_length page u pg st :
  length (heap (loaded page u pg st))
  = (length (heap st) + length (links pg))%nat.
Proof. cbn. by rewrite length_alter, length_app, length_alter, length_fmap. Qed.

(** *** Unfolding [crawl] *)

Lemma crawl_S fuel page depth st :
  crawl (S fuel) page depth st =
    if bool_decide (exceeds depth maxDepth) then Ok tt st
    else match heap st !! page with
         | None => Thrown BadRef st
         | Some p =>
             match crawledPages st !! url p with
             | Some i => reuse page i st
             | None =>
                 match load page st with
                 | Ok _ st1 =>
                     match heap st1 !! page with
                     | None => Thrown BadRef st1
                     | Some p1 =>
                         match children p1 with
                         | Some cs =>
                             forEach (λ c, crawl fuel c (add1 depth)) cs st1
                         | None => Thrown TypeError st1
                         end
                     end
                 | Thrown e st1 => Thrown e st1
                 | OutOfFuel => OutOfFuel
                 end
             end
         end.
Proof.
  cbn [crawl]. case_bool_decide; [done|].
  rewrite bind_run. unfold read at 1. destruct (heap st !! page) as [p|]; [|done].
  rewrite bind_run. cbn [gets].
  destruct (crawledPages st !! url p) as [i|]; [done|].
  rewrite bind_run. destruct (load page st) as [[] st1|e st1|]; [|done..].
  rewrite bind_run. unfold read at 1. destruct (heap st1 !! page) as [p1|]; [|done].
  by destruct (children p1).
Qed.

(** *** The reuse branch *)

Lemma same_links_refl h : same_links h h.
Proof. done. Qed.

Lemma same_links_trans h1 h2 h3 :
  same_links h1 h2 → same_links h2 h3 → same_links h1 h3.
Proof.
  intros H12 H23 l. destruct (H12 l) as [<- <-]. apply H23.
Qed.

Lemma same_links_title h c t : same_links h (alter (put_title t) c h).
Proof.
  intros l. destruct (decide (c = l)) as [->|Hne].
  - rewrite list_lookup_alter_eq. by destruct (h !! l).
  - by rewrite list_lookup_alter_ne.
Qed.

Lemma same_maps_refl st : same_maps st st.
Proof. done. Qed.

Lemma same_maps_trans st1 st2 st3 :
  same_maps st1 st2 → same_maps st2 st3 → same_maps st1 st3.
Proof.
  intros (?&?&?&?) (?&?&?&?). unfold same_maps. repeat split; congruence.
Qed.

Lemma fill_in_run c st :
  fill_in c st =
    match heap st !! c with
    | None => Thrown BadRef st
    | Some cn =>
        match crawledPages st !! url cn with
        | Some i =>
            match heap st !! i with
            | Some ni => Ok tt (with_heap (alter (put_title (title ni)) c) st)
            | None => Thrown BadRef st
            end
        | None => Ok tt (with_heap (alter (put_title (Some "")) c) st)
        end
    end.
Proof.
  unfold fill_in. rewrite bind_run. unfold read at 1.
  destruct (heap st !! c) as [cn|]; [|done].
  rewrite bind_run. cbn [gets].
  destruct (crawledPages st !! url cn) as [i|]; [|done].
  rewrite bind_run. unfold read. by destruct (heap st !! i).
Qed.

(** [fill_in] stops, keeps the maps and writes titles only; it throws
    nothing but the errors of a broken store. *)
Lemma fill_in_any c st :
  match fill_in c st with
  | Ok _ st' => same_maps st st' ∧ same_links (heap st) (heap st')
  | Thrown e st' => st' = st ∧ e = BadRef
  | OutOfFuel => False
  end.
Proof.
  rewrite fill_in_run. destruct (heap st !! c) as [cn|]; [|done].
  destruct (crawledPages st !! url cn) as [i|].
  - destruct (heap st !! i) as [ni|]; [|done].
    split; [done|]. apply same_links_title.
  - split; [done|]. apply same_links_title.
Qed.

Lemma forEach_fill_in_any cs st :
  match forEach fill_in cs st with
  | Ok _ st' => same_maps st st' ∧ same_links (heap st) (heap st')
  | Thrown e st' => (same_maps st st' ∧ same_links (heap st) (heap st')) ∧ e = BadRef
  | OutOfFuel => False
  end.
Proof.
  revert st. induction cs as [|c cs IH]; intros st; [done|].
  cbn [forEach]. rewrite bind_run.
  pose proof (fill_in_any c st) as Hc.
  destruct (fill_in c st) as [[] st1|e st1|]; [|by destruct Hc as [-> ->]|done].
  destruct Hc as [Hm Hl]. specialize (IH st1).
  destruct (forEach fill_in cs st1) as [[] st2|e st2|]; [| |done].
  - destruct IH. eauto using same_maps_trans, same_links_trans.
  - destruct IH as [[] ->]. eauto using same_maps_trans, same_links_trans.
Qed.

Lemma reuse_run page i st :
  reuse page i st =
    match heap st !! page with
    | None => Thrown BadRef st
    | Some p =>
        match heap st !! i with
        | None => Thrown BadRef (with_console (λ c, c ++ ["Reusing route: " +:+ url p]) st)
        | Some it =>
            match children it with
            | Some cs => forEach fill_in cs (reused_head page (url p) it st)
            | None => Thrown TypeError (reused_head page (url p) it st)
            end
        end
    end.
Proof.
  unfold reuse. rewrite bind_run. unfold read at 1.
  destruct (heap st !! page) as [p|] eqn:Hp; [|done].
  rewrite bind_run. cbn [log modify]. rewrite bind_run. unfold read at 1.
  cbn [heap with_console].
  destruct (heap st !! i) as [it|] eqn:Hi; [|done].
  rewrite bind_run. cbn [set_title modify]. rewrite bind_run. unfold read at 1.
  cbn [heap with_heap with_console].
  assert (∃ it', alter (put_title (title it)) page (heap st) !! i = Some it'
                 ∧ children it' = children it) as (it' & -> & Hc).
  { destruct (decide (page = i)) as [->|Hne].
    - rewrite list_lookup_alter_eq, Hi. by eexists.
    - rewrite list_lookup_alter_ne, Hi by done. by eexists. }
  rewrite bind_run. cbn [set_children modify]. rewrite bind_run. unfold read at 1.
  cbn [heap with_heap with_console]. rewrite Hc.
  rewrite !list_lookup_alter_eq, Hp. cbn [fmap option_fmap option_map put_children children put_title].
  unfold reused_head. destruct (children it); reflexivity.
Qed.

Lemma reused_head_effect page i p it st :
  heap st !! page = Some p → heap st !! i = Some it →
  reuse_effect page i st (reused_head page (url p) it st).
Proof.
  intros Hp Hi. split; [done|]. cbn [heap reused_head]. split; [|split].
  - intros l. destruct (decide (page = l)) as [->|Hne].
    + rewrite !list_lookup_alter_eq. by destruct (heap st !! l).
    + by rewrite !list_lookup_alter_ne.
  - intros l Hne. by rewrite !list_lookup_alter_ne.
  - right. by rewrite !list_lookup_alter_eq, Hp, Hi.
Qed.

Lemma reuse_effect_links page i st st1 st2 :
  reuse_effect page i st st1 → same_maps st1 st2 →
  same_links (heap st1) (heap st2) → reuse_effect page i st st2.
Proof.
  intros (Hm & Hu & Hc & Hp) Hm' Hl. split; [eauto using same_maps_trans|].
  split; [|split].
  - intros l. destruct (Hl l) as [-> _]. apply Hu.
  - intros l Hne. destruct (Hl l) as [_ ->]. by apply Hc.
  - destruct (Hl page) as [_ ->]. done.
Qed.

(** The reuse branch in any state: it stops, goes to no page, and obeys
    [reuse_effect]. *)
Lemma reuse_any page i st :
  match reuse page i st with
  | Ok _ st' => reuse_effect page i st st'
  | Thrown e st' => reuse_effect page i st st' ∧ (e = BadRef ∨ e = TypeError)
  | OutOfFuel => False
  end.
Proof.
  rewrite reuse_run. destruct (heap st !! page) as [p|] eqn:Hp.
  2:{ split; [|by left]. split; [done|]. split; [done|]. split; [done|]. by left. }
  destruct (heap st !! i) as [it|] eqn:Hi.
  2:{ split; [|by left]. split; [done|]. split; [done|]. split; [done|]. by left. }
  pose proof (reused_head_effect page i p it st Hp Hi) as Hh.
  destruct (children it) as [cs|]; [|by split; [|right]].
  pose proof (forEach_fill_in_any cs (reused_head page (url p) it st)) as Hf.
  destruct (forEach fill_in cs _) as [[] st'|e st'|]; [| |done].
  - destruct Hf. eauto using reuse_effect_links.
  - destruct Hf as [[] ->]. split; [|by left]. eauto using reuse_effect_links.
Qed.

(** *** An induction principle for [crawl]

    A property [I] of states that the two branches establish again holds
    after the whole crawl; [J] is what is left of it when an exception
    ends the crawl. *)
Section Rule.

Variable I : State → Prop.
Variable J : Error → State → Prop.

Hypothesis broken_store : ∀ st, I st → J BadRef st ∧ J TypeError st.
Hypothesis reuse_step : ∀ page p i st,
  I st → heap st !! page = Some p → crawledPages st !! url p = Some i →
  post I J (reuse page i st).
Hypothesis load_step : ∀ page p st,
  I st → heap st !! page = Some p → crawledPages st !! url p = None →
  post I J (load page st).

Lemma crawl_rule fuel page depth st :
  I st → post I J (crawl fuel page depth st).
Proof.
  revert page depth st. induction fuel as [|fuel IH]; intros page depth st HI; [done|].
  rewrite crawl_S. case_bool_decide; [done|].
  destruct (heap st !! page) as [p|] eqn:Hp; [|by apply broken_store].
  destruct (crawledPages st !! url p) as [i|] eqn:Hi; [by eapply reuse_step|].
  pose proof (load_step page p st HI Hp Hi) as Hl.
  destruct (load page st) as [[] st1|e st1|]; [|done..].
  cbn [post] in Hl.
  destruct (heap st1 !! page) as [p1|]; [|by apply broken_store].
  destruct (children p1) as [cs|]; [|by apply broken_store].
  apply post_forEach; [|done]. intros c st' _. apply IH.
Qed.

End Rule.

(** *** Termination *)

Lemma forEach_stops {A} (f : A → M unit) (l : list A) :
  (∀ x st, f x st ≠ OutOfFuel) → ∀ st, forEach f l st ≠ OutOfFuel.
Proof.
  intros Hf. induction l as [|x l IH]; intros st; [done|].
  cbn [forEach]. rewrite bind_run. specialize (Hf x st).
  destruct (f x st) as [[] st1|e st1|]; [apply IH|done..].
Qed.

Lemma load_stops page st : load page st ≠ OutOfFuel.
Proof.
  destruct (heap st !! page) as [p|] eqn:Hp.
  - destruct (visit (url p)) as [pg|] eqn:Hg.
    + by erewrite load_Some.
    + by erewrite load_None.
  - unfold load. rewrite bind_run. unfold read. by rewrite Hp.
Qed.

Lemma reuse_stops page i st : reuse page i st ≠ OutOfFuel.
Proof. pose proof (reuse_any page i st) as H. by destruct (reuse page i st). Qed.

Lemma crawl_stops m fuel page depth st :
  maxDepth = Fin m → m < 2 ^ 53 → - 2 ^ 53 ≤ depth →
  (Z.to_nat (m + 1 - depth) < fuel)%nat →
  crawl fuel page depth st ≠ OutOfFuel.
Proof.
  intros Hm Hsafe. revert page depth st.
  induction fuel as [|fuel IH]; intros page depth st Hlow Hf; [lia|].
  rewrite crawl_S. case_bool_decide as Hd; [done|].
  destruct (heap st !! page) as [p|]; [|done].
  destruct (crawledPages st !! url p) as [i|]; [apply reuse_stops|].
  pose proof (load_stops page st) as Hl.
  destruct (load page st) as [[] st1|e st1|]; [|done..].
  destruct (heap st1 !! page) as [p1|]; [|done].
  destruct (children p1) as [cs|]; [|done].
  rewrite Hm in Hd. cbn in Hd.
  apply forEach_stops. intros c st'. rewrite add1_exact by lia. apply IH; lia.
Qed.


(** More fuel does not change a result. *)
Lemma forEach_more {A} (f g : A → M unit) (l : list A) :
  (∀ x st, f x st ≠ OutOfFuel → g x st = f x st) →
  ∀ st, forEach f l st ≠ OutOfFuel → forEach g l st = forEach f l st.
Proof.
  intros Hfg. induction l as [|x l IH]; intros st; [done|].
  cbn [forEach]. rewrite !bind_run. intros Hne.
  rewrite Hfg by (by destruct (f x st)).
  destruct (f x st) as [[] st1|e st1|]; [by apply IH|done..].
Qed.

Lemma crawl_more_fuel fuel page depth st :
  crawl fuel page depth st ≠ OutOfFuel →
  crawl (S fuel) page depth st = crawl fuel page depth st.
Proof.
  revert page depth st. induction fuel as [|fuel IH]; intros page depth st; [done|].
  rewrite (crawl_S (S fuel)), (crawl_S fuel). case_bool_decide; [done|].
  destruct (heap st !! page) as [p|]; [|done].
  destruct (crawledPages st !! url p) as [i|]; [done|].
  destruct (load page st) as [[] st1|e st1|]; [|done..].
  destruct (heap st1 !! page) as [p1|]; [|done].
  destruct (children p1) as [cs|]; [|done].
  apply forEach_more. intros c st'. apply IH.
Qed.

(** *** The depth limit *)

Lemma forEach_skip {A} (f : A → M unit) (l : list A) st :
  (∀ x, f x st = Ok tt st) → forEach f l st = Ok tt st.
Proof.
  intros Hf. induction l as [|x l IH]; [done|].
  cbn [forEach]. by rewrite bind_run, Hf.
Qed.

Lemma crawl_above fuel page depth st :
  exceeds depth maxDepth → crawl (S fuel) page depth st = Ok tt st.
Proof. intros Hd. rewrite crawl_S. by rewrite bool_decide_eq_true_2. Qed.

(** *** The whole run *)

Lemma main_run fuel :
  main fuel initial =
    match crawl fuel 0%nat 0 started with
    | Ok _ st' => Ok 0%nat st'
    | Thrown e st' => Thrown e st'
    | OutOfFuel => OutOfFuel
    end.
Proof.
  unfold main. rewrite bind_run. cbn [alloc initial heap length with_heap app].
  rewrite bind_run.
  change (with_heap _ initial) with started.
  by destruct (crawl fuel 0%nat 0 started) as [[] ?| |].
Qed.

Lemma main_final fuel st :
  final (main fuel initial) = Some st → final (crawl fuel 0%nat 0 started) = Some st.
Proof. rewrite main_run. by destruct (crawl fuel 0%nat 0 started). Qed.

Lemma post_final {A} (I : State → Prop) (J : Error → State → Prop) (r : Result A) st :
  post I J r → final r = Some st → I st ∨ ∃ e, J e st.
Proof. destruct r; cbn; intros H [= <-]; eauto. Qed.

Lemma main_stops m fuel :
  maxDepth = Fin m → m < 2 ^ 53 →
  (Z.to_nat (m + 1) < fuel)%nat → ∃ st, final (main fuel initial) = Some st.
Proof.
  intros Hm Hsafe Hf. rewrite main_run.
  pose proof (crawl_stops m fuel 0%nat 0 started Hm Hsafe) as H.
  destruct (crawl fuel 0%nat 0 started); [by eexists..|].
  exfalso. apply H; [lia| |done]. by rewrite Z.sub_0_r.
Qed.

(** *** Every URL is loaded at most once *)

Lemma fetched_once_weaken st : fetched_once st → fetched_once_or_failed st.
Proof. intros [Hn Hr]. split; [done|]. intros u Hu. left. by apply Hr. Qed.

Lemma fetched_once_maps st st' :
  same_maps st st' → fetched_once st → fetched_once st'.
Proof. intros (Hp & _ & _ & Hn) [? ?]. unfold fetched_once. by rewrite Hp, Hn. Qed.

Lemma crawl_fetched_once fuel page depth st :
  fetched_once st →
  post fetched_once (λ _, fetched_once_or_failed) (crawl fuel page depth st).
Proof.
  apply crawl_rule.
  - intros st0 H. split; by apply fetched_once_weaken.
  - intros pg p i st0 HI _ _. pose proof (reuse_any pg i st0) as Hr.
    destruct (reuse pg i st0) as [[] st1|e st1|]; cbn [post]; [| |done].
    + destruct Hr as [Hm _]. by eapply fetched_once_maps.
    + destruct Hr as [[Hm _] _]. apply fetched_once_weaken.
      by eapply fetched_once_maps.
  - intros pg p st0 [Hn Hr] Hp Hnew.
    assert (url p ∉ navigations st0) as Hfresh.
    { intros Hin. apply Hr in Hin as [? Hin]. congruence. }
    assert (NoDup (navigations st0 ++ [url p])) as Hn'.
    { apply NoDup_app. split; [done|]. split; [|apply NoDup_singleton].
      intros v Hv ->%list_elem_of_singleton. done. }
    destruct (visit (url p)) as [lp|] eqn:Hg.
    + erewrite load_Some by done. cbn [post]. split; [done|].
      cbn [loaded navigations crawledPages]. intros u [Hu| ->%list_elem_of_singleton]%elem_of_app.
      * apply lookup_insert_is_Some'. right. by apply Hr.
      * apply lookup_insert_is_Some'. by left.
    + erewrite load_None by done. cbn [post]. split; [done|].
      cbn [refused navigations crawledPages]. intros u [Hu| ->%list_elem_of_singleton]%elem_of_app.
      * left. by apply Hr.
      * by right.
Qed.

(** C1. In a run no URL is handed to the browser twice; and when the run
    returns, every URL that was loaded is a key of [crawledPages]: [crawl]
    looks the URL up before it loads, and stores it in the same call. *)
Theorem at_most_one_fetch fuel st :
  final (main fuel initial) = Some st →
  NoDup (navigations st)
  ∧ (∀ root, main fuel initial = Ok root st →
       ∀ u, u ∈ navigations st → is_Some (crawledPages st !! u)).
Proof.
  intros Hf. pose proof (main_final _ _ Hf) as Hc.
  assert (fetched_once started) as H0.
  { split; [apply NoDup_nil_2|]. by intros u ?%elem_of_nil. }
  pose proof (crawl_fetched_once fuel 0%nat 0 started H0) as Hpost.
  split.
  - destruct (post_final _ _ _ _ Hpost Hc) as [[? _]|[_ [? _]]]; done.
  - intros root Hmain. rewrite main_run in Hmain.
    destruct (crawl fuel 0%nat 0 started) as [[] st1|e st1|]; [|done..].
    injection Hmain as _ <-. apply Hpost.
Qed.

(** *** Cookies and iframes: the first sighting stays *)

Lemma foldl_add_cookie u (l : list Cookie) (m : gmap string CookieRecord) n :
  foldl (add_cookie u) m l !! n =
    match m !! n with
    | Some r => Some r
    | None => (λ c, mkCookieRecord c u) <$> find_cookie n l
    end.
Proof.
  revert m. induction l as [|c l IH]; intros m; cbn [foldl find_cookie].
  - by destruct (m !! n).
  - rewrite IH. unfold add_cookie. destruct (m !! name c) eqn:Hc.
    + destruct (decide (name c = n)) as [<-|Hn]; [|done]. by rewrite Hc.
    + rewrite lookup_insert. destruct (decide (name c = n)) as [<-|Hn]; [|done].
      by rewrite Hc.
Qed.

Lemma foldl_add_iframe u (l : list string) (m : gmap string IframeRecord) x :
  foldl (add_iframe u) m l !! x =
    match m !! x with
    | Some r => Some r
    | None => if decide (x ∈ l) then Some (mkIframeRecord x u) else None
    end.
Proof.
  revert m. induction l as [|y l IH]; intros m; cbn [foldl].
  - destruct (m !! x); [done|]. case_decide as H; [|done]. by apply elem_of_nil in H.
  - rewrite IH. unfold add_iframe.
    assert (x ≠ y → (if decide (x ∈ y :: l) then Some (mkIframeRecord x u) else None)
                    = (if decide (x ∈ l) then Some (mkIframeRecord x u) else None))
      as Htail.
    { intros Hne. destruct (decide (x ∈ l)) as [Hl|Hl].
      - by rewrite decide_True by (by apply list_elem_of_further).
      - rewrite decide_False; [done|]. by intros [?|?]%elem_of_cons. }
    destruct (m !! y) eqn:Hy.
    + destruct (m !! x) eqn:Hx; [done|]. rewrite Htail; [done|congruence].
    + rewrite lookup_insert. destruct (decide (y = x)) as [->|Hne].
      * rewrite Hy. by rewrite decide_True by apply list_elem_of_here.
      * destruct (m !! x); [done|]. by rewrite Htail.
Qed.

Lemma first_cookie_app log u n :
  first_cookie (log ++ [u]) n =
    match first_cookie log n with
    | Some r => Some r
    | None => cookie_on u n
    end.
Proof.
  induction log as [|v log IH]; cbn [app first_cookie].
  - by destruct (cookie_on u n).
  - by destruct (cookie_on v n).
Qed.

Lemma first_iframe_app log u x :
  first_iframe (log ++ [u]) x =
    match first_iframe log x with
    | Some r => Some r
    | None => iframe_on u x
    end.
Proof.
  induction log as [|v log IH]; cbn [app first_iframe].
  - by destruct (iframe_on u x).
  - by destruct (iframe_on v x).
Qed.

Lemma crawl_first_sightings fuel page depth st :
  first_sightings st →
  post first_sightings (λ _, first_sightings) (crawl fuel page depth st).
Proof.
  apply crawl_rule.
  - done.
  - intros pg p i st0 HI _ _. pose proof (reuse_any pg i st0) as Hr.
    assert (∀ st1, same_maps st0 st1 → first_sightings st1) as Hk.
    { intros st1 (_ & Hc & Hi & Hn). unfold first_sightings. by rewrite Hc, Hi, Hn. }
    destruct (reuse pg i st0) as [[] st1|e st1|]; cbn [post]; [| |done].
    + apply Hk, Hr.
    + apply Hk, Hr.
  - intros pg p st0 HI Hp Hnew.
    destruct (visit (url p)) as [lp|] eqn:Hg.
    + erewrite load_Some by done. cbn [post]. intros n.
      cbn [loaded navigations crawledCookies crawledIframes].
      rewrite foldl_add_cookie, foldl_add_iframe, first_cookie_app, first_iframe_app.
      destruct (HI n) as [-> ->]. unfold cookie_on, iframe_on. rewrite Hg. cbn.
      split.
      * destruct (first_cookie (navigations st0) n); [done|].
        by destruct (find_cookie n (all_cookies lp)).
      * done.
    + erewrite load_None by done. cbn [post]. intros n.
      cbn [refused navigations crawledCookies crawledIframes].
      rewrite first_cookie_app, first_iframe_app.
      destruct (HI n) as [-> ->]. unfold cookie_on, iframe_on. rewrite Hg. cbn.
      split.
      * by destruct (first_cookie (navigations st0) n).
      * by destruct (first_iframe (navigations st0) n).
Qed.

Lemma keeps_records_trans st0 st1 st2 :
  keeps_records st0 st1 → keeps_records st1 st2 → keeps_records st0 st2.
Proof. intros [? ?] [? ?]. split; eauto. Qed.

Lemma loaded_keeps page u lp st : keeps_records st (loaded page u lp st).
Proof.
  split; intros n r Hr; cbn [loaded crawledCookies crawledIframes].
  - by rewrite foldl_add_cookie, Hr.
  - by rewrite foldl_add_iframe, Hr.
Qed.

Lemma crawl_keeps_records st0 fuel page depth st :
  keeps_records st0 st →
  post (keeps_records st0) (λ _, keeps_records st0) (crawl fuel page depth st).
Proof.
  apply crawl_rule.
  - done.
  - intros pg p i st1 HI _ _. pose proof (reuse_any pg i st1) as Hr.
    assert (∀ st2, same_maps st1 st2 → keeps_records st0 st2) as Hk.
    { intros st2 (_ & Hc & Hi & _). destruct HI. split; intros ??; rewrite ?Hc, ?Hi; eauto. }
    destruct (reuse pg i st1) as [[] st2|e st2|]; cbn [post]; [| |done].
    + apply Hk, Hr.
    + apply Hk, Hr.
  - intros pg p st1 HI Hp Hnew.
    destruct (visit (url p)) as [lp|] eqn:Hg.
    + erewrite load_Some by done. cbn [post].
      eapply keeps_records_trans; [done|]. apply loaded_keeps.
    + erewrite load_None by done. done.
Qed.

Lemma cookie_on_firstFound u n r : cookie_on u n = Some r → cookie_firstFound r = u.
Proof.
  unfold cookie_on. destruct (visit u) as [pg|]; [|done]. cbn.
  destruct (find_cookie n (all_cookies pg)); [|done]. cbn. by intros [= <-].
Qed.

Lemma iframe_on_firstFound u x r : iframe_on u x = Some r → firstFound r = u.
Proof.
  unfold iframe_on. destruct (visit u) as [pg|]; [|done]. cbn.
  case_decide; [|done]. by intros [= <-].
Qed.

(** The record found along a trace was made at a URL of the trace, and at
    no URL before it. *)
Lemma first_cookie_earliest log n r :
  first_cookie log n = Some r →
  ∃ before after,
    log = before ++ cookie_firstFound r :: after
    ∧ cookie_on (cookie_firstFound r) n = Some r
    ∧ ∀ v, v ∈ before → cookie_on v n = None.
Proof.
  induction log as [|u log IH]; cbn [first_cookie]; [done|].
  destruct (cookie_on u n) as [r'|] eqn:Hu.
  - intros [= ->]. exists [], log. rewrite (cookie_on_firstFound _ _ _ Hu).
    split; [done|]. split; [done|]. by intros v ?%elem_of_nil.
  - intros (before & after & -> & Hr & Hb)%IH. exists (u :: before), after.
    split; [done|]. split; [done|]. intros v [->|?]%elem_of_cons; auto.
Qed.

Lemma first_iframe_earliest log x r :
  first_iframe log x = Some r →
  ∃ before after,
    log = before ++ firstFound r :: after
    ∧ iframe_on (firstFound r) x = Some r
    ∧ ∀ v, v ∈ before → iframe_on v x = None.
Proof.
  induction log as [|u log IH]; cbn [first_iframe]; [done|].
  destruct (iframe_on u x) as [r'|] eqn:Hu.
  - intros [= ->]. exists [], log. rewrite (iframe_on_firstFound _ _ _ Hu).
    split; [done|]. split; [done|]. by intros v ?%elem_of_nil.
  - intros (before & after & -> & Hr & Hb)%IH. exists (u :: before), after.
    split; [done|]. split; [done|]. intros v [->|?]%elem_of_cons; auto.
Qed.

Lemma main_first_sightings fuel st :
  final (main fuel initial) = Some st → first_sightings st.
Proof.
  intros Hf%main_final.
  assert (first_sightings started) as H0 by done.
  pose proof (crawl_first_sightings fuel 0%nat 0 started H0) as Hpost.
  destruct (post_final _ _ _ _ Hpost Hf) as [?|[_ ?]]; done.
Qed.

(** C5. A cookie or iframe record, once in its map, is still there
    unchanged whenever a later call of [crawl] ends, whatever the pages
    loaded by that call show under the same name.  And at the end of a run
    the record under a name is the one made on the first page of the
    navigation trace that showed the name: its [firstFound] is a URL of
    the trace, the page at that URL showed the name, and no page loaded
    before it did. *)
Theorem first_seen_wins :
  (∀ fuel page depth st st',
     final (crawl fuel page depth st) = Some st' → keeps_records st st')
  ∧ (∀ fuel st,
       final (main fuel initial) = Some st →
       ∀ n, crawledCookies st !! n = first_cookie (navigations st) n
            ∧ crawledIframes st !! n = first_iframe (navigations st) n)
  ∧ (∀ fuel st n r,
       final (main fuel initial) = Some st → crawledCookies st !! n = Some r →
       ∃ before after,
         navigations st = before ++ cookie_firstFound r :: after
         ∧ cookie_on (cookie_firstFound r) n = Some r
         ∧ ∀ v, v ∈ before → cookie_on v n = None)
  ∧ (∀ fuel st x r,
       final (main fuel initial) = Some st → crawledIframes st !! x = Some r →
       ∃ before after,
         navigations st = before ++ firstFound r :: after
         ∧ iframe_on (firstFound r) x = Some r
         ∧ ∀ v, v ∈ before → iframe_on v x = None).
Proof.
  split; [|split; [|split]].
  - intros fuel page depth st st' Hf.
    assert (keeps_records st st) as H0 by done.
    pose proof (crawl_keeps_records st fuel page depth st H0) as Hpost.
    destruct (post_final _ _ _ _ Hpost Hf) as [?|[_ ?]]; done.
  - intros fuel st Hf. exact (main_first_sightings _ _ Hf).
  - intros fuel st n r Hf Hr. apply first_cookie_earliest.
    by destruct (main_first_sightings _ _ Hf n) as [<- _].
  - intros fuel st x r Hf Hr. apply first_iframe_earliest.
    by destruct (main_first_sightings _ _ Hf x) as [_ <-].
Qed.

(** *** A page that does not load ends the run *)

Lemma crawl_aborted fuel page depth st :
  all_loaded st → post all_loaded aborted (crawl fuel page depth st).
Proof.
  apply crawl_rule.
  - done.
  - intros pg p i st0 HI _ _. pose proof (reuse_any pg i st0) as Hr.
    assert (∀ st1, same_maps st0 st1 → all_loaded st1) as Hk.
    { intros st1 (_ & _ & _ & Hn). unfold all_loaded. by rewrite Hn. }
    destruct (reuse pg i st0) as [[] st1|e st1|]; cbn [post]; [| |done].
    + apply Hk, Hr.
    + destruct Hr as [Hr [-> | ->]]; apply Hk, Hr.
  - intros pg p st0 HI Hp Hnew.
    destruct (visit (url p)) as [lp|] eqn:Hg.
    + erewrite load_Some by done. cbn [post]. intros u.
      cbn [loaded navigations]. intros [Hu| ->%list_elem_of_singleton]%elem_of_app.
      * by apply HI.
      * by rewrite (visit_goto _ _ Hg).
    + erewrite load_None by done. unfold load_error.
      destruct (goto (url p)) as [lp|] eqn:Hl; cbn [post aborted].
      * intros u. cbn [refused navigations].
        intros [Hu| ->%list_elem_of_singleton]%elem_of_app; [by apply HI|by rewrite Hl].
      * split; [done|]. by exists (navigations st0).
Qed.


Lemma crawl_refused fuel page p depth st :
  ¬ exceeds depth maxDepth → heap st !! page = Some p →
  crawledPages st !! url p = None → goto (url p) = None →
  crawl (S fuel) page depth st = Thrown (NavigationError (url p)) (refused (url p) st).
Proof.
  intros Hd Hp Hnew Hg. rewrite crawl_S, bool_decide_eq_false_2 by done.
  rewrite Hp, Hnew. erewrite load_None; [|done|by apply visit_None; left].
  unfold load_error. by rewrite Hg.
Qed.

(** C8. [crawl] has no handler.  When the page of a new URL does not
    load, the call throws the navigation error at once: the URL is in the
    trace, but no object and no map has changed, so the tree shows no mark
    of the failure.  And a run in which some URL did not load has ended
    with that error right after that navigation: the URL is the last of
    the trace and was tried once. *)
Theorem navigation_error_aborts :
  (∀ fuel page p depth st,
     ¬ exceeds depth maxDepth → heap st !! page = Some p →
     crawledPages st !! url p = None → goto (url p) = None →
     crawl (S fuel) page depth st
     = Thrown (NavigationError (url p)) (refused (url p) st))
  ∧ (∀ fuel st u,
       final (main fuel initial) = Some st →
       u ∈ navigations st → goto u = None →
       main fuel initial = Thrown (NavigationError u) st
       ∧ ∃ log, navigations st = log ++ [u] ∧ u ∉ log).
Proof.
  split; [apply crawl_refused|].
  intros fuel st u Hf Hu Hg. rewrite main_run in *.
  assert (all_loaded started) as H0 by (by intros v ?%elem_of_nil).
  pose proof (crawl_aborted fuel 0%nat 0 started H0) as Hpost.
  destruct (crawl fuel 0%nat 0 started) as [[] st1|e st1|]; cbn in Hf, Hpost; [| |done].
  - injection Hf as ->. apply Hpost in Hu as [? Hu]. congruence.
  - injection Hf as ->.
    assert (∀ v, is_Some (goto v) → v ≠ u) as Hne.
    { intros v [? Hv] ->. congruence. }
    destruct e as [v|v| |]; cbn [aborted] in Hpost.
    + destruct Hpost as (Hv & log & Hlog & Hall).
      rewrite Hlog in Hu. apply elem_of_app in Hu as [Hu| ->%list_elem_of_singleton].
      * apply Hall in Hu. by apply Hne in Hu.
      * split; [done|]. exists log. split; [done|].
        intros Hin. apply Hall in Hin. by apply Hne in Hin.
    + apply Hpost in Hu. by apply Hne in Hu.
    + apply Hpost in Hu. by apply Hne in Hu.
    + apply Hpost in Hu. by apply Hne in Hu.
Qed.

(** *** The store stays well formed *)

Lemma from_set_acc (l acc : list string) x :
  x ∈ fold_left set_add l acc → x ∈ acc ∨ x ∈ l.
Proof.
  revert acc. induction l as [|y l IH]; intros acc; cbn [fold_left]; [by left|].
  intros [Hx|Hx]%IH; [|right; by apply list_elem_of_further].
  unfold set_add in Hx. case_decide; [by left|].
  apply elem_of_app in Hx as [?| ->%list_elem_of_singleton]; [by left|].
  right. apply list_elem_of_here.
Qed.

Lemma from_set_elem (l : list string) x : x ∈ from_set l → x ∈ l.
Proof. intros [[]%elem_of_nil|?]%from_set_acc. done. Qed.

(** The third filter keeps the elements with the origin of the page, when
    every [new URL] returns. *)
Lemma same_origin_Some location els kept :
  same_origin location els = Some kept →
  ∀ el, el ∈ kept ↔
        el ∈ els ∧ ∃ o, origin location = Some o ∧ origin (href el) = Some o.
Proof.
  revert kept. induction els as [|x els IH]; intros kept; cbn [same_origin].
  - intros [= <-] el. split; [by intros ?%elem_of_nil|by intros [?%elem_of_nil _]].
  - destruct (origin location) as [here|] eqn:Hl; [|done]. cbn.
    destruct (origin (href x)) as [there|] eqn:Hx; [|done]. cbn.
    destruct (same_origin location els) as [kept'|]; [|done]. cbn.
    specialize (IH kept' eq_refl). intros [= <-] el.
    destruct (decide (here = there)) as [->|Hne].
    + rewrite !elem_of_cons, IH. split.
      * intros [->|[? ?]]; [|by auto]. split; [by left|]. by exists there.
      * intros [[->|?] Ho]; [by left|by right].
    + rewrite elem_of_cons, IH. split; [intros [? ?]; by auto|].
      intros [[->|?] Ho]; [|done]. destruct Ho as (o & [= <-] & Ho). congruence.
Qed.


Lemma collect_Some pg anchors :
  collectAllSameOriginAnchorsDeep pg = Some anchors →
  ∃ kept,
    same_origin (location_href pg) (candidates pg) = Some kept
    ∧ anchors = from_set (href <$> kept).
Proof.
  unfold collectAllSameOriginAnchorsDeep.
  destruct (same_origin _ _) as [kept|]; [|done]. cbn. intros [= <-]. eauto.
Qed.

(** The in-page script leaves out the links to the page's own address. *)
Lemma collect_not_own pg anchors :
  collectAllSameOriginAnchorsDeep pg = Some anchors → location_href pg ∉ anchors.
Proof.
  intros (kept & Hk & ->)%collect_Some Hin%from_set_elem.
  apply list_elem_of_fmap in Hin as (el & Heq & Hel).
  apply (same_origin_Some _ _ _ Hk) in Hel as [Hel _].
  unfold candidates in Hel.
  apply list_elem_of_filter in Hel as [Hne _]. by symmetry in Heq.
Qed.

Lemma links_not_seed pg a : a ∈ links pg → a ≠ URL.
Proof. unfold links. by intros [? _]%list_elem_of_filter. Qed.

Lemma links_collected pg a :
  a ∈ links pg →
  ∃ anchors, collectAllSameOriginAnchorsDeep pg = Some anchors ∧ a ∈ anchors.
Proof.
  unfold links. intros [_ Hin]%list_elem_of_filter.
  destruct (collectAllSameOriginAnchorsDeep pg) as [anchors|]; [by eauto|].
  by apply elem_of_nil in Hin.
Qed.

Lemma loaded_url page p pg st l :
  heap st !! page = Some p → (l < length (heap st))%nat →
  url <$> heap (loaded page (url p) pg st) !! l = url <$> heap st !! l.
Proof.
  intros Hp Hl. destruct (decide (l = page)) as [->|Hne].
  - by rewrite (loaded_page _ _ _ _ Hp), Hp.
  - by rewrite loaded_other.
Qed.

Lemma loaded_above page u pg st l n :
  (page < length (heap st))%nat → (length (heap st) ≤ l)%nat →
  heap (loaded page u pg st) !! l = Some n →
  ∃ k a, l = (length (heap st) + k)%nat ∧ links pg !! k = Some a ∧ n = stub a.
Proof.
  intros Hp Hl. cbn [loaded heap].
  rewrite list_lookup_alter_ne by lia.
  rewrite lookup_app_r by (rewrite length_alter; lia).
  rewrite length_alter, list_lookup_fmap. intros Hn.
  destruct (links pg !! (l - length (heap st))%nat) as [a|] eqn:Ha; [|done].
  exists (l - length (heap st))%nat, a. split; [lia|]. split; [done|].
  cbn in Hn. congruence.
Qed.

Lemma loaded_valid page u pg st l :
  is_Some (heap st !! l) → is_Some (heap (loaded page u pg st) !! l).
Proof.
  intros Hl%lookup_lt_is_Some. apply lookup_lt_is_Some.
  rewrite loaded_length. lia.
Qed.

(** The cases of an object of the store after [load]. *)
Lemma loaded_cases page p pg st l n :
  heap st !! page = Some p →
  heap (loaded page (url p) pg st) !! l = Some n →
  (l = page
     ∧ n = mkPageNode (url p) (Some (document_title pg))
             (Some (seq (length (heap st)) (length (links pg)))))
  ∨ (l ≠ page ∧ heap st !! l = Some n)
  ∨ (∃ k a, l = (length (heap st) + k)%nat ∧ links pg !! k = Some a ∧ n = stub a).
Proof.
  intros Hp Hn. apply lookup_lt_Some in Hp as Hlt.
  destruct (decide (l = page)) as [->|Hne].
  - left. rewrite (loaded_page _ _ _ _ Hp) in Hn. split; congruence.
  - destruct (decide (l < length (heap st))%nat).
    + right. left. rewrite loaded_other in Hn by done. done.
    + right. right. eapply loaded_above; [done| |done]. lia.
Qed.

Lemma elem_of_seq_links pg (base c : nat) :
  c ∈ seq base (length (links pg)) →
  ∃ k a, c = (base + k)%nat ∧ links pg !! k = Some a.
Proof.
  intros [Hb Hc]%elem_of_seq.
  destruct (lookup_lt_is_Some_2 (links pg) (c - base)%nat) as [a Ha]; [lia|].
  exists (c - base)%nat, a. split; [lia|done].
Qed.

Lemma wf_loaded page p pg st :
  wf st → heap st !! page = Some p → crawledPages st !! url p = None →
  wf (loaded page (url p) pg st).
Proof.
  intros (He & Hc & Hs) Hp Hnew. apply lookup_lt_Some in Hp as Hlt.
  assert (∀ u i, crawledPages st !! u = Some i → i ≠ page) as Hni.
  { intros u i Hu ->. destruct (He _ _ Hu) as (n & Hn & <- & _). congruence. }
  split; [|split].
  - intros u i. cbn [loaded crawledPages]. rewrite lookup_insert.
    case_decide as Hu.
    + intros [= <-]. subst u. eexists. split; [by apply loaded_page|]. by split.
    + intros Hi. destruct (He _ _ Hi) as (n & Hn & Hun & Hcn).
      exists n. split; [|done]. rewrite loaded_other; [done|by eapply Hni|].
      by eapply lookup_lt_Some.
  - intros l n cs c Hn Hcs Hin.
    destruct (loaded_cases _ _ _ _ _ _ Hp Hn) as [[-> ->]|[[Hne Hn']|(k & a & -> & Hk & ->)]].
    + injection Hcs as <-. apply elem_of_seq_links in Hin as (k & a & -> & Hk).
      erewrite loaded_new by done. by eexists.
    + apply loaded_valid. by eapply Hc.
    + done.
  - intros l n cs Hn Hcs.
    destruct (loaded_cases _ _ _ _ _ _ Hp Hn) as [[-> ->]|[[Hne Hn']|(k & a & -> & Hk & ->)]].
    + exists page. eexists. cbn [loaded crawledPages url].
      rewrite lookup_insert_eq. split; [done|]. split; [by apply loaded_page|done].
    + destruct (Hs _ _ _ Hn' Hcs) as (i & ni & Hi & Hni' & Hci).
      exists i, ni. cbn [loaded crawledPages].
      rewrite lookup_insert_ne by congruence. split; [done|]. split; [|done].
      rewrite loaded_other; [done|by eapply Hni|by eapply lookup_lt_Some].
    + done.
Qed.

Lemma reuse_effect_lookup page i st st' l n' :
  reuse_effect page i st st' → heap st' !! l = Some n' →
  ∃ n, heap st !! l = Some n ∧ url n' = url n
       ∧ (l ≠ page → children n' = children n).
Proof.
  intros (_ & Hu & Hc & _) Hn'. specialize (Hu l). specialize (Hc l).
  rewrite Hn' in Hu, Hc. destruct (heap st !! l) as [n|]; [|done].
  exists n. split; [done|]. split; [by injection Hu|].
  intros Hne. specialize (Hc Hne). by injection Hc.
Qed.

Lemma reuse_effect_page page i st st' p' :
  reuse_effect page i st st' → heap st' !! page = Some p' →
  (∃ p, heap st !! page = Some p ∧ children p' = children p)
  ∨ (∃ it, heap st !! i = Some it ∧ children p' = children it).
Proof.
  intros (_ & _ & _ & [Hc|Hc]) Hp'; rewrite Hp' in Hc; cbn in Hc.
  - left. destruct (heap st !! page) as [p|]; [|done]. exists p.
    cbn in Hc. split; congruence.
  - right. destruct (heap st !! i) as [it|]; [|done]. exists it.
    cbn in Hc. split; congruence.
Qed.

Lemma reuse_effect_valid page i st st' l :
  reuse_effect page i st st' → is_Some (heap st !! l) → is_Some (heap st' !! l).
Proof.
  intros (_ & Hu & _) [n Hn]. specialize (Hu l). rewrite Hn in Hu.
  destruct (heap st' !! l); [by eexists|done].
Qed.

(** The parent whose children an object of [st'] has: itself in [st], or
    the entry when the object is [page]. *)
Lemma reuse_effect_parent page i st st' l n' :
  reuse_effect page i st st' → heap st' !! l = Some n' →
  ∃ l0 n0, heap st !! l0 = Some n0 ∧ children n' = children n0
           ∧ (l0 = l ∨ (l = page ∧ l0 = i)).
Proof.
  intros He Hn'. destruct (decide (l = page)) as [->|Hne].
  - destruct (reuse_effect_page _ _ _ _ _ He Hn') as [(p & ? & ?)|(it & ? & ?)].
    + exists page, p. auto.
    + exists i, it. auto.
  - destruct (reuse_effect_lookup _ _ _ _ _ _ He Hn') as (n & ? & _ & Hc).
    exists l, n. auto.
Qed.

Lemma wf_reuse_effect page p i st st' :
  wf st → heap st !! page = Some p → crawledPages st !! url p = Some i →
  reuse_effect page i st st' → wf st'.
Proof.
  intros (He & Hc & Hs) Hp Hi Hr. pose proof Hr as (Hm & _).
  destruct Hm as (Hpages & _).
  assert (∀ u j n', crawledPages st !! u = Some j → heap st' !! j = Some n' →
            ∃ n, heap st !! j = Some n ∧ url n' = url n ∧ children n' = children n)
    as Hentry.
  { intros u j n' Hj Hn'.
    destruct (reuse_effect_lookup _ _ _ _ _ _ Hr Hn') as (n & Hn & Hu & Hch).
    exists n. split; [done|]. split; [done|].
    destruct (decide (j = page)) as [->|Hne]; [|by apply Hch].
    destruct (He _ _ Hj) as (n0 & Hn0 & Hu0 & _).
    assert (n0 = p) as -> by congruence. subst u.
    assert (j' : i = page) by congruence. subst i.
    destruct (reuse_effect_page _ _ _ _ _ Hr Hn') as [(q & ? & ?)|(q & ? & ?)]; congruence. }
  split; [|split].
  - intros u j. rewrite Hpages. intros Hj.
    destruct (He _ _ Hj) as (n & Hn & Hu & Hcn).
    destruct (reuse_effect_valid _ _ _ _ j Hr) as [n' Hn']; [by eexists|].
    destruct (Hentry _ _ _ Hj Hn') as (n1 & Hn1 & Hu1 & Hc1).
    exists n'. split; [done|]. assert (n1 = n) as -> by congruence.
    split; [congruence|]. by rewrite Hc1.
  - intros l n' cs c Hn' Hcs Hin.
    destruct (reuse_effect_parent _ _ _ _ _ _ Hr Hn') as (l0 & n0 & Hn0 & Hch & _).
    eapply reuse_effect_valid; [done|]. eapply Hc; [done| |done]. congruence.
  - intros l n' cs Hn' Hcs. rewrite Hpages.
    destruct (reuse_effect_lookup _ _ _ _ _ _ Hr Hn') as (n & Hn & Hu & _).
    destruct (reuse_effect_parent _ _ _ _ _ _ Hr Hn') as (l0 & n0 & Hn0 & Hch & Hl0).
    assert (url n0 = url n) as Hu0.
    { destruct Hl0 as [->|[-> ->]]; [congruence|].
      destruct (He _ _ Hi) as (it & Hit & Huit & _). congruence. }
    destruct (Hs l0 n0 cs Hn0) as (j & nj & Hj & Hnj & Hcj); [congruence|].
    destruct (reuse_effect_valid _ _ _ _ j Hr) as [nj' Hnj']; [by eexists|].
    destruct (Hentry _ _ _ Hj Hnj') as (n1 & Hn1 & Hu1 & Hc1).
    exists j, nj'. split; [congruence|]. split; [done|]. congruence.
Qed.

Lemma crawl_wf fuel page depth st :
  wf st → post wf (λ _, wf) (crawl fuel page depth st).
Proof.
  apply crawl_rule.
  - done.
  - intros pg p i st0 HI Hp Hi. pose proof (reuse_any pg i st0) as Hr.
    destruct (reuse pg i st0) as [[] st1|e st1|]; cbn [post]; [| |done].
    + by eapply wf_reuse_effect.
    + destruct Hr as [Hr _]. by eapply wf_reuse_effect.
  - intros pg p st0 HI Hp Hnew.
    destruct (visit (url p)) as [lp|] eqn:Hg.
    + erewrite load_Some by done. by apply wf_loaded.
    + erewrite load_None by done. done.
Qed.

Lemma wf_started : wf started.
Proof.
  split; [|split].
  - by intros u i Hu.
  - intros [|l] n cs c Hn Hcs; [|done]. cbn in Hn. injection Hn as <-. done.
  - intros [|l] n cs Hn Hcs; [|done]. cbn in Hn. injection Hn as <-. done.
Qed.

(** *** Nothing is explored below the depth limit *)

Lemma post_mono {A} (I I' : State → Prop) (J J' : Error → State → Prop) (r : Result A) :
  (∀ st, I st → I' st) → (∀ e st, J e st → J' e st) → post I J r → post I' J' r.
Proof. intros HI HJ. destruct r; cbn; auto. Qed.

Lemma grows_refl h : grows h h.
Proof. intros l n cs ? ?. by exists n. Qed.

Lemma grows_trans h1 h2 h3 : grows h1 h2 → grows h2 h3 → grows h1 h3.
Proof.
  intros H12 H23 l n cs Hn Hcs.
  destruct (H12 _ _ _ Hn Hcs) as (n2 & Hn2 & Hcs2). by eapply H23.
Qed.

Lemma descend_cons h r i rest l :
  descend h r (i :: rest) = Some l ↔
  ∃ n cs c, h !! r = Some n ∧ children n = Some cs ∧ cs !! i = Some c
            ∧ descend h c rest = Some l.
Proof.
  cbn [descend]. split.
  - destruct (h !! r) as [n|]; [|done]. cbn.
    destruct (children n) as [cs|] eqn:Hcs; [|done]. cbn.
    destruct (cs !! i) as [c|] eqn:Hc; [|done]. cbn. intros H. by exists n, cs, c.
  - intros (n & cs & c & -> & Hcs & Hc & H). cbn. rewrite Hcs. cbn. by rewrite Hc.
Qed.

Lemma descend_grows h h' r path l :
  grows h h' → descend h r path = Some l → descend h' r path = Some l.
Proof.
  intros Hg. revert r. induction path as [|i rest IH]; intros r; [done|].
  rewrite !descend_cons. intros (n & cs & c & Hn & Hcs & Hc & H).
  destruct (Hg _ _ _ Hn Hcs) as (n' & Hn' & Hcs'). exists n', cs, c. auto.
Qed.

Lemma descend_snoc h r path l n cs i c :
  descend h r path = Some l → h !! l = Some n → children n = Some cs →
  cs !! i = Some c → descend h r (path ++ [i]) = Some c.
Proof.
  intros H Hn Hcs Hc. revert r H. induction path as [|j rest IH]; intros r.
  - intros H. cbn in H. injection H as ->. cbn [app].
    apply descend_cons. by exists n, cs, c.
  - cbn [app]. rewrite !descend_cons. intros (n0 & cs0 & c0 & ? & ? & ? & H).
    exists n0, cs0, c0. auto.
Qed.

Lemma within_grows D h h' root l : grows h h' → within D h root l → within D h' root l.
Proof. intros Hg (path & ? & ?). exists path. eauto using descend_grows. Qed.

Lemma grows_loaded page p pg st :
  wf st → heap st !! page = Some p → crawledPages st !! url p = None →
  grows (heap st) (heap (loaded page (url p) pg st)).
Proof.
  intros (_ & _ & Hs) Hp Hnew l n cs Hn Hcs.
  assert (l ≠ page) as Hne.
  { intros ->. assert (n = p) as -> by congruence.
    destruct (Hs _ _ _ Hn Hcs) as (i & ? & ? & _). congruence. }
  exists n. split; [|done]. rewrite loaded_other; [done..|]. by eapply lookup_lt_Some.
Qed.

Lemma grows_reuse_effect page p i st st' :
  wf st → heap st !! page = Some p → crawledPages st !! url p = Some i →
  reuse_effect page i st st' → grows (heap st) (heap st').
Proof.
  intros (_ & _ & Hs) Hp Hi Hr l n cs Hn Hcs.
  destruct (reuse_effect_valid _ _ _ _ l Hr) as [n' Hn']; [by eexists|].
  exists n'. split; [done|].
  destruct (decide (l = page)) as [->|Hne].
  - assert (n = p) as -> by congruence.
    destruct (reuse_effect_page _ _ _ _ _ Hr Hn') as [(q & ? & ?)|(it & Hit & ->)];
      [congruence|].
    destruct (Hs _ _ _ Hp Hcs) as (i' & ni & ? & ? & ?). congruence.
  - destruct (reuse_effect_lookup _ _ _ _ _ _ Hr Hn') as (n0 & ? & _ & Hch).
    rewrite Hch by done. congruence.
Qed.

Section Explored.

Variable root : loc.

Lemma explored_refl st :
  wf st → explored_within maxDepth (heap st) root → explored root st st.
Proof. intros. split; [done|]. split; [done|]. apply grows_refl. Qed.

Lemma explored_trans st0 st1 st2 :
  grows (heap st0) (heap st1) → explored root st1 st2 → explored root st0 st2.
Proof. intros ? (? & ? & ?). split; [done|]. split; [done|]. by eapply grows_trans. Qed.

Lemma explored_reuse page p i depth st st' :
  wf st → explored_within maxDepth (heap st) root →
  ¬ exceeds depth maxDepth → at_depth root st page depth →
  heap st !! page = Some p → crawledPages st !! url p = Some i →
  reuse_effect page i st st' → explored root st st'.
Proof.
  intros Hw He Hd (path & Hlen & Hpath) Hp Hi Hr.
  pose proof (grows_reuse_effect _ _ _ _ _ Hw Hp Hi Hr) as Hg.
  split; [by eapply wf_reuse_effect|]. split; [|done].
  intros l n' Hn' Hcs. destruct (decide (l = page)) as [->|Hne].
  - exists path. split; [by rewrite Hlen|]. by eapply descend_grows.
  - destruct (reuse_effect_lookup _ _ _ _ _ _ Hr Hn') as (n & Hn & _ & Hch).
    eapply within_grows; [done|]. eapply He; [done|]. by rewrite <- Hch.
Qed.

Lemma explored_loaded page p pg depth st :
  wf st → explored_within maxDepth (heap st) root →
  ¬ exceeds depth maxDepth → at_depth root st page depth →
  heap st !! page = Some p → crawledPages st !! url p = None →
  explored root st (loaded page (url p) pg st).
Proof.
  intros Hw He Hd (path & Hlen & Hpath) Hp Hnew.
  pose proof (grows_loaded _ _ pg _ Hw Hp Hnew) as Hg.
  split; [by apply wf_loaded|]. split; [|done].
  intros l n Hn Hcs.
  destruct (loaded_cases _ _ _ _ _ _ Hp Hn) as [[-> ->]|[[Hne Hn']|(k & a & -> & Hk & ->)]].
  - exists path. split; [by rewrite Hlen|]. by eapply descend_grows.
  - eapply within_grows; [done|]. by eapply He.
  - by destruct Hcs.
Qed.

Lemma crawl_explored fuel page depth st :
  wf st → explored_within maxDepth (heap st) root → at_depth root st page depth →
  post (explored root st) (λ _, explored root st) (crawl fuel page depth st).
Proof.
  revert page depth st. induction fuel as [|fuel IH]; intros page depth st Hw He Hat;
    [done|].
  rewrite crawl_S. case_bool_decide as Hd; [by apply explored_refl|].
  destruct (heap st !! page) as [p|] eqn:Hp; [|by apply explored_refl].
  destruct (crawledPages st !! url p) as [i|] eqn:Hi.
  { pose proof (reuse_any page i st) as Hr.
    destruct (reuse page i st) as [[] st1|e st1|]; cbn [post]; [| |done].
    - by eapply explored_reuse.
    - destruct Hr as [Hr _]. by eapply explored_reuse. }
  destruct (visit (url p)) as [lp|] eqn:Hg.
  2:{ erewrite load_None by done. cbn [post].
      split; [exact Hw|]. split; [exact He|]. apply grows_refl. }
  erewrite load_Some by done.
  pose proof (explored_loaded page p lp depth st Hw He Hd Hat Hp Hi) as (Hw1 & He1 & Hg1).
  set (st1 := loaded page (url p) lp st) in *.
  pose proof (loaded_page page p lp st Hp) as Hp1. fold st1 in Hp1. rewrite Hp1.
  cbn [children].
  eapply post_mono; [| |apply (post_forEach (explored root st1) (λ _, explored root st1))].
  - intros s. by apply explored_trans.
  - intros e s. by apply explored_trans.
  - intros c s Hc (Hws & Hes & Hgs).
    eapply post_mono; [| |apply IH; [done..|]].
    + intros s'. by apply explored_trans.
    + intros e s'. by apply explored_trans.
    + destruct Hat as (path & Hlen & Hpath).
      apply elem_of_seq_links in Hc as (k & a & -> & Hk).
      exists (path ++ [k]).
      split; [by rewrite length_app, Nat.add_1_r, depth_after_S, Hlen|].
      eapply descend_grows; [exact Hgs|].
      eapply descend_snoc; [by eapply descend_grows|exact Hp1|done|].
      cbn [children]. rewrite lookup_seq_lt; [done|]. by eapply lookup_lt_Some.
  - by apply explored_refl.
Qed.

End Explored.

(** C2, as the code has it.  A call above [maxDepth] returns at once and
    leaves the whole state as it was: no page is loaded, no map written,
    no object changed.  So when a page loaded at the last depth within
    [maxDepth] (the next depth is above it) returns from [crawl], its
    children are the fresh [{url}] objects made for its links.  And at
    the end of a run every object whose children have been assigned lies
    so few links below the root that the call that many calls below the
    first is within [maxDepth]: at most [maxDepth] links, for a finite
    [maxDepth] below [2^53]. *)
Theorem depth_cutoff :
  (∀ fuel page depth st,
     exceeds depth maxDepth → crawl (S fuel) page depth st = Ok tt st)
  ∧ (∀ fuel page depth st p pg,
       ¬ exceeds depth maxDepth → exceeds (add1 depth) maxDepth →
       heap st !! page = Some p →
       crawledPages st !! url p = None → visit (url p) = Some pg →
       ∃ st' p', crawl (S (S fuel)) page depth st = Ok tt st'
         ∧ navigations st' = navigations st ++ [url p]
         ∧ heap st' !! page = Some p'
         ∧ children p' = Some (seq (length (heap st)) (length (links pg)))
         ∧ ∀ k a, links pg !! k = Some a →
             heap st' !! (length (heap st) + k)%nat = Some (stub a))
  ∧ (∀ fuel st,
       final (main fuel initial) = Some st →
       ∀ l n, heap st !! l = Some n → is_Some (children n) →
         ∃ path, ¬ exceeds (depth_after (length path)) maxDepth
                 ∧ descend (heap st) 0 path = Some l)
  ∧ (∀ m fuel st,
       maxDepth = Fin m → m < 2 ^ 53 →
       final (main fuel initial) = Some st →
       ∀ l n, heap st !! l = Some n → is_Some (children n) →
         ∃ path, Z.of_nat (length path) ≤ m
                 ∧ descend (heap st) 0 path = Some l).
Proof.
  assert (∀ fuel st,
       final (main fuel initial) = Some st →
       ∀ l n, heap st !! l = Some n → is_Some (children n) →
         ∃ path, ¬ exceeds (depth_after (length path)) maxDepth
                 ∧ descend (heap st) 0 path = Some l) as Hrun.
  { intros fuel st Hf%main_final.
    assert (explored_within maxDepth (heap started) 0) as H0.
    { intros [|l] n Hn [cs Hcs]; [|done]. cbn in Hn. by injection Hn as <-. }
    assert (at_depth 0 started 0%nat 0) as Hat by (by exists []).
    pose proof (crawl_explored 0 fuel 0%nat 0 started wf_started H0 Hat) as Hpost.
    destruct (post_final _ _ _ _ Hpost Hf) as [(_ & H & _)|[_ (_ & H & _)]]; exact H. }
  split; [apply crawl_above|]. split; [|split; [exact Hrun|]].
  - intros fuel page depth st p pg Hd Hnext Hp Hr Hg.
    exists (loaded page (url p) pg st). eexists.
    rewrite crawl_S, bool_decide_eq_false_2 by done.
    rewrite Hp, Hr. erewrite load_Some by done.
    rewrite (loaded_page _ _ _ _ Hp). cbn [children].
    split; [|split; [done|split; [done|split; [done|]]]].
    + apply forEach_skip. intros c. by apply crawl_above.
    + intros k a Hk. apply loaded_new; [|done]. by eapply lookup_lt_Some.
  - intros m fuel st Hm Hsafe Hf l n Hn Hcs.
    destruct (Hrun fuel st Hf l n Hn Hcs) as (path & Hd & Hpath).
    exists path. split; [|done]. rewrite Hm, depth_after_eq in Hd. cbn in Hd. lia.
Qed.

(** *** No page is its own child, and none is a parent of the start page *)

Lemma child_urls_loaded Q page p pg st :
  wf st → child_urls Q (heap st) →
  heap st !! page = Some p →
  (∀ a, a ∈ links pg → Q (url p) a) →
  child_urls Q (heap (loaded page (url p) pg st)).
Proof.
  intros (He & Hc & Hs) HQ Hp Hnew l n cs c cn Hn Hcs Hin Hcn.
  destruct (loaded_cases _ _ _ _ _ _ Hp Hn) as [[-> ->]|[[Hne Hn']|(k & a & -> & Hk & ->)]].
  - injection Hcs as <-. apply elem_of_seq_links in Hin as (k & a & -> & Hk).
    erewrite loaded_new in Hcn; [|by eapply lookup_lt_Some|done].
    injection Hcn as <-. apply Hnew. by eapply list_elem_of_lookup_2.
  - destruct (Hc _ _ _ _ Hn' Hcs Hin) as [cn0 Hcn0].
    assert (url cn = url cn0) as ->.
    { pose proof (loaded_url page p pg st c Hp) as Hu.
      rewrite Hcn, Hcn0 in Hu. cbn in Hu.
      injection Hu; [done|]. by eapply lookup_lt_Some. }
    by eapply HQ.
  - done.
Qed.

Lemma child_urls_reuse Q page p i st st' :
  wf st → child_urls Q (heap st) →
  heap st !! page = Some p → crawledPages st !! url p = Some i →
  reuse_effect page i st st' → child_urls Q (heap st').
Proof.
  intros (He & Hc & Hs) HQ Hp Hi Hr l n' cs c cn' Hn' Hcs Hin Hcn'.
  destruct (reuse_effect_lookup _ _ _ _ _ _ Hr Hn') as (n & Hn & Hu & _).
  destruct (reuse_effect_lookup _ _ _ _ _ _ Hr Hcn') as (cn & Hcn & Huc & _).
  destruct (reuse_effect_parent _ _ _ _ _ _ Hr Hn') as (l0 & n0 & Hn0 & Hch & Hl0).
  assert (url n0 = url n') as <-.
  { destruct Hl0 as [->|[-> ->]]; [congruence|].
    destruct (He _ _ Hi) as (it & Hit & Huit & _). congruence. }
  rewrite Huc. eapply HQ; [done| |done..]. congruence.
Qed.

Lemma crawl_loop_free fuel page depth st :
  loop_free st → post loop_free (λ _, loop_free) (crawl fuel page depth st).
Proof.
  apply crawl_rule.
  - done.
  - intros pg p i st0 (Hw & H1 & H2) Hp Hi. pose proof (reuse_any pg i st0) as Hr.
    assert (∀ st1, reuse_effect pg i st0 st1 → loop_free st1) as Hk.
    { intros st1 He. split; [by eapply wf_reuse_effect|].
      split; [by eapply child_urls_reuse|].
      intros Hx. eapply child_urls_reuse; [done|by apply H2|done..]. }
    destruct (reuse pg i st0) as [[] st1|e st1|]; cbn [post]; [| |done].
    + by apply Hk.
    + apply Hk, Hr.
  - intros pg p st0 (Hw & H1 & H2) Hp Hnew.
    destruct (visit (url p)) as [lp|] eqn:Hg.
    + erewrite load_Some by done. cbn [post].
      split; [by apply wf_loaded|]. split.
      * apply child_urls_loaded; [done..|]. intros a. apply links_not_seed.
      * intros Hx. apply child_urls_loaded; [done|by apply H2|done|].
        intros a (anchors & Hc & Ha)%links_collected ->.
        by eapply (Hx _ _ _ (visit_goto _ _ Hg) Hc).
    + erewrite load_None by done. done.
Qed.

Lemma loop_free_started : loop_free started.
Proof.
  split; [apply wf_started|].
  split; [|intros _]; intros [|l] n cs c cn Hn Hcs; try done;
    cbn in Hn; injection Hn as <-; done.
Qed.

(** C7. At the end of a run no object that is a child of some object has
    the start URL.  And if the browser never lists a page's own URL among
    the anchors of that page, no child has the URL of its parent. *)
Theorem no_self_loop fuel st :
  final (main fuel initial) = Some st →
  (∀ l n cs c cn, heap st !! l = Some n → children n = Some cs → c ∈ cs →
     heap st !! c = Some cn → url cn ≠ URL)
  ∧ (own_url_excluded →
     ∀ l n cs c cn, heap st !! l = Some n → children n = Some cs → c ∈ cs →
       heap st !! c = Some cn → url cn ≠ url n).
Proof.
  intros Hf%main_final.
  pose proof (crawl_loop_free fuel 0%nat 0 started loop_free_started) as Hpost.
  destruct (post_final _ _ _ _ Hpost Hf) as [(_ & H1 & H2)|[_ (_ & H1 & H2)]];
    (split; [apply H1|intros Hx; by apply H2]).
Qed.

(** *** The reuse branch on a well-formed store *)

Lemma wf_keys_ok st : wf st → keys_ok st.
Proof. intros (He & _) u j Hj. destruct (He _ _ Hj) as (n & ? & ? & _). eauto. Qed.

Lemma put_title_same n : put_title (title n) n = n.
Proof. by destruct n. Qed.

Lemma backfill_entry st u j n :
  crawledPages st !! u = Some j → heap st !! j = Some n → backfill st u = title n.
Proof. intros Hj Hn. unfold backfill. by rewrite Hj, Hn. Qed.

Lemma fill_in_exact c cn st :
  keys_ok st → heap st !! c = Some cn →
  fill_in c st = Ok tt (with_heap (alter (put_title (backfill st (url cn))) c) st).
Proof.
  intros Hk Hc. rewrite fill_in_run, Hc. unfold backfill.
  destruct (crawledPages st !! url cn) as [j|] eqn:Hj; [|done].
  destruct (Hk _ _ Hj) as (nj & -> & _). done.
Qed.

(** Writing the title an entry already has leaves the entry as it is. *)
Lemma retitle_entry c cn st u j :
  keys_ok st → heap st !! c = Some cn → crawledPages st !! u = Some j →
  alter (put_title (backfill st (url cn))) c (heap st) !! j = heap st !! j.
Proof.
  intros Hk Hc Hj. destruct (decide (c = j)) as [->|Hne].
  - rewrite list_lookup_alter_eq, Hc. cbn.
    destruct (Hk _ _ Hj) as (n & Hn & Hu). assert (n = cn) as -> by congruence.
    rewrite <- Hu in Hj. by rewrite (backfill_entry _ _ _ _ Hj Hc), put_title_same.
  - by rewrite list_lookup_alter_ne.
Qed.

Lemma backfill_same st st' :
  crawledPages st' = crawledPages st →
  (∀ u j, crawledPages st !! u = Some j → heap st' !! j = heap st !! j) →
  ∀ u, backfill st' u = backfill st u.
Proof.
  intros Hp He u. unfold backfill. rewrite Hp.
  destruct (crawledPages st !! u) as [j|] eqn:Hj; [|done]. by rewrite (He _ _ Hj).
Qed.

Lemma keys_ok_same st st' :
  crawledPages st' = crawledPages st →
  (∀ u j, crawledPages st !! u = Some j → heap st' !! j = heap st !! j) →
  keys_ok st → keys_ok st'.
Proof.
  intros Hp He Hk u j. rewrite Hp. intros Hj. rewrite (He _ _ Hj). by apply Hk.
Qed.

Lemma forEach_fill_in_exact cs st :
  keys_ok st → Forall (λ c, is_Some (heap st !! c)) cs →
  ∃ st', forEach fill_in cs st = Ok tt st'
    ∧ same_maps st st' ∧ console st' = console st
    ∧ ∀ l, heap st' !! l
           = (λ n, if decide (l ∈ cs) then put_title (backfill st (url n)) n else n)
             <$> heap st !! l.
Proof.
  revert st. induction cs as [|c cs IH]; intros st Hk Hv.
  - exists st. split; [done|]. split; [done|]. split; [done|]. intros l.
    destruct (heap st !! l) as [n|]; [|done]. cbn.
    rewrite decide_False; [done|]. apply not_elem_of_nil.
  - apply Forall_cons in Hv as [[cn Hc] Hv].
    cbn [forEach]. rewrite bind_run, (fill_in_exact _ _ _ Hk Hc).
    set (st1 := with_heap (alter (put_title (backfill st (url cn))) c) st).
    assert (∀ u j, crawledPages st !! u = Some j → heap st1 !! j = heap st !! j) as He.
    { intros u j Hj. by eapply retitle_entry. }
    destruct (IH st1) as (st' & Hrun & Hm & Hcon & Hh).
    { by apply (keys_ok_same st st1). }
    { eapply Forall_impl; [exact Hv|]. intros d Hd. cbn in Hd |- *.
      apply lookup_lt_is_Some. rewrite length_alter. by apply lookup_lt_is_Some. }
    exists st'. split; [done|]. split; [done|]. split; [done|]. intros l.
    rewrite Hh. cbn [st1 heap with_heap].
    destruct (decide (c = l)) as [->|Hne].
    + rewrite list_lookup_alter_eq, Hc. cbn. f_equal.
      rewrite (decide_True (P := l ∈ l :: cs)) by apply list_elem_of_here.
      rewrite (backfill_same st st1) by done.
      case_decide; by destruct cn.
    + rewrite list_lookup_alter_ne by done.
      destruct (heap st !! l) as [n|]; [|done]. cbn. f_equal.
      rewrite (backfill_same st st1) by done.
      destruct (decide (l ∈ cs)) as [Hl|Hl].
      * by rewrite (decide_True (P := l ∈ c :: cs)) by (by apply list_elem_of_further).
      * rewrite (decide_False (P := l ∈ c :: cs)); [done|].
        intros [?|?]%elem_of_cons; congruence.
Qed.

Lemma reuse_exact page p i st :
  wf st → heap st !! page = Some p → crawledPages st !! url p = Some i →
  ∃ it cs st',
    heap st !! i = Some it ∧ children it = Some cs
    ∧ reuse page i st = Ok tt st'
    ∧ same_maps st st'
    ∧ ∀ l, heap st' !! l = reused_node st page it cs l <$> heap st !! l.
Proof.
  intros Hw Hp Hi. pose proof (wf_keys_ok _ Hw) as Hk.
  destruct Hw as (He & Hc & _).
  destruct (He _ _ Hi) as (it & Hit & Hu & [cs Hcs]).
  exists it, cs. rewrite reuse_run, Hp, Hit, Hcs.
  set (st1 := reused_head page (url p) it st).
  assert (∀ l, heap st1 !! l
               = (λ n, if decide (l = page)
                       then put_children (children it) (put_title (title it) n)
                       else n) <$> heap st !! l) as Hh1.
  { intros l. cbn [st1 reused_head heap]. destruct (decide (l = page)) as [->|Hne].
    - rewrite !list_lookup_alter_eq. by destruct (heap st !! page).
    - rewrite !list_lookup_alter_ne by done. by destruct (heap st !! l). }
  assert (∀ u j, crawledPages st !! u = Some j → heap st1 !! j = heap st !! j) as He1.
  { intros u j Hj. rewrite Hh1. destruct (decide (j = page)) as [->|Hne].
    - destruct (Hk _ _ Hj) as (n & Hn & Hun).
      assert (n = p) as -> by congruence. subst u.
      assert (i = page) as -> by congruence.
      assert (it = p) as -> by congruence.
      rewrite Hp. cbn. by destruct p.
    - by destruct (heap st !! j). }
  destruct (forEach_fill_in_exact cs st1) as (st' & Hrun & Hm & _ & Hh).
  { by apply (keys_ok_same st st1). }
  { apply Forall_forall. intros c Hin. destruct (Hc _ _ _ _ Hit Hcs Hin) as [cn Hcn].
    rewrite Hh1, Hcn. by eexists. }
  exists st'. split; [done|]. split; [done|]. split; [done|]. split; [done|].
  intros l. rewrite Hh, Hh1. destruct (heap st !! l) as [n|]; [|done]. cbn. f_equal.
  rewrite !(backfill_same st st1) by done. unfold reused_node.
  destruct (decide (l ∈ cs)), (decide (l = page)); by destruct n.
Qed.

Lemma crawl_reuse fuel page p i depth st :
  ¬ exceeds depth maxDepth → heap st !! page = Some p →
  crawledPages st !! url p = Some i →
  crawl (S fuel) page depth st = reuse page i st.
Proof.
  intros Hd Hp Hi. rewrite crawl_S, bool_decide_eq_false_2 by done. by rewrite Hp, Hi.
Qed.

(** C3, as the code has it.  A call of [crawl] within the depth limit on
    an object whose URL is in [crawledPages] returns with the title and
    the children of the entry assigned to the object and a title written
    into every child: the title of the entry of the child's URL when there
    is one.  It loads no page and writes no map; it needs no fuel for
    nested calls, so it makes none.  Every child keeps the children it
    had, and every object other than the node and these children is as
    before: whatever lies below the children of the entry lies below the
    object as well, however many levels that is. *)
Theorem reuse_returns_known fuel page p i depth st :
  wf st → ¬ exceeds depth maxDepth →
  heap st !! page = Some p → crawledPages st !! url p = Some i →
  ∃ it cs st',
    heap st !! i = Some it ∧ children it = Some cs
    ∧ crawl (S fuel) page depth st = Ok tt st'
    ∧ same_maps st st'
    ∧ heap st' !! page = Some (mkPageNode (url p) (title it) (Some cs))
    ∧ (∀ c cn, c ∈ cs → c ≠ page → heap st !! c = Some cn →
         heap st' !! c = Some (mkPageNode (url cn) (backfill st (url cn)) (children cn))
         ∧ ∀ j nj, crawledPages st !! url cn = Some j → heap st !! j = Some nj →
             backfill st (url cn) = title nj)
    ∧ (∀ l, l ≠ page → l ∉ cs → heap st' !! l = heap st !! l).
Proof.
  intros Hw Hd Hp Hi.
  destruct (reuse_exact page p i st Hw Hp Hi) as (it & cs & st' & Hit & Hcs & Hrun & Hm & Hh).
  exists it, cs, st'. rewrite (crawl_reuse _ _ _ _ _ _ Hd Hp Hi).
  split; [done|]. split; [done|]. split; [done|]. split; [done|]. split; [|split].
  - rewrite Hh, Hp. cbn. unfold reused_node.
    rewrite (decide_True (P := page = page)) by done.
    rewrite Hcs, (backfill_entry _ _ _ _ Hi Hit). by repeat case_decide.
  - intros c cn Hin Hne Hcn. split.
    + rewrite Hh, Hcn. cbn. unfold reused_node.
      by rewrite (decide_True (P := c ∈ cs)), (decide_False (P := c = page)).
    + intros j nj Hj Hnj. by eapply backfill_entry.
  - intros l Hne Hnin. rewrite Hh. destruct (heap st !! l) as [n|]; [|done].
    cbn. unfold reused_node.
    rewrite (decide_False (P := l ∈ cs)), !(decide_False (P := l = page)) by done.
    by destruct n.
Qed.

(** C10. In the reuse branch the title of every child of the entry is
    assigned: it becomes the title of the entry of the child's URL, or the
    empty string when that URL has no entry. *)
Theorem reuse_overwrites_titles fuel page p i depth st :
  wf st → ¬ exceeds depth maxDepth →
  heap st !! page = Some p → crawledPages st !! url p = Some i →
  ∃ it cs st',
    heap st !! i = Some it ∧ children it = Some cs
    ∧ crawl (S fuel) page depth st = Ok tt st'
    ∧ ∀ c, c ∈ cs →
        ∃ cn cn', heap st !! c = Some cn ∧ heap st' !! c = Some cn'
          ∧ (crawledPages st !! url cn = None → title cn' = Some "")
          ∧ (∀ j nj, crawledPages st !! url cn = Some j →
               heap st !! j = Some nj → title cn' = title nj).
Proof.
  intros Hw Hd Hp Hi.
  destruct (reuse_exact page p i st Hw Hp Hi) as (it & cs & st' & Hit & Hcs & Hrun & Hm & Hh).
  exists it, cs, st'. rewrite (crawl_reuse _ _ _ _ _ _ Hd Hp Hi).
  split; [done|]. split; [done|]. split; [done|].
  intros c Hin. destruct Hw as (He & Hc & _).
  destruct (Hc _ _ _ _ Hit Hcs Hin) as [cn Hcn].
  exists cn. eexists. split; [done|]. rewrite Hh, Hcn. split; [done|].
  cbn [reused_node title]. rewrite (decide_True (P := c ∈ cs)) by done. split.
  - intros Hnone. unfold backfill. by rewrite Hnone.
  - intros j nj Hj Hnj. by eapply backfill_entry.
Qed.



(** *** The three-page scenario *)

Lemma visit_intro u pg anchors :
  goto u = Some pg → collectAllSameOriginAnchorsDeep pg = Some anchors →
  visit u = Some pg.
Proof. intros Hg Hc. apply visit_Some. split; [done|]. by rewrite Hc. Qed.

Lemma links_Some pg anchors :
  collectAllSameOriginAnchorsDeep pg = Some anchors →
  links pg = filter (λ a, a ≠ URL) anchors.
Proof. intros Hc. unfold links. by rewrite Hc. Qed.

Lemma crawl_load fuel page p pg depth st :
  ¬ exceeds depth maxDepth → heap st !! page = Some p →
  crawledPages st !! url p = None → visit (url p) = Some pg →
  crawl (S fuel) page depth st
  = forEach (λ c, crawl fuel c (add1 depth))
      (seq (length (heap st)) (length (links pg))) (loaded page (url p) pg st).
Proof.
  intros Hd Hp Hnew Hg. rewrite crawl_S, bool_decide_eq_false_2 by done.
  rewrite Hp, Hnew. erewrite load_Some by done.
  by rewrite (loaded_page _ _ _ _ Hp).
Qed.

(** *** A crawl without end *)


(** C6, as the code has it.  With depth limit 1, a start page linking to
    [b] and [c], [b] linking back to the start page and [c] linking to
    [b]: the root has the children [b] and [c], both with their titles;
    [b] has no children; the only child of [c] is an object for [b] that
    sits below the depth limit and so has neither title nor children. *)
Theorem scenario_tree (b c : string) (pa pb pc : LoadedPage) :
  maxDepth = Fin 1 → b ≠ URL → c ≠ URL → b ≠ c →
  goto URL = Some pa → goto b = Some pb → goto c = Some pc →
  collectAllSameOriginAnchorsDeep pa = Some [b; c] →
  collectAllSameOriginAnchorsDeep pb = Some [URL] →
  collectAllSameOriginAnchorsDeep pc = Some [b] →
  ∃ st, main 3 initial = Ok 0%nat st
    ∧ navigations st = [URL; b; c]
    ∧ tree_of 3 (heap st) 0
      = Some (TNode URL (Some (document_title pa))
                (Some [TNode b (Some (document_title pb)) (Some []);
                       TNode c (Some (document_title pc))
                         (Some [TNode b None None])])).
Proof.
  intros Hd Hb Hc Hbc Ha Hgb Hgc Hla Hlb Hlc.
  assert (links pa = [b; c]) as Hlinks_a.
  { rewrite (links_Some _ _ Hla). by rewrite !filter_cons_True, filter_nil. }
  assert (links pb = []) as Hlinks_b.
  { rewrite (links_Some _ _ Hlb). by rewrite filter_cons_False, filter_nil by auto. }
  assert (links pc = [b]) as Hlinks_c.
  { rewrite (links_Some _ _ Hlc). by rewrite filter_cons_True, filter_nil. }
  assert (add1 0 = 1) as H01 by reflexivity.
  assert (add1 1 = 2) as H12 by reflexivity.
  rewrite main_run.
  (* the start page *)
  rewrite (crawl_load 2 0%nat (stub URL) pa 0 started);
    [|rewrite Hd; cbn [exceeds]; lia|done|done|by eapply visit_intro].
  rewrite H01.
  cbn [stub url]. set (st1 := loaded 0%nat URL pa started).
  assert (heap st1 = [mkPageNode URL (Some (document_title pa)) (Some [1; 2]%nat);
                      stub b; stub c]) as Hh1.
  { cbn [st1 loaded heap started]. by rewrite Hlinks_a. }
  assert (crawledPages st1 = <[URL := 0%nat]> ∅) as Hp1 by done.
  rewrite Hlinks_a. cbn [length seq started heap forEach]. rewrite bind_run.
  (* page b, first child of the start page *)
  rewrite (crawl_load 1 1%nat (stub b) pb 1 st1);
    [|rewrite Hd; cbn [exceeds]; lia|by rewrite Hh1| |by eapply visit_intro].
  rewrite H12.
  2:{ rewrite Hp1. cbn [stub url]. by rewrite lookup_insert_ne, lookup_empty. }
  cbn [stub url]. set (st2 := loaded 1%nat b pb st1).
  assert (heap st2 = [mkPageNode URL (Some (document_title pa)) (Some [1; 2]%nat);
                      mkPageNode b (Some (document_title pb)) (Some []);
                      stub c]) as Hh2.
  { cbn [st2 loaded heap]. by rewrite Hlinks_b, Hh1. }
  assert (crawledPages st2 = <[b := 1%nat]> (<[URL := 0%nat]> ∅)) as Hp2.
  { cbn [st2 loaded crawledPages]. by rewrite Hp1. }
  rewrite Hlinks_b. cbn [length seq forEach]. cbn [ret mret M_ret]. rewrite bind_run.
  (* page c, second child of the start page *)
  rewrite (crawl_load 1 2%nat (stub c) pc 1 st2);
    [|rewrite Hd; cbn [exceeds]; lia|by rewrite Hh2| |by eapply visit_intro].
  rewrite H12.
  2:{ rewrite Hp2. cbn [stub url]. by rewrite !lookup_insert_ne, lookup_empty. }
  cbn [stub url]. set (st3 := loaded 2%nat c pc st2).
  assert (heap st3 = [mkPageNode URL (Some (document_title pa)) (Some [1; 2]%nat);
                      mkPageNode b (Some (document_title pb)) (Some []);
                      mkPageNode c (Some (document_title pc)) (Some [3%nat]);
                      stub b]) as Hh3.
  { cbn [st3 loaded heap]. by rewrite Hlinks_c, Hh2. }
  rewrite Hlinks_c, Hh2. cbn [length seq forEach]. rewrite bind_run.
  (* the child of c lies below the limit *)
  rewrite crawl_above by (rewrite Hd; cbn [exceeds]; lia). cbn [ret mret M_ret].
  exists st3. split; [done|]. split; [done|]. by rewrite Hh3.
Qed.

(** ** More of the program

    The properties below go beyond the traversal itself: the scripts that
    run in the page, what a run leaves in the store and the maps, and
    (after this section) the configuration and [mkdirSync]. *)

(** *** [new Set(...)] *)

Lemma set_add_elem acc x y : y ∈ set_add acc x ↔ y ∈ acc ∨ y = x.
Proof.
  unfold set_add. case_decide as Hx.
  - split; [by left|]. by intros [?| ->].
  - rewrite elem_of_app, list_elem_of_singleton. done.
Qed.

Lemma fold_set_add_elem (l acc : list string) y :
  y ∈ fold_left set_add l acc ↔ y ∈ acc ∨ y ∈ l.
Proof.
  revert acc. induction l as [|x l IH]; intros acc; cbn [fold_left].
  - split; [by left|]. by intros [?|?%elem_of_nil].
  - rewrite IH, set_add_elem, elem_of_cons. tauto.
Qed.

Lemma fold_set_add_NoDup (l acc : list string) :
  NoDup acc → NoDup (fold_left set_add l acc).
Proof.
  revert acc. induction l as [|x l IH]; intros acc Hacc; cbn [fold_left]; [done|].
  apply IH. unfold set_add. case_decide as Hx; [done|].
  apply NoDup_app. split; [done|]. split; [|apply NoDup_singleton].
  by intros y Hy ->%list_elem_of_singleton.
Qed.

Lemma fold_set_add_seen (l acc : list string) x :
  x ∈ acc → fold_left set_add l acc = fold_left set_add (filter (λ y, y ≠ x) l) acc.
Proof.
  revert acc. induction l as [|y l IH]; intros acc Hx; cbn [fold_left]; [done|].
  destruct (decide (y = x)) as [->|Hne].
  - rewrite filter_cons_False by (by intros ?). 
    unfold set_add at 2. rewrite decide_True by done. by apply IH.
  - rewrite filter_cons_True by done. cbn [fold_left]. apply IH.
    apply set_add_elem. by left.
Qed.

Lemma fold_set_add_head (l acc : list string) x :
  x ∉ l → fold_left set_add l (x :: acc) = x :: fold_left set_add l acc.
Proof.
  revert acc. induction l as [|y l IH]; intros acc Hx; cbn [fold_left]; [done|].
  apply not_elem_of_cons in Hx as [Hne Hx].
  assert (set_add (x :: acc) y = x :: set_add acc y) as ->.
  { unfold set_add. destruct (decide (y ∈ acc)) as [Hy|Hy].
    - by rewrite decide_True by (by apply list_elem_of_further).
    - rewrite decide_False; [done|]. intros [?|?]%elem_of_cons; congruence. }
  by apply IH.
Qed.

Lemma from_set_NoDup (l : list string) : NoDup (from_set l).
Proof. apply fold_set_add_NoDup, NoDup_nil_2. Qed.

Lemma from_set_iff (l : list string) x : x ∈ from_set l ↔ x ∈ l.
Proof.
  unfold from_set. rewrite fold_set_add_elem.
  split; [by intros [?%elem_of_nil|?]|by right].
Qed.

(** X1. [Array.from(new Set(l))]: the result has no duplicates, has
    exactly the members of [l], and keeps them in the order of their first
    occurrence: the head of [l] comes first, followed by the result for
    the rest of [l] without the further occurrences of the head. *)
Theorem from_set_first_occurrences (l : list string) :
  NoDup (from_set l)
  ∧ (∀ x, x ∈ from_set l ↔ x ∈ l)
  ∧ from_set l = match l with
                 | [] => []
                 | x :: rest => x :: from_set (filter (λ y, y ≠ x) rest)
                 end.
Proof.
  split; [apply from_set_NoDup|]. split; [apply from_set_iff|].
  - destruct l as [|x rest]; [done|]. unfold from_set. cbn [fold_left].
    change (set_add [] x) with [x].
    rewrite (fold_set_add_seen rest [x] x) by apply list_elem_of_here.
    apply fold_set_add_head. by intros [? _]%list_elem_of_filter.
Qed.

(** *** The scripts evaluated in the page *)

Lemma Element_nested_ind (P : Element → Prop) :
  (∀ n h s r, Forall P r → P (mkElement n h s r)) → ∀ el, P el.
Proof.
  intros H. fix IH 1. intros [n h s r]. apply H.
  induction r as [|x r IHr]; constructor; [apply IH|apply IHr].
Qed.

Lemma with_shadow_self el : el ∈ with_shadow el.
Proof. destruct el. cbn [with_shadow]. apply list_elem_of_here. Qed.

Lemma elem_of_flat_map {A B} (f : A → list B) (l : list A) (y : B) :
  y ∈ flat_map f l ↔ ∃ x, x ∈ l ∧ y ∈ f x.
Proof.
  rewrite list_elem_of_In, in_flat_map. setoid_rewrite list_elem_of_In. done.
Qed.

Lemma with_shadow_closed el x y :
  x ∈ with_shadow el → y ∈ shadowRoot x → y ∈ with_shadow el.
Proof.
  revert x y. induction el as [n h s r IH] using Element_nested_ind. intros x y.
  cbn [with_shadow]. intros [->|Hx]%elem_of_cons Hy.
  - cbn [shadowRoot] in Hy. apply list_elem_of_further, elem_of_flat_map.
    exists y. split; [done|apply with_shadow_self].
  - apply elem_of_flat_map in Hx as (z & Hz & Hx).
    apply list_elem_of_further, elem_of_flat_map. exists z. split; [done|].
    rewrite Forall_forall in IH. by eapply IH.
Qed.

(** X2. [findAllElements] finds every element it is given and, with an
    element, every element below its shadow root, however deep the shadow
    roots nest. *)
Theorem findAllElements_deep nodes :
  (∀ el, el ∈ nodes → el ∈ findAllElements nodes)
  ∧ (∀ el inner, el ∈ findAllElements nodes → inner ∈ shadowRoot el →
       inner ∈ findAllElements nodes).
Proof.
  unfold findAllElements. split.
  - intros el Hel. apply elem_of_flat_map. exists el. split; [done|apply with_shadow_self].
  - intros el inner (z & Hz & Hel)%elem_of_flat_map Hin.
    apply elem_of_flat_map. exists z. split; [done|]. by eapply with_shadow_closed.
Qed.


Lemma is_page_anchor_spec el :
  is_page_anchor el = true ↔
  localName el = "a" ∧ href el ≠ ""
  ∧ lacks ".pdf" (href el) = true ∧ lacks ".ics" (href el) = true
  ∧ lacks "ahPg=search.list" (href el) = true
  ∧ lacks "ahPg=show.vehicle" (href el) = true.
Proof.
  unfold is_page_anchor. rewrite !andb_true_iff, !negb_true_iff.
  rewrite bool_decide_eq_true, bool_decide_eq_false. tauto.
Qed.

Lemma candidates_spec pg el :
  el ∈ candidates pg ↔
  el ∈ findAllElements (document_all pg)
  ∧ localName el = "a" ∧ href el ≠ ""
  ∧ lacks ".pdf" (href el) = true ∧ lacks ".ics" (href el) = true
  ∧ lacks "ahPg=search.list" (href el) = true
  ∧ lacks "ahPg=show.vehicle" (href el) = true
  ∧ href el ≠ location_href pg.
Proof.
  unfold candidates. rewrite !list_elem_of_filter, is_page_anchor_spec. tauto.
Qed.


(** X4. The iframe sources the page script returns: each source once, and
    exactly the [src] of every [iframe] element of the document and its
    shadow roots that differs from the address of the page.  Unlike an
    anchor without [href], an iframe without [src] is reported, as the
    empty string. *)
Theorem found_iframes pg :
  NoDup (findAllIframes pg)
  ∧ (∀ x, x ∈ findAllIframes pg ↔
       ∃ el, el ∈ findAllElements (document_all pg) ∧ el_src el = x
         ∧ localName el = "iframe" ∧ x ≠ location_href pg)
  ∧ (∀ anchors, collectAllSameOriginAnchorsDeep pg = Some anchors → "" ∉ anchors).
Proof.
  split; [apply from_set_NoDup|]. split.
  - intros x. unfold findAllIframes.
    rewrite from_set_iff, list_elem_of_fmap.
    split.
    + intros (el & -> & Hel). exists el.
      apply list_elem_of_filter in Hel as [Hne Hel].
      apply list_elem_of_filter in Hel as [Hi Hel]. tauto.
    + intros (el & Hel & <- & Hi & Hne). exists el. split; [done|].
      apply list_elem_of_filter. split; [done|].
      apply list_elem_of_filter. by split.
  - intros anchors (kept & Hk & ->)%collect_Some.
    rewrite from_set_iff, list_elem_of_fmap.
    intros (el & Hempty & (Hel & _)%(same_origin_Some _ _ _ Hk)).
    apply candidates_spec in Hel. by destruct Hel as (_ & _ & ? & _).
Qed.

(** *** What a crawl leaves as it was *)

Lemma extends_refl st : extends st st.
Proof. split; [eauto|]. split; [eauto|]. done. Qed.

Lemma extends_trans st0 st1 st2 :
  extends st0 st1 → extends st1 st2 → extends st0 st2.
Proof.
  intros (H1 & H2 & H3 & H4) (K1 & K2 & K3 & K4).
  split; [|split; [|split; by etrans]].
  - intros l n Hn. destruct (H1 _ _ Hn) as (n1 & Hn1 & Hu1).
    destruct (K1 _ _ Hn1) as (n2 & Hn2 & Hu2). exists n2. split; [done|congruence].
  - intros u i n Hi Hn. destruct (H2 _ _ _ Hi Hn). eauto.
Qed.

Lemma extends_loaded page p pg st :
  wf st → heap st !! page = Some p → crawledPages st !! url p = None →
  extends st (loaded page (url p) pg st).
Proof.
  intros Hw Hp Hnew. pose proof (wf_keys_ok _ Hw) as Hk.
  split; [|split; [|split; by apply prefix_app_r]].
  - intros l n Hn. destruct (decide (l = page)) as [->|Hne].
    + erewrite loaded_page by done. eexists. split; [done|]. cbn. congruence.
    + rewrite loaded_other; [eauto|done|]. by eapply lookup_lt_Some.
  - intros u i n Hi Hn. destruct (Hk _ _ Hi) as (n' & Hn' & Hu).
    assert (u ≠ url p) as Hup by congruence.
    assert (i ≠ page) as Hip by congruence.
    split.
    + cbn [loaded crawledPages]. by rewrite lookup_insert_ne.
    + rewrite loaded_other; [done..|]. by eapply lookup_lt_Some.
Qed.

Lemma extends_refused u st : extends st (refused u st).
Proof. split; [eauto|]. split; [eauto|]. split; by apply prefix_app_r. Qed.

Lemma fill_in_console K c st :
  console st = K →
  post (λ s, console s = K) (λ _ s, console s = K) (fill_in c st).
Proof.
  intros HK. rewrite fill_in_run. destruct (heap st !! c) as [cn|]; [|done].
  destruct (crawledPages st !! url cn) as [i|]; [|done].
  by destruct (heap st !! i).
Qed.

Lemma reuse_console page p i st :
  heap st !! page = Some p →
  post (λ s, console s = console st ++ ["Reusing route: " +:+ url p])
       (λ _ s, console s = console st ++ ["Reusing route: " +:+ url p])
       (reuse page i st).
Proof.
  intros Hp. rewrite reuse_run, Hp. destruct (heap st !! i) as [it|]; [|done].
  destruct (children it) as [cs|]; [|done].
  apply post_forEach; [|done]. intros c s _. apply fill_in_console.
Qed.

Lemma reused_entry st page p i it cs u j n :
  keys_ok st → heap st !! page = Some p → crawledPages st !! url p = Some i →
  heap st !! i = Some it →
  crawledPages st !! u = Some j → heap st !! j = Some n →
  reused_node st page it cs j n = n.
Proof.
  intros Hk Hp Hi Hit Hj Hn. destruct (Hk _ _ Hj) as (n' & Hn' & Hu).
  assert (n' = n) as -> by congruence. unfold reused_node.
  rewrite (backfill_entry st (url n) j n) by congruence.
  destruct (decide (j = page)) as [->|Hne].
  - assert (n = p) as -> by congruence.
    assert (i = page) as -> by congruence.
    assert (it = p) as -> by congruence.
    destruct p. by case_decide.
  - destruct n. by case_decide.
Qed.

Lemma extends_reuse page p i st :
  wf st → heap st !! page = Some p → crawledPages st !! url p = Some i →
  ∃ st', reuse page i st = Ok tt st' ∧ wf st' ∧ extends st st'.
Proof.
  intros Hw Hp Hi. pose proof (wf_keys_ok _ Hw) as Hk.
  destruct (reuse_exact page p i st Hw Hp Hi)
    as (it & cs & st' & Hit & Hcs & Hrun & Hm & Hh).
  exists st'. split; [done|].
  pose proof (reuse_any page i st) as Hany.
  pose proof (reuse_console page p i st Hp) as Hcon.
  rewrite Hrun in Hany, Hcon. cbn [post] in Hcon.
  split; [exact (wf_reuse_effect page p i st st' Hw Hp Hi Hany)|].
  destruct Hm as (Hpages & _ & _ & Hnav).
  split; [|split; [|split]].
  - intros l n Hn. rewrite Hh, Hn. eexists. split; [done|]. done.
  - intros u j n Hj Hn. rewrite Hpages. split; [done|].
    rewrite Hh, Hn. cbn. f_equal. by eapply reused_entry.
  - by rewrite Hnav.
  - rewrite Hcon. by apply prefix_app_r.
Qed.

Lemma crawl_extends st0 fuel page depth st :
  wf st → extends st0 st →
  post (λ s, wf s ∧ extends st0 s) (λ _ s, wf s ∧ extends st0 s)
    (crawl fuel page depth st).
Proof.
  intros Hw He. apply crawl_rule; [done| | |done].
  - intros pg p i s [Hws Hes] Hp Hi.
    destruct (extends_reuse pg p i s Hws Hp Hi) as (s' & -> & Hw' & He').
    cbn [post]. split; [done|]. by eapply extends_trans.
  - intros pg p s [Hws Hes] Hp Hnew.
    destruct (visit (url p)) as [lp|] eqn:Hg.
    + erewrite load_Some by done. cbn [post]. split; [by apply wf_loaded|].
      eapply extends_trans; [done|]. by apply extends_loaded.
    + erewrite load_None by done. cbn [post]. split.
      * destruct Hws as (H1 & H2 & H3). done.
      * eapply extends_trans; [done|]. apply extends_refused.
Qed.

(** X5. A crawl on a well-formed store takes nothing back.  Whether it
    returns or throws, every object is still there under its URL, every
    page registered in [crawledPages] is still registered as the same
    object with the same title and children, and the navigation trace and
    the console have only been appended to. *)
Theorem crawl_takes_nothing_back fuel page depth st st' :
  wf st → final (crawl fuel page depth st) = Some st' → extends st st'.
Proof.
  intros Hw Hf.
  pose proof (crawl_extends st fuel page depth st Hw (extends_refl st)) as H.
  destruct (crawl fuel page depth st) as [[] s|e s|]; cbn in *; [| |done];
    injection Hf as <-; apply H.
Qed.

(** *** Titles and children are those of the pages *)

Lemma shows_transfer h h' n n' pg :
  title n' = title n → children n' = children n →
  (∀ c a, url <$> h !! c = Some a → url <$> h' !! c = Some a) →
  shows h n pg → shows h' n' pg.
Proof.
  intros Ht Hc Hu (Htitle & cs & Hcs & Hall). split; [congruence|].
  exists cs. split; [congruence|]. eapply Forall2_impl; [done|]. eauto.
Qed.

Lemma page_data_started : page_data started.
Proof.
  intros l n Hn. apply list_elem_of_lookup_2, list_elem_of_singleton in Hn as ->.
  split; [done|]. by intros [? [=]].
Qed.

Lemma page_data_loaded page p pg st :
  wf st → page_data st → heap st !! page = Some p → visit (url p) = Some pg →
  page_data (loaded page (url p) pg st).
Proof.
  intros Hw Hd Hp Hg l n Hn. pose proof (lookup_lt_Some _ _ _ Hp) as Hlt.
  apply (loaded_cases _ _ _ _ _ _ Hp) in Hn
    as [(-> & ->) | [(Hne & Hold) | (k & a & -> & Hk & ->)]].
  - cbn [title url children]. split.
    + intros t [= <-]. right. eauto.
    + intros _. exists pg. split; [done|]. split; [done|].
      eexists. split; [done|].
      apply Forall2_same_length_lookup_2; [by rewrite length_seq|].
      intros k c a [-> _]%lookup_seq Ha. by erewrite loaded_new.
  - destruct (Hd _ _ Hold) as [Ht Hc]. split; [done|].
    intros Hch. destruct (Hc Hch) as (pg' & Hg' & Hs). exists pg'. split; [done|].
    eapply shows_transfer; [done..| |done]. intros c a Hca.
    rewrite loaded_url; [done..|].
    destruct (heap st !! c) eqn:Hc'; [|done]. by eapply lookup_lt_Some.
  - split; [done|]. by intros [? [=]].
Qed.

Lemma page_data_reuse page p i st :
  wf st → page_data st → heap st !! page = Some p →
  crawledPages st !! url p = Some i →
  ∃ st', reuse page i st = Ok tt st' ∧ wf st' ∧ page_data st'.
Proof.
  intros Hw Hd Hp Hi. pose proof (wf_keys_ok _ Hw) as Hk.
  destruct (reuse_exact page p i st Hw Hp Hi)
    as (it & cs & st' & Hit & Hcs & Hrun & Hm & Hh).
  exists st'. split; [done|].
  pose proof (reuse_any page i st) as Hany. rewrite Hrun in Hany.
  split; [exact (wf_reuse_effect page p i st st' Hw Hp Hi Hany)|].
  assert (url it = url p) as Hup.
  { destruct (Hk _ _ Hi) as (n' & Hn' & Hu). congruence. }
  assert (∀ c a, url <$> heap st !! c = Some a → url <$> heap st' !! c = Some a) as Hurl.
  { intros c a. rewrite Hh. by destruct (heap st !! c). }
  destruct (Hd _ _ Hit) as [Hti Hci].
  destruct Hci as (pgi & Hgi & Hsi); [by rewrite Hcs|].
  intros l n' Hn'. rewrite Hh in Hn'.
  destruct (heap st !! l) as [n|] eqn:Hn; [|done]. injection Hn' as <-.
  destruct (Hd _ _ Hn) as [Htn Hcn].
  unfold reused_node. cbn [title url children]. split.
  - intros t Ht. destruct (decide (l ∈ cs)) as [Hin|Hout].
    + unfold backfill in Ht. destruct (crawledPages st !! url n) as [j|] eqn:Hj.
      * destruct (Hk _ _ Hj) as (nj & Hnj & Hu). rewrite Hnj in Ht. cbn in Ht.
        destruct (Hd _ _ Hnj) as [Htj _]. rewrite <- Hu. by apply Htj.
      * injection Ht as <-. by left.
    + destruct (decide (l = page)) as [->|Hne]; [|by apply Htn].
      assert (n = p) as -> by congruence. rewrite <- Hup. by apply Hti.
  - intros Hch. destruct (decide (l = page)) as [->|Hne].
    + assert (n = p) as -> by congruence. exists pgi. split; [congruence|].
      destruct Hsi as (Htitle & cs' & Hcs' & Hall). split.
      * cbn [title]. rewrite (backfill_entry st (url p) i it) by done.
        by destruct (decide (page ∈ cs)).
      * exists cs'. split; [done|]. eapply Forall2_impl; [done|]. eauto.
    + destruct (Hcn Hch) as (pg & Hg & Hs). exists pg. split; [done|].
      eapply shows_transfer; [| |exact Hurl|exact Hs]; [|done]. cbn [title].
      destruct (decide (l ∈ cs)) as [Hin|Hout]; [|done].
      destruct Hch as [cs0 Hcs0]. destruct Hw as (_ & _ & Hsh).
      destruct (Hsh _ _ _ Hn Hcs0) as (j & nj & Hj & Hnj & Hcj).
      rewrite (backfill_entry st (url n) j nj Hj Hnj).
      destruct (Hk _ _ Hj) as (nj' & Hnj' & Hu).
      assert (nj' = nj) as -> by congruence.
      destruct (Hd _ _ Hnj) as [_ Hdj].
      destruct Hdj as (pg' & Hg' & Ht' & _); [by rewrite Hcj|].
      destruct Hs as [Htitle _]. congruence.
Qed.

Lemma crawl_page_data fuel page depth st :
  wf st → page_data st →
  post (λ s, wf s ∧ page_data s) (λ _ s, wf s ∧ page_data s)
    (crawl fuel page depth st).
Proof.
  intros Hw Hd. apply crawl_rule; [done| | |done].
  - intros pg p i s [Hws Hds] Hp Hi.
    by destruct (page_data_reuse pg p i s Hws Hds Hp Hi) as (s' & -> & ?).
  - intros pg p s [Hws Hds] Hp Hnew.
    destruct (visit (url p)) as [lp|] eqn:Hg.
    + erewrite load_Some by done. cbn [post].
      split; [by apply wf_loaded|by apply page_data_loaded].
    + erewrite load_None by done. cbn [post]. split; [|done].
      by destruct Hws as (H1 & H2 & H3).
Qed.

(** X6. What the tree says is what the browser showed.  At the end of a
    run, returned or thrown, a title in the store is either empty or the
    title of the page at the URL of its object; and every object whose
    children have been assigned has the title of the page at its URL and
    one child for each link of that page (the anchors the script
    returned on it, without the start URL), with the URL of the link, in
    the order of the links. *)
Theorem tree_shows_pages fuel st :
  final (main fuel initial) = Some st →
  ∀ l n, heap st !! l = Some n →
    (∀ t, title n = Some t →
       t = "" ∨ ∃ pg, goto (url n) = Some pg ∧ t = document_title pg)
    ∧ (∀ cs, children n = Some cs →
         ∃ pg anchors, goto (url n) = Some pg
           ∧ collectAllSameOriginAnchorsDeep pg = Some anchors
           ∧ title n = Some (document_title pg)
           ∧ Forall2 (λ c a, url <$> heap st !! c = Some a) cs
               (filter (λ a, a ≠ URL) anchors)).
Proof.
  intros Hf%main_final l n Hn.
  pose proof (crawl_page_data fuel 0%nat 0 started wf_started page_data_started) as H.
  assert (page_data st) as Hd.
  { destruct (crawl fuel 0%nat 0 started) as [[] s|e s|]; cbn in *; [| |done];
      injection Hf as <-; apply H. }
  destruct (Hd _ _ Hn) as [Ht Hc]. split.
  - intros t [->|(pg & Hg%visit_goto & ->)]%Ht; [by left|right; eauto].
  - intros cs Hcs.
    destruct Hc as (pg & [Hg [anchors Ha]]%visit_Some & Htitle & cs' & Hcs' & Hall);
      [by rewrite Hcs|].
    exists pg, anchors. split; [done|]. split; [done|]. split; [done|].
    rewrite <- (links_Some _ _ Ha). congruence.
Qed.

(** *** The registry and the trace *)

Lemma crawl_keys fuel page depth st :
  keys_navigated st → size (crawledPages st) = length (navigations st) →
  post (λ s, keys_navigated s ∧ size (crawledPages s) = length (navigations s))
       (λ e s, keys_navigated s
               ∧ match e with
                 | NavigationError _ | ScriptError _ =>
                     S (size (crawledPages s)) = length (navigations s)
                 | _ => size (crawledPages s) = length (navigations s)
                 end)
    (crawl fuel page depth st).
Proof.
  intros Hk Hs. apply crawl_rule; [| | |done].
  - intros s [? ?]. done.
  - intros pg p i s [Hks Hss] Hp Hi. pose proof (reuse_any pg i s) as Hr.
    assert (∀ s', reuse_effect pg i s s' →
              keys_navigated s' ∧ size (crawledPages s') = length (navigations s')) as Hsame.
    { intros s' ((Hpages & _ & _ & Hnav) & _). unfold keys_navigated.
      by rewrite Hpages, Hnav. }
    destruct (reuse pg i s) as [[] s'|e s'|]; cbn [post]; [by apply Hsame| |done].
    destruct Hr as [Hr [-> | ->]]; by apply Hsame.
  - intros pg p s [Hks Hss] Hp Hnew.
    destruct (visit (url p)) as [lp|] eqn:Hg.
    + erewrite load_Some by done. unfold keys_navigated.
      cbn [post loaded crawledPages navigations]. split.
      * intros u [Heq|Hold]%lookup_insert_is_Some.
        -- subst u. split; [|by rewrite Hg]. apply elem_of_app. right. apply list_elem_of_here.
        -- destruct Hold as [_ Hold]. destruct (Hks _ Hold). split; [|done].
           apply elem_of_app. by left.
      * rewrite map_size_insert_None by done. rewrite length_app. cbn. lia.
    + erewrite load_None by done. unfold keys_navigated.
      cbn [post refused crawledPages navigations]. split.
      * intros u Hu. destruct (Hks _ Hu). split; [|done]. apply elem_of_app. by left.
      * unfold load_error. destruct (goto (url p)); rewrite length_app; cbn; lia.
Qed.

(** X7. [crawledPages] registers the pages that loaded and nothing else.
    At the end of a run every registered URL was navigated to, loaded,
    and scanned by the anchor script without an exception.  After a
    normal return the registered URLs are exactly the navigated ones, and
    there are as many entries as navigations; after a navigation error,
    and after an exception of the anchor script, there is one entry
    less. *)
Theorem registry_is_trace fuel st :
  final (main fuel initial) = Some st →
  (∀ u, is_Some (crawledPages st !! u) →
     u ∈ navigations st ∧ is_Some (goto u)
     ∧ ∃ pg, goto u = Some pg ∧ is_Some (collectAllSameOriginAnchorsDeep pg))
  ∧ (∀ root, main fuel initial = Ok root st →
       (∀ u, is_Some (crawledPages st !! u) ↔ u ∈ navigations st)
       ∧ size (crawledPages st) = length (navigations st))
  ∧ (∀ u, main fuel initial = Thrown (NavigationError u) st →
       S (size (crawledPages st)) = length (navigations st))
  ∧ (∀ u, main fuel initial = Thrown (ScriptError u) st →
       S (size (crawledPages st)) = length (navigations st)).
Proof.
  intros Hf.
  assert (keys_navigated started) as Hk0 by (by intros u [? ?]).
  pose proof (crawl_keys fuel 0%nat 0 started Hk0 eq_refl) as H.
  assert (fetched_once started) as Hf0.
  { split; [apply NoDup_nil_2|]. by intros u ?%elem_of_nil. }
  pose proof (crawl_fetched_once fuel 0%nat 0 started Hf0) as Honce.
  rewrite main_run in Hf |- *.
  destruct (crawl fuel 0%nat 0 started) as [[] s|e s|]; cbn in *; [| |done];
    injection Hf as <-; destruct H as [Hk Hs];
    (split; [intros u [Hu [pg [Hg Hc]%visit_Some]]%Hk; by eauto|]).
  - split; [|by split; intros].
    intros root _. split; [|done]. intros u. split; [intros Hu; by destruct (Hk _ Hu)|apply Honce].
  - split; [by intros|]. split; by intros u [= -> ].
Qed.

(** *** The first call *)

(** X8. How a run begins.  When 0 is above the depth limit nothing is
    loaded and the root is returned as it was made, without title or
    children.  Otherwise the start URL is the first navigation: when it
    does not load, or loads and the anchor script throws on it, the run
    throws with nothing registered; when it loads and the script returns,
    the root is registered under the start URL and has, at the end of the
    run, the title of the start page and the objects made for its links
    as children. *)
Theorem run_start :
  (exceeds 0 maxDepth → ∀ fuel, main (S fuel) initial = Ok 0%nat started)
  ∧ (¬ exceeds 0 maxDepth → goto URL = None →
     ∀ fuel, main (S fuel) initial
             = Thrown (NavigationError URL) (refused URL started))
  ∧ (¬ exceeds 0 maxDepth → ∀ pg,
       goto URL = Some pg → collectAllSameOriginAnchorsDeep pg = None →
       ∀ fuel, main (S fuel) initial
               = Thrown (ScriptError URL) (refused URL started))
  ∧ (¬ exceeds 0 maxDepth → ∀ pg anchors fuel st,
       goto URL = Some pg → collectAllSameOriginAnchorsDeep pg = Some anchors →
       final (main fuel initial) = Some st →
       head (navigations st) = Some URL
       ∧ crawledPages st !! URL = Some 0%nat
       ∧ heap st !! 0%nat
         = Some (mkPageNode URL (Some (document_title pg))
                   (Some (seq 1 (length (filter (λ a, a ≠ URL) anchors)))))).
Proof.
  assert (∀ fuel, ¬ exceeds 0 maxDepth → visit URL = None →
            main (S fuel) initial = Thrown (load_error URL) (refused URL started)) as Hfail.
  { intros fuel Hd Hv. rewrite main_run, crawl_S.
    rewrite bool_decide_eq_false_2 by done.
    change (heap started !! 0%nat) with (Some (stub URL)).
    change (crawledPages started !! url (stub URL)) with (@None loc).
    cbv beta iota. by rewrite (load_None 0%nat (stub URL) started). }
  split; [|split; [|split]].
  - intros Hd fuel. by rewrite main_run, crawl_above.
  - intros Hd Hg fuel. rewrite Hfail; [|done|by apply visit_None; left].
    unfold load_error. by rewrite Hg.
  - intros Hd pg Hg Hc fuel. rewrite Hfail; [|done|apply visit_None; right; by eauto].
    unfold load_error. by rewrite Hg.
  - intros Hd pg anchors fuel st Hg Hc Hf%main_final. destruct fuel as [|fuel]; [done|].
    assert (heap started !! 0%nat = Some (stub URL)) as Hp by done.
    rewrite (crawl_load fuel 0%nat (stub URL) pg 0 started) in Hf;
      [|done..|by eapply visit_intro].
    set (st1 := loaded 0%nat (url (stub URL)) pg started) in *.
    assert (wf st1) as Hw1 by (by apply wf_loaded; [apply wf_started|..]).
    assert (extends st1 st) as (_ & He & [k Hk] & _).
    { pose proof (post_forEach (λ s, wf s ∧ extends st1 s) (λ _ s, wf s ∧ extends st1 s)
        (λ c, crawl fuel c (add1 0)) (seq (length (heap started)) (length (links pg)))) as H.
      specialize (H (λ c s _ Hs, crawl_extends st1 fuel c (add1 0) s (proj1 Hs) (proj2 Hs))
                    st1 (conj Hw1 (extends_refl st1))).
      destruct (forEach _ _ st1) as [[] s|e s|]; cbn in *; [| |done];
        injection Hf as <-; apply H. }
    split; [by rewrite Hk|]. rewrite <- (links_Some _ _ Hc).
    apply (He URL 0%nat); [apply lookup_insert_eq|].
    apply (loaded_page 0%nat (stub URL) pg started Hp).
Qed.

(** *** The console *)

Lemma is_loading_line u : is_loading ("Loading: " +:+ u) = true.
Proof. unfold is_loading. cbn. by destruct u. Qed.

Lemma is_loading_other u : is_loading ("Reusing route: " +:+ u) ≠ true.
Proof. done. Qed.

Lemma console_ok_loading u st :
  console_ok st →
  console_ok (mkState (heap st) (crawledPages st) (crawledCookies st)
                (crawledIframes st) (console st ++ ["Loading: " +:+ u])
                (navigations st ++ [u])).
Proof.
  intros [Hl Hall]. split; cbn [console navigations].
  - rewrite filter_app, fmap_app, Hl. f_equal.
    rewrite filter_cons_True by apply is_loading_line. done.
  - apply Forall_app. split; [done|]. apply Forall_singleton. eauto.
Qed.

Lemma console_ok_reusing u st st' :
  console_ok st → navigations st' = navigations st →
  console st' = console st ++ ["Reusing route: " +:+ u] → console_ok st'.
Proof.
  intros [Hl Hall] Hn Hc. split; rewrite Hc.
  - rewrite filter_app, Hn, Hl.
    rewrite filter_cons_False by apply is_loading_other. apply app_nil_r.
  - apply Forall_app. split; [done|]. apply Forall_singleton. eauto.
Qed.

Lemma crawl_console fuel page depth st :
  console_ok st → post console_ok (λ _, console_ok) (crawl fuel page depth st).
Proof.
  apply crawl_rule; [done| |].
  - intros pg p i s Hs Hp Hi. pose proof (reuse_any pg i s) as Hr.
    pose proof (reuse_console pg p i s Hp) as Hc.
    destruct (reuse pg i s) as [[] s'|e s'|]; cbn [post] in *; [| |done].
    + destruct Hr as ((_ & _ & _ & Hnav) & _). by eapply console_ok_reusing.
    + destruct Hr as [((_ & _ & _ & Hnav) & _) _]. by eapply console_ok_reusing.
  - intros pg p s Hs Hp Hnew. destruct (visit (url p)) as [lp|] eqn:Hg.
    + erewrite load_Some by done. cbn [post].
      destruct (console_ok_loading (url p) s Hs) as [Hl Hall]. by split.
    + erewrite load_None by done. cbn [post]. by apply console_ok_loading.
Qed.

(** X9. The console tells what was loaded.  At the end of a run every
    line of the console is a [Loading:] or a [Reusing route:] line, and
    the [Loading:] lines are, in their order, those of the URLs handed to
    the browser: one line for each navigation, printed also for the URL
    that did not load. *)
Theorem console_lists_loads fuel st :
  final (main fuel initial) = Some st →
  filter (λ line, is_loading line = true) (console st)
  = (λ u, "Loading: " +:+ u) <$> navigations st
  ∧ Forall (λ line, ∃ u, line = "Loading: " +:+ u ∨ line = "Reusing route: " +:+ u)
      (console st).
Proof.
  intros Hf%main_final.
  assert (console_ok started) as H0 by (by split; [|apply Forall_nil]).
  pose proof (crawl_console fuel 0%nat 0 started H0) as H.
  destruct (crawl fuel 0%nat 0 started) as [[] s|e s|]; cbn in *; [| |done];
    injection Hf as <-; apply H.
Qed.

(** *** Nothing seen is lost *)

Lemma find_cookie_Some n l c :
  find_cookie n l = Some c → c ∈ l ∧ name c = n.
Proof.
  induction l as [|d l IH]; cbn [find_cookie]; [done|]. case_decide as Hd.
  - intros [= ->]. split; [apply list_elem_of_here|done].
  - intros [? ?]%IH. split; [by apply list_elem_of_further|done].
Qed.

Lemma find_cookie_is_Some n l c :
  c ∈ l → name c = n → is_Some (find_cookie n l).
Proof.
  intros Hin Hn. induction l as [|d l IH]; [by apply elem_of_nil in Hin|].
  cbn [find_cookie]. case_decide as Hd; [done|].
  apply elem_of_cons in Hin as [->|Hin]; [done|by apply IH].
Qed.

Lemma first_cookie_seen log n :
  is_Some (first_cookie log n) ↔
  ∃ u pg c, u ∈ log ∧ visit u = Some pg ∧ c ∈ all_cookies pg ∧ name c = n.
Proof.
  induction log as [|v log IH]; cbn [first_cookie].
  - split; [by intros [? [=]]|]. by intros (u & ? & ? & ?%elem_of_nil & _).
  - unfold cookie_on at 1. destruct (visit v) as [pg|] eqn:Hg; cbn.
    + destruct (find_cookie n (all_cookies pg)) as [c|] eqn:Hc; cbn.
      * split; [|done]. intros _. apply find_cookie_Some in Hc as [? ?].
        exists v, pg, c. split; [apply list_elem_of_here|done].
      * rewrite IH. split.
        -- intros (u & pg' & c & Hu & ?). exists u, pg', c.
           split; [by apply list_elem_of_further|done].
        -- intros (u & pg' & c & [->|Hu]%elem_of_cons & Hg' & Hin & Hn); [|by eauto 8].
           assert (pg' = pg) as -> by congruence.
           destruct (find_cookie_is_Some n _ c Hin Hn) as [? ?]. congruence.
    + rewrite IH. split.
      * intros (u & pg' & c & Hu & ?). exists u, pg', c.
        split; [by apply list_elem_of_further|done].
      * intros (u & pg' & c & [->|Hu]%elem_of_cons & Hg' & Hin & Hn); [congruence|by eauto 8].
Qed.

Lemma first_iframe_seen log x :
  is_Some (first_iframe log x) ↔
  ∃ u pg, u ∈ log ∧ visit u = Some pg ∧ x ∈ findAllIframes pg.
Proof.
  induction log as [|v log IH]; cbn [first_iframe].
  - split; [by intros [? [=]]|]. by intros (u & ? & ?%elem_of_nil & _).
  - unfold iframe_on at 1. destruct (visit v) as [pg|] eqn:Hg; cbn.
    + case_decide as Hx.
      * split; [|done]. intros _. exists v, pg. split; [apply list_elem_of_here|done].
      * rewrite IH. split.
        -- intros (u & pg' & Hu & ?). exists u, pg'.
           split; [by apply list_elem_of_further|done].
        -- intros (u & pg' & [->|Hu]%elem_of_cons & Hg' & Hin); [|by eauto 8].
           congruence.
    + rewrite IH. split.
      * intros (u & pg' & Hu & ?). exists u, pg'.
        split; [by apply list_elem_of_further|done].
      * intros (u & pg' & [->|Hu]%elem_of_cons & Hg' & Hin); [congruence|by eauto 8].
Qed.

Lemma cookie_on_name u n r : cookie_on u n = Some r → name (cookie r) = n.
Proof.
  unfold cookie_on. destruct (visit u) as [pg|]; cbn; [|done].
  destruct (find_cookie n (all_cookies pg)) as [c|] eqn:Hc; cbn; [|done].
  intros [= <-]. by apply find_cookie_Some in Hc as [? ?].
Qed.

Lemma iframe_on_src u x r : iframe_on u x = Some r → src r = x.
Proof.
  unfold iframe_on. destruct (visit u) as [pg|]; cbn; [|done].
  case_decide; [|done]. by intros [= <-].
Qed.

(** X10. Nothing seen is lost.  At the end of a run [crawledCookies] has
    an entry for a name exactly when some page that was loaded, and on
    which the anchor script returned, had a cookie of that name, and
    [crawledIframes] has an entry for a source exactly when some such
    page showed an iframe with it; and every record is stored under the
    name of its cookie, the source of its iframe.  A page on which the
    anchor script throws leaves no record: the exception ends the run
    before the iframes and the cookies are read. *)
Theorem nothing_seen_is_lost fuel st :
  final (main fuel initial) = Some st →
  (∀ n, is_Some (crawledCookies st !! n) ↔
     ∃ u pg c, u ∈ navigations st ∧ goto u = Some pg
       ∧ is_Some (collectAllSameOriginAnchorsDeep pg)
       ∧ c ∈ all_cookies pg ∧ name c = n)
  ∧ (∀ x, is_Some (crawledIframes st !! x) ↔
       ∃ u pg, u ∈ navigations st ∧ goto u = Some pg
         ∧ is_Some (collectAllSameOriginAnchorsDeep pg)
         ∧ x ∈ findAllIframes pg)
  ∧ (∀ n r, crawledCookies st !! n = Some r → name (cookie r) = n)
  ∧ (∀ x r, crawledIframes st !! x = Some r → src r = x).
Proof.
  intros Hf. pose proof (main_first_sightings _ _ Hf) as Hs.
  split; [|split; [|split]].
  - intros n. rewrite (proj1 (Hs n)), first_cookie_seen. split.
    + intros (u & pg & c & Hu & [Hg Hc]%visit_Some & Hrest). by exists u, pg, c.
    + intros (u & pg & c & Hu & Hg & Hc & Hrest). exists u, pg, c.
      split; [done|]. split; [by apply visit_Some|done].
  - intros x. rewrite (proj2 (Hs x)), first_iframe_seen. split.
    + intros (u & pg & Hu & [Hg Hc]%visit_Some & Hrest). by exists u, pg.
    + intros (u & pg & Hu & Hg & Hc & Hrest). exists u, pg.
      split; [done|]. split; [by apply visit_Some|done].
  - intros n r. rewrite (proj1 (Hs n)).
    intros (? & ? & _ & Hon & _)%first_cookie_earliest. by eapply cookie_on_name.
  - intros x r. rewrite (proj2 (Hs x)).
    intros (? & ? & _ & Hon & _)%first_iframe_earliest. by eapply iframe_on_src.
Qed.

(** *** The first link *)




(** *** Why a URL is loaded *)

Lemma link_of_loaded_more before more u :
  link_of_loaded before u → link_of_loaded (before ++ more) u.
Proof.
  intros (v & pg & Hv & Hg & Hu). exists v, pg.
  split; [|done]. apply elem_of_app. by left.
Qed.

Lemma reasoned_navigate page p u st heap' :
  reasoned st → heap st !! page = Some p → u = url p →
  (∀ l n, heap' !! l = Some n →
     (∃ n0, heap st !! l = Some n0 ∧ url n = url n0)
     ∨ link_of_loaded (navigations st ++ [u]) (url n)) →
  reasoned (mkState heap' (crawledPages st) (crawledCookies st) (crawledIframes st)
              (console st) (navigations st ++ [u])).
Proof.
  intros [Hobj Htrace] Hp -> Hh. split; cbn [heap navigations].
  - intros l n [(n0 & Hn0 & ->)|Hnew]%Hh; [|by right].
    destruct (Hobj _ _ Hn0) as [?|?]; [by left|right]. by apply link_of_loaded_more.
  - intros i u [[Hlt Hi]|[-> <-]]%lookup_snoc_Some.
    + rewrite take_app_le by lia. by apply Htrace.
    + rewrite take_app_length. by apply Hobj in Hp.
Qed.

Lemma crawl_reasoned fuel page depth st :
  reasoned st → post reasoned (λ _, reasoned) (crawl fuel page depth st).
Proof.
  apply crawl_rule; [done| |].
  - intros pg p i s [Hobj Htrace] Hp Hi. pose proof (reuse_any pg i s) as Hr.
    assert (∀ s', reuse_effect pg i s s' → reasoned s') as Hsame.
    { intros s' He. pose proof He as ((_ & _ & _ & Hnav) & _). split; rewrite Hnav; [|done].
      intros l n' Hn'. destruct (reuse_effect_lookup _ _ _ _ _ _ He Hn') as (n & Hn & -> & _).
      by eapply Hobj. }
    destruct (reuse pg i s) as [[] s'|e s'|]; cbn [post]; [by apply Hsame| |done].
    destruct Hr as [Hr _]. by apply Hsame.
  - intros pg p s Hs Hp Hnew. destruct (visit (url p)) as [lp|] eqn:Hg.
    + erewrite load_Some by done. cbn [post].
      destruct (reasoned_navigate pg p (url p) s (heap (loaded pg (url p) lp s)) Hs Hp eq_refl)
        as [H1 H2]; [|by split].
      intros l n Hn. apply (loaded_cases _ _ _ _ _ _ Hp) in Hn
        as [(-> & ->) | [(Hne & Hold) | (k & a & -> & Hk & ->)]].
      * left. eauto.
      * left. eauto.
      * right. exists (url p), lp. split; [|split; [by apply visit_goto|]].
        -- apply elem_of_app. right. apply list_elem_of_here.
        -- by eapply list_elem_of_lookup_2.
    + erewrite load_None by done. cbn [post].
      destruct (reasoned_navigate pg p (url p) s (heap s) Hs Hp eq_refl) as [H1 H2];
        [|by split].
      intros l n Hn. left. eauto.
Qed.

Lemma collect_same_origin pg anchors a :
  collectAllSameOriginAnchorsDeep pg = Some anchors → a ∈ anchors →
  origin (location_href pg) = origin a.
Proof.
  intros (kept & Hk & ->)%collect_Some. rewrite from_set_iff, list_elem_of_fmap.
  intros (el & -> & (_ & o & Ho & Ho')%(same_origin_Some _ _ _ Hk)). congruence.
Qed.

(** X11. No URL is loaded without a reason.  At the end of a run every
    URL handed to the browser is the start URL or one of the anchors the
    script returned on a page that was loaded earlier in the run.  Hence,
    when the browser never ends up on another origin than that of the URL
    it was given, every URL handed to it has the origin of the start URL:
    the crawl stays on the site. *)
Theorem loads_have_a_reason fuel st :
  final (main fuel initial) = Some st →
  (∀ i u, navigations st !! i = Some u →
     u = URL ∨ ∃ v pg anchors,
       v ∈ take i (navigations st) ∧ goto v = Some pg
       ∧ collectAllSameOriginAnchorsDeep pg = Some anchors ∧ u ∈ anchors)
  ∧ ((∀ v pg, goto v = Some pg → origin (location_href pg) = origin v) →
     ∀ u, u ∈ navigations st → origin u = origin URL).
Proof.
  intros Hf%main_final.
  assert (reasoned started) as H0.
  { split; [|done]. intros l n Hn.
    apply list_elem_of_lookup_2, list_elem_of_singleton in Hn as ->. by left. }
  pose proof (crawl_reasoned fuel 0%nat 0 started H0) as H.
  assert (reasoned st) as [_ Hreasoned].
  { destruct (crawl fuel 0%nat 0 started) as [[] s|e s|]; cbn in *; [| |done];
      injection Hf as <-; apply H. }
  assert (∀ i u, navigations st !! i = Some u →
     u = URL ∨ ∃ v pg anchors,
       v ∈ take i (navigations st) ∧ goto v = Some pg
       ∧ collectAllSameOriginAnchorsDeep pg = Some anchors ∧ u ∈ anchors) as Htrace.
  { intros i u [->|(v & pg & Hv & Hg & (anchors & Hc & Hu)%links_collected)]%Hreasoned;
      [by left|right]. by exists v, pg, anchors. }
  split; [exact Htrace|]. intros Hstay u [i Hi]%list_elem_of_lookup_1.
  revert u Hi. induction i as [i IH] using lt_wf_ind. intros u Hi.
  destruct (Htrace _ _ Hi) as [->|(v & pg & anchors & Hv & Hg & Hc & Hu)]; [done|].
  apply list_elem_of_lookup_1 in Hv as [j [Hj Hlt]%lookup_take_Some].
  rewrite <- (IH j Hlt v Hj), <- (Hstay v pg Hg).
  symmetry. by eapply collect_same_origin.
Qed.

(** *** Cycles *)

Lemma tree_of_child k h l n cs i c :
  h !! l = Some n → children n = Some cs → cs !! i = Some c →
  is_Some (tree_of (S k) h l) → is_Some (tree_of k h c).
Proof.
  intros Hn Hcs Hc. cbn [tree_of]. rewrite Hn. cbn. rewrite Hcs.
  destruct (mapM (tree_of k h) cs) as [ts|] eqn:Hm; [|by intros [? [=]]].
  intros _. assert (is_Some (mapM (tree_of k h) cs)) as Hs by (by rewrite Hm).
  apply mapM_is_Some_1 in Hs. by apply (Forall_lookup_1 _ _ _ _ Hs Hc).
Qed.

Lemma tree_of_descend h path fuel l l' :
  descend h l path = Some l' → is_Some (tree_of fuel h l) →
  ∃ fuel', (fuel' + length path ≤ fuel)%nat ∧ is_Some (tree_of fuel' h l').
Proof.
  revert fuel l. induction path as [|i rest IH]; intros fuel l; cbn [descend].
  - intros [= ->] Hs. exists fuel. split; [cbn; lia|done].
  - destruct (h !! l) as [n|] eqn:Hn; [|done]. cbn.
    destruct (children n) as [cs|] eqn:Hcs; [|done]. cbn.
    destruct (cs !! i) as [c|] eqn:Hc; [|done]. cbn. intros Hd Hs.
    destruct fuel as [|k]; [by destruct Hs|].
    pose proof (tree_of_child k h l n cs i c Hn Hcs Hc Hs) as Hk.
    destruct (IH k c Hd Hk) as (fuel' & Hle & Hs'). exists fuel'. split; [cbn; lia|done].
Qed.

Lemma tree_of_cycle h root p l q :
  descend h root p = Some l → descend h l q = Some l → q ≠ [] →
  ∀ fuel, tree_of fuel h root = None.
Proof.
  intros Hp Hq Hne.
  assert (∀ fuel, ¬ is_Some (tree_of fuel h l)) as Hl.
  { intros fuel. induction fuel as [fuel IH] using lt_wf_ind. intros Hs.
    destruct (tree_of_descend h q fuel l l Hq Hs) as (fuel' & Hle & Hs').
    apply (IH fuel'); [|done]. destruct q; [done|]. cbn in Hle. lia. }
  intros fuel. destruct (tree_of fuel h root) as [t|] eqn:Ht; [|done]. exfalso.
  destruct (tree_of_descend h p fuel root l Hp) as (fuel' & _ & Hs'); [by rewrite Ht|].
  by apply (Hl fuel').
Qed.

(** X12. The result can be cyclic.  With a depth limit of 3 or more,
    infinite or not, a start page that links to [b], [b] linking to [c]
    and [c] linking back to [b]: the run returns after loading the three
    pages; the object for [b] below [c] is reused at depth 3 and takes the
    children of the entry of [b], so the object for [c] is its own
    grandchild, and the walk of [JSON.stringify(root)] finds no finite
    tree. *)
Theorem cyclic_result (b c : string) (pa pb pc : LoadedPage) :
  ¬ exceeds 3 maxDepth → b ≠ URL → c ≠ URL → b ≠ c →
  goto URL = Some pa → goto b = Some pb → goto c = Some pc →
  collectAllSameOriginAnchorsDeep pa = Some [b] →
  collectAllSameOriginAnchorsDeep pb = Some [c] →
  collectAllSameOriginAnchorsDeep pc = Some [b] →
  ∃ st, main 4 initial = Ok 0%nat st
    ∧ navigations st = [URL; b; c]
    ∧ heap st = [mkPageNode URL (Some (document_title pa)) (Some [1%nat]);
                 mkPageNode b (Some (document_title pb)) (Some [2%nat]);
                 mkPageNode c (Some (document_title pc)) (Some [3%nat]);
                 mkPageNode b (Some (document_title pb)) (Some [2%nat])]
    ∧ descend (heap st) 2 [0; 0]%nat = Some 2%nat
    ∧ ∀ fuel, tree_of fuel (heap st) 0 = None.
Proof.
  intros Hd Hb Hc Hbc Ha Hgb Hgc Hla Hlb Hlc.
  assert (links pa = [b]) as Hlinks_a.
  { rewrite (links_Some _ _ Hla). by rewrite !filter_cons_True, filter_nil. }
  assert (links pb = [c]) as Hlinks_b.
  { rewrite (links_Some _ _ Hlb). by rewrite filter_cons_True, filter_nil. }
  assert (links pc = [b]) as Hlinks_c.
  { rewrite (links_Some _ _ Hlc). by rewrite filter_cons_True, filter_nil. }
  assert (∀ d, d ≤ 3 → ¬ exceeds d maxDepth) as Hin.
  { intros d Hle Hx. apply Hd. by eapply exceeds_mono. }
  assert (add1 0 = 1) as H01 by reflexivity.
  assert (add1 1 = 2) as H12 by reflexivity.
  assert (add1 2 = 3) as H23 by reflexivity.
  rewrite main_run.
  (* the start page *)
  rewrite (crawl_load 3 0%nat (stub URL) pa 0 started);
    [|by apply Hin|done|done|by eapply visit_intro].
  rewrite H01.
  cbn [stub url]. set (st1 := loaded 0%nat URL pa started).
  assert (heap st1 = [mkPageNode URL (Some (document_title pa)) (Some [1%nat]);
                      stub b]) as Hh1.
  { cbn [st1 loaded heap started]. by rewrite Hlinks_a. }
  assert (crawledPages st1 = <[URL := 0%nat]> ∅) as Hp1 by done.
  rewrite Hlinks_a. cbn [length seq started heap forEach]. rewrite bind_run.
  (* page b *)
  rewrite (crawl_load 2 1%nat (stub b) pb 1 st1);
    [|by apply Hin|by rewrite Hh1| |by eapply visit_intro].
  rewrite H12.
  2:{ rewrite Hp1. cbn [stub url]. by rewrite lookup_insert_ne, lookup_empty. }
  cbn [stub url]. set (st2 := loaded 1%nat b pb st1).
  assert (heap st2 = [mkPageNode URL (Some (document_title pa)) (Some [1%nat]);
                      mkPageNode b (Some (document_title pb)) (Some [2%nat]);
                      stub c]) as Hh2.
  { cbn [st2 loaded heap]. by rewrite Hlinks_b, Hh1. }
  assert (crawledPages st2 = <[b := 1%nat]> (<[URL := 0%nat]> ∅)) as Hp2.
  { cbn [st2 loaded crawledPages]. by rewrite Hp1. }
  rewrite Hlinks_b, Hh1. cbn [length seq forEach]. rewrite bind_run.
  (* page c *)
  rewrite (crawl_load 1 2%nat (stub c) pc 2 st2);
    [|by apply Hin|by rewrite Hh2| |by eapply visit_intro].
  rewrite H23.
  2:{ rewrite Hp2. cbn [stub url]. by rewrite !lookup_insert_ne, lookup_empty. }
  cbn [stub url]. set (st3 := loaded 2%nat c pc st2).
  assert (heap st3 = [mkPageNode URL (Some (document_title pa)) (Some [1%nat]);
                      mkPageNode b (Some (document_title pb)) (Some [2%nat]);
                      mkPageNode c (Some (document_title pc)) (Some [3%nat]);
                      stub b]) as Hh3.
  { cbn [st3 loaded heap]. by rewrite Hlinks_c, Hh2. }
  assert (crawledPages st3 = <[c := 2%nat]> (<[b := 1%nat]> (<[URL := 0%nat]> ∅))) as Hp3.
  { cbn [st3 loaded crawledPages]. by rewrite Hp2. }
  rewrite Hlinks_c, Hh2. cbn [length seq forEach]. rewrite bind_run.
  (* the object for b below c: reused *)
  assert (crawledPages st3 !! b = Some 1%nat) as Hib.
  { rewrite Hp3. rewrite lookup_insert_ne by done. apply lookup_insert_eq. }
  assert (crawledPages st3 !! c = Some 2%nat) as Hic.
  { rewrite Hp3. apply lookup_insert_eq. }
  rewrite (crawl_reuse 0 3%nat (stub b) 1%nat 3 st3);
    [|by apply Hin|by rewrite Hh3|done].
  rewrite reuse_run, Hh3. cbn [lookup list_lookup stub children url title forEach].
  rewrite bind_run, fill_in_run.
  cbn [reused_head heap crawledPages]. rewrite Hh3.
  cbn [alter list_alter lookup list_lookup put_title put_children url title children].
  rewrite Hic.
  cbn [alter list_alter lookup list_lookup put_title put_children url title children
       with_heap heap ret mret M_ret reused_head].
  match goal with |- ∃ st, Ok _ ?s = _ ∧ _ => set (st4 := s) end.
  assert (heap st4
          = [mkPageNode URL (Some (document_title pa)) (Some [1%nat]);
             mkPageNode b (Some (document_title pb)) (Some [2%nat]);
             mkPageNode c (Some (document_title pc)) (Some [3%nat]);
             mkPageNode b (Some (document_title pb)) (Some [2%nat])]) as Hh4.
  { cbn [st4 with_heap heap reused_head]. by rewrite Hh3. }
  exists st4. split; [done|]. split; [done|]. rewrite Hh4.
  split; [done|]. split; [done|].
  apply (tree_of_cycle _ 0%nat [0; 0]%nat 2%nat [0; 0]%nat); done.
Qed.

End Crawler.

(** ** The output directory

    [slugify], the configuration constants and [mkdirSync]. *)

(** *** [slugify] *)

Lemma slugify_length s : String.length (slugify s) = String.length s.
Proof. induction s as [|c s IH]; cbn; congruence. Qed.

Lemma slug_char_plain c : slug_char c ≠ "/"%char ∧ slug_char c ≠ ":"%char.
Proof. unfold slug_char. case_decide as H; [done|]. tauto. Qed.

Lemma slugify_get s n c :
  String.get n (slugify s) = Some c → c ≠ "/"%char ∧ c ≠ ":"%char.
Proof.
  revert n. induction s as [|d s IH]; intros n; cbn; [done|].
  destruct n as [|n]; [|apply IH]. intros [= <-]. apply slug_char_plain.
Qed.

Lemma slugify_get_eq s n :
  String.get n (slugify s) = slug_char <$> String.get n s.
Proof.
  revert n. induction s as [|d s IH]; intros n; cbn; [done|].
  destruct n as [|n]; [done|apply IH].
Qed.

Lemma app_cons_s c (s t : string) : String c s +:+ t = String c (s +:+ t).
Proof. reflexivity. Qed.

Lemma slugify_app s t : slugify (s +:+ t) = slugify s +:+ slugify t.
Proof.
  induction s as [|c s IH]; [done|].
  rewrite app_cons_s. cbn [slugify]. by rewrite app_cons_s, IH.
Qed.

Lemma slug_char_idem c : slug_char (slug_char c) = slug_char c.
Proof.
  unfold slug_char. destruct (decide (c = "/"%char ∨ c = ":"%char)) as [H|H].
  - by case_decide.
  - by rewrite decide_False.
Qed.

Lemma slugify_idem s : slugify (slugify s) = slugify s.
Proof. induction s as [|c s IH]; simpl; [done|]. by rewrite slug_char_idem, IH. Qed.

Lemma app_assoc_s (s t u : string) : (s +:+ t) +:+ u = s +:+ (t +:+ u).
Proof. induction s as [|c s IH]; [done|]. by rewrite !app_cons_s, IH. Qed.

Lemma app_nil_r_s (s : string) : s +:+ "" = s.
Proof. induction s as [|c s IH]; [done|]. by rewrite app_cons_s, IH. Qed.

Lemma prefix_app (s t : string) : String.prefix s (s +:+ t) = true.
Proof.
  induction s as [|c s IH]; [by destruct t|].
  rewrite app_cons_s. cbn [String.prefix].
  destruct (ascii_dec c c); [done|congruence].
Qed.

(** *** [split] and the paths of the [reduce] *)
Lemma split_on_cons sep s : ∃ part parts, split_on sep s = part :: parts.
Proof.
  induction s as [|c s (part & parts & IH)]; cbn; [by eexists _, _|].
  case_decide; [by eexists _, _|]. rewrite IH. by eexists _, _.
Qed.

Lemma concat_cons sep p q qs :
  String.concat sep (p :: q :: qs) = p +:+ sep +:+ String.concat sep (q :: qs).
Proof. done. Qed.

Lemma split_on_join sep s : String.concat (String sep "") (split_on sep s) = s.
Proof.
  induction s as [|c s IH]; cbn [split_on]; [done|].
  destruct (split_on_cons sep s) as (part & parts & Hs). rewrite Hs in *.
  case_decide as Hc.
  - subst c. by rewrite concat_cons, IH.
  - destruct parts as [|q qs].
    + cbn in *. congruence.
    + rewrite concat_cons in *. by rewrite app_cons_s, IH.
Qed.

Lemma split_on_none sep s : has_char sep s = false → split_on sep s = [s].
Proof.
  induction s as [|c s IH]; cbn [split_on has_char]; [done|].
  intros [Hc Hs]%orb_false_iff. apply bool_decide_eq_false in Hc.
  rewrite decide_False by done. by rewrite IH.
Qed.

Lemma split_on_app sep s t :
  has_char sep s = false →
  split_on sep (s +:+ String sep t) = s :: split_on sep t.
Proof.
  induction s as [|c s IH].
  - intros _. change ("" +:+ String sep t) with (String sep t).
    cbn [split_on]. by rewrite decide_True.
  - rewrite app_cons_s. cbn [split_on has_char].
    intros [Hc Hs]%orb_false_iff. apply bool_decide_eq_false in Hc.
    rewrite decide_False by done. by rewrite IH.
Qed.

Lemma slugify_no_slash s : has_char "/" (slugify s) = false.
Proof.
  induction s as [|c s IH]; cbn [slugify has_char]; [done|]. rewrite IH, orb_false_r.
  apply bool_decide_eq_false. apply slug_char_plain.
Qed.

Lemma paths_from_last parent part parts :
  last (paths_from parent (part :: parts))
  = Some (parent +:+ String.concat "/" (part :: parts)).
Proof.
  revert parent part. induction parts as [|q qs IH]; intros parent part; [done|].
  change (paths_from parent (part :: q :: qs))
    with ((parent +:+ part)
          :: (((parent +:+ part) +:+ "/") +:+ q)
          :: paths_from ((((parent +:+ part) +:+ "/") +:+ q) +:+ "/") qs).
  rewrite last_cons_cons.
  change (last (paths_from ((parent +:+ part) +:+ "/") (q :: qs))
          = Some (parent +:+ String.concat "/" (part :: q :: qs))).
  rewrite IH, concat_cons. by rewrite !app_assoc_s.
Qed.

Lemma paths_from_prefix parent parts :
  Forall (λ p, String.prefix p (parent +:+ String.concat "/" parts) = true)
    (paths_from parent parts).
Proof.
  revert parent. induction parts as [|q qs IH]; intros parent; [constructor|].
  cbn [paths_from]. constructor.
  - destruct qs as [|r rs]; [cbn; by rewrite <- (app_nil_r_s (parent +:+ q)) at 2; apply prefix_app|].
    rewrite concat_cons, <- app_assoc_s. apply prefix_app.
  - destruct qs as [|r rs]; [constructor|].
    specialize (IH ((parent +:+ q) +:+ "/")).
    rewrite concat_cons. by rewrite !app_assoc_s in *.
Qed.

(** X13. [slugify] replaces every [/] and every [:] by [_] and nothing
    else: the result has the length of the argument, holds no [/] and no
    [:], and has at every position the character of the argument or, for
    [/] and [:], an underscore. *)
Theorem slugify_replaces s :
  String.length (slugify s) = String.length s
  ∧ (∀ n c, String.get n (slugify s) = Some c → c ≠ "/"%char ∧ c ≠ ":"%char)
  ∧ (∀ n c, String.get n s = Some c →
       String.get n (slugify s)
       = Some (if decide (c = "/"%char ∨ c = ":"%char) then "_"%char else c)).
Proof.
  split; [apply slugify_length|]. split; [apply slugify_get|].
  intros n c Hc. by rewrite slugify_get_eq, Hc.
Qed.

(** X14. [slugify] distributes over concatenation.  So URLs that differ
    only in having [/], [:] or [_] at some place get the same slug; and a
    slug is its own slug. *)
Theorem slugify_collides s t :
  slugify (s +:+ t) = slugify s +:+ slugify t
  ∧ slugify (s +:+ "/" +:+ t) = slugify s +:+ "_" +:+ slugify t
  ∧ slugify (s +:+ ":" +:+ t) = slugify s +:+ "_" +:+ slugify t
  ∧ slugify (s +:+ "_" +:+ t) = slugify s +:+ "_" +:+ slugify t
  ∧ slugify (s +:+ "/" +:+ t) = slugify (s +:+ ":" +:+ t)
  ∧ slugify (s +:+ "/" +:+ t) = slugify (s +:+ "_" +:+ t)
  ∧ slugify (slugify s) = slugify s.
Proof.
  repeat split; [by rewrite ?slugify_app..|apply slugify_idem].
Qed.

Lemma paths_from_length parent parts : length (paths_from parent parts) = length parts.
Proof. revert parent. induction parts as [|q qs IH]; intros parent; cbn; [done|]. by rewrite IH. Qed.

Lemma split_on_length sep s :
  length (split_on sep s) = S (length (filter (λ c, c = sep) (String.list_ascii_of_string s))).
Proof.
  induction s as [|c s IH]; cbn [split_on String.list_ascii_of_string]; [done|].
  destruct (decide (c = sep)) as [->|Hne].
  - rewrite filter_cons_True by done. cbn. by rewrite IH.
  - rewrite filter_cons_False by done.
    destruct (split_on sep s) as [|p ps]; cbn in *; [done|]. done.
Qed.

Lemma dir_paths_last d : last (dir_paths d) = Some d.
Proof.
  unfold dir_paths. destruct (split_on_cons "/" d) as (part & parts & Hs).
  pose proof (split_on_join "/" d) as Hj. rewrite Hs in *.
  by rewrite paths_from_last, Hj.
Qed.

(** X15. The paths [mkdirSync] visits for [d]: the last one is [d]
    itself, every one is a prefix of [d], there is one more than [d] has
    slashes, and for an absolute [d] the first one is the empty path. *)
Theorem dir_paths_prefixes d :
  last (dir_paths d) = Some d
  ∧ Forall (λ p, String.prefix p d = true) (dir_paths d)
  ∧ length (dir_paths d)
    = S (length (filter (λ c, c = "/"%char) (String.list_ascii_of_string d)))
  ∧ ∀ rest, d = String "/" rest → head (dir_paths d) = Some "".
Proof.
  split; [apply dir_paths_last|]. unfold dir_paths.
  pose proof (split_on_join "/" d) as Hj. split; [|split].
  - pose proof (paths_from_prefix "" (split_on "/" d)) as H. by rewrite Hj in H.
  - by rewrite paths_from_length, split_on_length.
  - intros rest ->. cbn [split_on]. by rewrite decide_True.
Qed.

(** X16. Without [OUTDIR], or with an empty one, the output directory is
    [output/] followed by the slug of the URL, and [mkdirSync] visits
    just two paths for it, [output] and the directory: the slug has no
    slash. *)
Theorem default_out_dir_paths url :
  dir_paths (config_OUT_DIR None url) = ["output"; "output/" +:+ slugify url]
  ∧ config_OUT_DIR (Some "") url = config_OUT_DIR None url.
Proof.
  split; [|done]. unfold dir_paths, config_OUT_DIR, or_default.
  change ("output/" +:+ slugify url) with ("output" +:+ String "/" (slugify url)).
  rewrite split_on_app by done.
  by rewrite (split_on_none _ _ (slugify_no_slash url)).
Qed.

Section Mkdir.
Context {FS : Type}.
Variable existsSync : FS → string → bool.
Variable mkdir : FS → string → MkResult FS.

Lemma make_dirs_existing parent parts fs :
  Forall (λ p, existsSync fs p = true) (paths_from parent parts) →
  make_dirs existsSync mkdir parent parts fs = Made fs.
Proof.
  revert parent. induction parts as [|q qs IH]; intros parent; [done|].
  cbn [paths_from make_dirs]. intros [Hq Hqs]%Forall_cons. rewrite Hq. by apply IH.
Qed.

Lemma make_dirs_first_error parent parts fs before p after code fs1 :
  paths_from parent parts = before ++ p :: after →
  Forall (λ q, existsSync fs q = true) before →
  existsSync fs p = false → mkdir fs p = Failed code fs1 →
  make_dirs existsSync mkdir parent parts fs = Failed code fs1.
Proof.
  revert parent before. induction parts as [|q qs IH]; intros parent before.
  - cbn. by destruct before.
  - cbn [paths_from make_dirs]. destruct before as [|b before]; cbn [app].
    + intros [= <- _] _ Hp Hm. by rewrite Hp, Hm.
    + intros [= <- Hrest] [Hb Hbefore]%Forall_cons Hp Hm. rewrite Hb. by eapply IH.
Qed.

Lemma make_dirs_frame (P : FS → Prop) parent parts fs :
  (∀ fs p, p ∈ paths_from parent parts → existsSync fs p = false →
           P fs → P (fs_of (mkdir fs p))) →
  P fs → P (fs_of (make_dirs existsSync mkdir parent parts fs)).
Proof.
  revert parent fs. induction parts as [|q qs IH]; intros parent fs Hstep HP; [done|].
  cbn [paths_from make_dirs] in *.
  destruct (existsSync fs (parent +:+ q)) eqn:Hq.
  - apply IH; [|done]. intros fs' p Hp. apply Hstep. by apply list_elem_of_further.
  - pose proof (Hstep fs _ (list_elem_of_here _ _) Hq HP) as Hnow.
    destruct (mkdir fs (parent +:+ q)) as [fs1|code fs1]; [|done].
    apply IH; [|done]. intros fs' p Hp. apply Hstep. by apply list_elem_of_further.
Qed.

Lemma make_dirs_no_EEXIST parent parts fs fs' :
  (∀ fs p fs', mkdir fs p = Failed "EEXIST" fs' → existsSync fs p = true) →
  make_dirs existsSync mkdir parent parts fs ≠ Failed "EEXIST" fs'.
Proof.
  intros Hex. revert parent fs. induction parts as [|q qs IH]; intros parent fs; [done|].
  cbn [make_dirs]. destruct (existsSync fs (parent +:+ q)) eqn:Hq; [apply IH|].
  destruct (mkdir fs (parent +:+ q)) as [fs1|code fs1] eqn:Hm; [apply IH|].
  intros [= -> ->]. apply Hex in Hm. congruence.
Qed.

Lemma make_dirs_made parent parts fs fs' :
  (∀ fs p fs', mkdir fs p = Made fs' →
     existsSync fs' p = true ∧ ∀ q, existsSync fs q = true → existsSync fs' q = true) →
  make_dirs existsSync mkdir parent parts fs = Made fs' →
  Forall (λ p, existsSync fs' p = true) (paths_from parent parts)
  ∧ ∀ q, existsSync fs q = true → existsSync fs' q = true.
Proof.
  intros Hmk. revert parent fs. induction parts as [|q qs IH]; intros parent fs.
  - cbn. intros [= ->]. by split.
  - cbn [paths_from make_dirs]. destruct (existsSync fs (parent +:+ q)) eqn:Hq.
    + intros [Hall Hmono]%IH. split; [|done]. constructor; [by apply Hmono|done].
    + destruct (mkdir fs (parent +:+ q)) as [fs1|code fs1] eqn:Hm; [|done].
      destruct (Hmk _ _ _ Hm) as [Hp Hkeep]. intros [Hall Hmono]%IH.
      split; [constructor; [by apply Hmono|done]|]. intros r Hr. by apply Hmono, Hkeep.
Qed.

(** X17. [mkdirSync] is idempotent.  When every visited path exists it
    returns without a change; and on a file system where a made directory
    exists afterwards, existing paths stay and [EEXIST] is only reported
    for an existing path, a second call after a normal return returns
    without a change. *)
Theorem mkdirSync_idempotent dirPath fs :
  (Forall (λ p, existsSync fs p = true) (dir_paths dirPath) →
   mkdirSync existsSync mkdir dirPath fs = Made fs)
  ∧ (∀ fs',
       (∀ fs p fs', mkdir fs p = Made fs' →
          existsSync fs' p = true
          ∧ ∀ q, existsSync fs q = true → existsSync fs' q = true) →
       (∀ fs p fs', mkdir fs p = Failed "EEXIST" fs' → existsSync fs p = true) →
       mkdirSync existsSync mkdir dirPath fs = Made fs' →
       mkdirSync existsSync mkdir dirPath fs' = Made fs').
Proof.
  split.
  - intros H. unfold mkdirSync. by rewrite make_dirs_existing.
  - intros fs' Hmk Hex. unfold mkdirSync.
    destruct (make_dirs existsSync mkdir "" (split_on "/" dirPath) fs)
      as [fs1|code fs1] eqn:Hrun.
    + intros [= ->]. destruct (make_dirs_made _ _ _ _ Hmk Hrun) as [Hall _].
      by rewrite make_dirs_existing.
    + case_decide as Hc; [done|]. intros [= ->].
      assert (code = "EEXIST") as ->
        by (by destruct (decide (code = "EEXIST")); [|exfalso; auto]).
      by apply make_dirs_no_EEXIST in Hrun.
Qed.

(** X18. The first failure ends [mkdirSync].  When the paths before [p]
    exist, [p] does not, and [fs.mkdirSync] fails on [p], no later path
    is visited; a failure with code [EEXIST] is swallowed and
    [mkdirSync] returns normally although the paths after [p] were not
    made, any other failure is thrown on. *)
Theorem mkdirSync_first_error dirPath fs before p after code fs1 :
  dir_paths dirPath = before ++ p :: after →
  Forall (λ q, existsSync fs q = true) before →
  existsSync fs p = false → mkdir fs p = Failed code fs1 →
  mkdirSync existsSync mkdir dirPath fs
  = if decide (code ≠ "EEXIST") then Failed code fs1 else Made fs1.
Proof.
  intros Hd Hb Hp Hm. unfold mkdirSync.
  by rewrite (make_dirs_first_error _ _ _ _ _ _ _ _ Hd Hb Hp Hm).
Qed.

(** X19. [mkdirSync] touches the file system only through
    [fs.mkdirSync] on visited paths that do not exist: whatever such
    calls preserve holds afterwards, however [mkdirSync] ends. *)
Theorem mkdirSync_only_prefixes (P : FS → Prop) dirPath fs :
  (∀ fs p, p ∈ dir_paths dirPath → existsSync fs p = false →
           P fs → P (fs_of (mkdir fs p))) →
  P fs → P (fs_of (mkdirSync existsSync mkdir dirPath fs)).
Proof.
  intros Hstep HP. unfold mkdirSync.
  pose proof (make_dirs_frame P "" (split_on "/" dirPath) fs Hstep HP) as H.
  destruct (make_dirs existsSync mkdir "" (split_on "/" dirPath) fs); [done|].
  by case_decide.
Qed.

(** X20. On a file system where a made directory exists afterwards,
    existing paths stay, and [EEXIST] is only reported for an existing
    path, a normal return of [mkdirSync] means that [dirPath] and every
    visited path exist, and everything that existed before still
    does. *)
Theorem mkdirSync_creates_all dirPath fs fs' :
  (∀ fs p fs', mkdir fs p = Made fs' →
     existsSync fs' p = true ∧ ∀ q, existsSync fs q = true → existsSync fs' q = true) →
  (∀ fs p fs', mkdir fs p = Failed "EEXIST" fs' → existsSync fs p = true) →
  mkdirSync existsSync mkdir dirPath fs = Made fs' →
  existsSync fs' dirPath = true
  ∧ Forall (λ p, existsSync fs' p = true) (dir_paths dirPath)
  ∧ ∀ q, existsSync fs q = true → existsSync fs' q = true.
Proof.
  intros Hmk Hex. unfold mkdirSync.
  destruct (make_dirs existsSync mkdir "" (split_on "/" dirPath) fs)
    as [fs1|code fs1] eqn:Hrun.
  - intros [= ->]. destruct (make_dirs_made _ _ _ _ Hmk Hrun) as [Hall Hmono].
    split; [|done].
    destruct (proj1 (last_Some _ _) (dir_paths_last dirPath)) as (l & Hl).
    unfold dir_paths in Hl. rewrite Hl in Hall.
    by apply Forall_app in Hall as [_ [? _]%Forall_cons].
  - case_decide as Hc; [done|]. intros [= ->].
    assert (code = "EEXIST") as -> by (by destruct (decide (code = "EEXIST")); [|exfalso; auto]).
    by apply make_dirs_no_EEXIST in Hrun.
Qed.

End Mkdir.

(** *** The configured depth *)


(** ** The sample sites, crawled *)

(** The shop crawled to depth 1, to depth 2, and to depth 3, where the
    page [e] that does not load is reached. *)
Abbreviation shop_1 := (state_of (main "a" 1 one_origin (site shop) 3 initial)).
Abbreviation shop_2 := (state_of (main "a" 2 one_origin (site shop) 4 initial)).
Abbreviation shop_3 := (state_of (main "a" 3 one_origin (site shop) 5 initial)).

Lemma site_href pages u pg : site pages u = Some pg → location_href pg = u.
Proof.
  induction pages as [|q pages IH]; cbn [site]; [done|].
  case_decide; [congruence|done].
Qed.

Lemma site_own_url_excluded origin pages : own_url_excluded origin (site pages).
Proof. intros u pg anchors <-%site_href. apply collect_not_own. Qed.

Lemma main_wf URL maxDepth origin goto fuel st :
  final (main URL maxDepth origin goto fuel initial) = Some st → wf st.
Proof.
  intros Hf%main_final.
  pose proof (crawl_wf URL maxDepth origin goto fuel 0%nat 0 _ (wf_started URL)) as Hpost.
  destruct (post_final _ _ _ _ Hpost Hf) as [?|[_ ?]]; done.
Qed.

Lemma shop_1_wf : wf shop_1.
Proof. apply (main_wf "a" 1 one_origin (site shop) 3). vm_compute. reflexivity. Qed.

(** *** Where the specification and the code part *)

(** C2 fails as stated: in the shop crawled to depth 2 the object three
    links below the root along [c], [b], [d] has the title of [d] and a
    child. *)
Lemma depth_bound_counterexample :
  main "a" 2 one_origin (site shop) 4 initial = Ok 0%nat shop_2
  ∧ ¬ depth_bound 2 (heap shop_2) 0.
Proof.
  split; [vm_compute; reflexivity|]. intros H.
  destruct (H [1; 0; 0]%nat 3%nat (mkPageNode "d" (Some "D") (Some [4%nat])))
    as [[Ht|Ht] _]; [vm_compute; reflexivity..|discriminate|discriminate].
Qed.


(** C6 fails as stated: with depth limit 1 the child of [c] has no title. *)
Lemma scenario_counterexample :
  ∃ st t,
    main "https://example.com/a" 1 one_origin (site trio) 3 initial = Ok 0%nat st
    ∧ tree_of 3 (heap st) 0 = Some t
    ∧ ¬ scenario_as_specified "https://example.com/a" "https://example.com/b"
          "https://example.com/c" t.
Proof.
  eexists _, _. split; [vm_compute; reflexivity|]. split; [vm_compute; reflexivity|].
  intros (ta & tb & tc & cs & _ & H). discriminate.
Qed.

(** C3 fails as stated: in the shop with the page [e], crawled to depth
    3, the object for [b] below [c] is a reused occurrence (the entry of
    [b] is the object 1), and two links below it, along [d], the object
    for [e] carries the title of [e]. *)
Lemma one_level_counterexample :
  ∃ st, main "a" 3 one_origin (site deep_shop) 5 initial = Ok 0%nat st
    ∧ crawledPages st !! "b" = Some 1%nat
    ∧ heap st !! 5%nat = Some (mkPageNode "b" (Some "B") (Some [3%nat]))
    ∧ descend (heap st) 5 [0; 0]%nat = Some 4%nat
    ∧ heap st !! 4%nat = Some (mkPageNode "e" (Some "E") (Some []))
    ∧ ¬ one_level (heap st) 5.
Proof.
  eexists. split; [vm_compute; reflexivity|].
  split; [vm_compute; reflexivity|]. split; [vm_compute; reflexivity|].
  split; [vm_compute; reflexivity|]. split; [vm_compute; reflexivity|].
  intros H.
  assert (length [0; 0]%nat ≤ 1)%nat as Hlen; [|cbn in Hlen; lia].
  apply (H [0; 0]%nat 4%nat (mkPageNode "e" (Some "E") (Some [])));
    [vm_compute; reflexivity..|by eexists].
Qed.








(** *** The theorems at the sample sites *)

(** C1 at the shop crawled to depth 2. *)
Lemma at_most_one_fetch_witness :
  final (main "a" 2 one_origin (site shop) 4 initial) = Some shop_2
  ∧ NoDup (navigations shop_2)
  ∧ (∀ root, main "a" 2 one_origin (site shop) 4 initial = Ok root shop_2 →
       ∀ u, u ∈ navigations shop_2 → is_Some (crawledPages shop_2 !! u)).
Proof.
  assert (final (main "a" 2 one_origin (site shop) 4 initial) = Some shop_2) as H
    by (vm_compute; reflexivity).
  split; [exact H|].
  exact (at_most_one_fetch "a" 2 one_origin (site shop) 4 shop_2 H).
Defined.

(** C2 at the shop: with depth limit 0 a call at depth 1 does nothing, and
    the start page loaded at depth 0 keeps the stubs of its two links; in
    the crawl to depth 2 every object with children lies within two links
    of the root. *)
Lemma depth_cutoff_witness :
  crawl "a" 0 one_origin (site shop) 1 0%nat 1 (started "a") = Ok tt (started "a")
  ∧ (∃ st' p',
      crawl "a" 0 one_origin (site shop) 2 0%nat 0 (started "a") = Ok tt st'
      ∧ navigations st' = navigations (started "a") ++ [url (stub "a")]
      ∧ heap st' !! 0%nat = Some p'
      ∧ children p'
        = Some (seq (length (heap (started "a")))
                  (length (links "a" one_origin shop_a)))
      ∧ ∀ k a, links "a" one_origin shop_a !! k = Some a →
          heap st' !! (length (heap (started "a")) + k)%nat = Some (stub a))
  ∧ (∀ l n, heap shop_2 !! l = Some n → is_Some (children n) →
       ∃ path, ¬ exceeds (depth_after (length path)) 2
               ∧ descend (heap shop_2) 0 path = Some l)
  ∧ (∀ l n, heap shop_2 !! l = Some n → is_Some (children n) →
       ∃ path, Z.of_nat (length path) ≤ 2 ∧ descend (heap shop_2) 0 path = Some l).
Proof.
  split; [|split; [|split]].
  - apply (proj1 (depth_cutoff "a" 0 one_origin (site shop)) 0%nat 0%nat 1 (started "a")).
    cbn. lia.
  - apply (proj1 (proj2 (depth_cutoff "a" 0 one_origin (site shop)))
             0%nat 0%nat 0 (started "a") (stub "a") shop_a);
      [cbn; lia|change (add1 0) with 1; cbn; lia|reflexivity..].
  - apply (proj1 (proj2 (proj2 (depth_cutoff "a" 2 one_origin (site shop)))) 4%nat shop_2).
    vm_compute. reflexivity.
  - apply (proj2 (proj2 (proj2 (depth_cutoff "a" 2 one_origin (site shop))))
             2 4%nat shop_2); [reflexivity|lia|].
    vm_compute. reflexivity.
Defined.

(** C3 at the shop crawled to depth 1: the object for [b] below [c] has
    not been visited, and [b] is in the map. *)
Lemma reuse_returns_known_witness :
  ∃ it cs st',
    heap shop_1 !! 1%nat = Some it ∧ children it = Some cs
    ∧ crawl "a" 2 one_origin (site shop) 1 4%nat 2 shop_1 = Ok tt st'
    ∧ same_maps shop_1 st'
    ∧ heap st' !! 4%nat = Some (mkPageNode (url (stub "b")) (title it) (Some cs))
    ∧ (∀ c cn, c ∈ cs → c ≠ 4%nat → heap shop_1 !! c = Some cn →
         heap st' !! c
         = Some (mkPageNode (url cn) (backfill shop_1 (url cn)) (children cn))
         ∧ ∀ j nj, crawledPages shop_1 !! url cn = Some j →
             heap shop_1 !! j = Some nj → backfill shop_1 (url cn) = title nj)
    ∧ (∀ l, l ≠ 4%nat → l ∉ cs → heap st' !! l = heap shop_1 !! l).
Proof.
  apply (reuse_returns_known "a" 2 one_origin (site shop) 0 4%nat (stub "b") 1%nat 2
           shop_1 shop_1_wf).
  - cbn. lia.
  - vm_compute. reflexivity.
  - vm_compute. reflexivity.
Defined.


(** C5 at the shop: the cookie [session] is seen on [a] and on [b], the
    iframe [ads] as well. *)
Lemma first_seen_wins_witness :
  keeps_records (started "a") shop_2
  ∧ (∀ n, crawledCookies shop_2 !! n
          = first_cookie one_origin (site shop) (navigations shop_2) n
          ∧ crawledIframes shop_2 !! n
            = first_iframe one_origin (site shop) (navigations shop_2) n)
  ∧ (∃ before after,
       navigations shop_2 = before ++ "a" :: after
       ∧ cookie_on one_origin (site shop) "a" "session"
         = Some (mkCookieRecord (mkCookie "session" [("value", "1")]) "a")
       ∧ ∀ v, v ∈ before → cookie_on one_origin (site shop) v "session" = None)
  ∧ (∃ before after,
       navigations shop_2 = before ++ "a" :: after
       ∧ iframe_on one_origin (site shop) "a" "ads" = Some (mkIframeRecord "ads" "a")
       ∧ ∀ v, v ∈ before → iframe_on one_origin (site shop) v "ads" = None).
Proof.
  assert (final (main "a" 2 one_origin (site shop) 4 initial) = Some shop_2) as H
    by (vm_compute; reflexivity).
  destruct (first_seen_wins "a" 2 one_origin (site shop)) as (H1 & H2 & H3 & H4).
  split; [|split; [|split]].
  - apply (H1 4%nat 0%nat 0 (started "a") shop_2). vm_compute. reflexivity.
  - apply (H2 4%nat shop_2 H).
  - apply (H3 4%nat shop_2 "session"
             (mkCookieRecord (mkCookie "session" [("value", "1")]) "a") H).
    vm_compute. reflexivity.
  - apply (H4 4%nat shop_2 "ads" (mkIframeRecord "ads" "a") H).
    vm_compute. reflexivity.
Defined.

(** C6 at the three pages. *)
Lemma scenario_tree_witness :
  ∃ st,
    main "https://example.com/a" 1 one_origin (site trio) 3 initial = Ok 0%nat st
    ∧ navigations st
      = ["https://example.com/a"; "https://example.com/b"; "https://example.com/c"]
    ∧ tree_of 3 (heap st) 0
      = Some (TNode "https://example.com/a" (Some (document_title trio_a))
                (Some [TNode "https://example.com/b" (Some (document_title trio_b))
                         (Some []);
                       TNode "https://example.com/c" (Some (document_title trio_c))
                         (Some [TNode "https://example.com/b" None None])])).
Proof.
  apply (scenario_tree "https://example.com/a" 1 one_origin (site trio)
           "https://example.com/b" "https://example.com/c" trio_a trio_b trio_c);
    try reflexivity; try discriminate.
Defined.

(** C7 at the shop. *)
Lemma no_self_loop_witness :
  (∀ l n cs c cn, heap shop_2 !! l = Some n → children n = Some cs → c ∈ cs →
     heap shop_2 !! c = Some cn → url cn ≠ "a")
  ∧ (∀ l n cs c cn, heap shop_2 !! l = Some n → children n = Some cs → c ∈ cs →
       heap shop_2 !! c = Some cn → url cn ≠ url n).
Proof.
  assert (final (main "a" 2 one_origin (site shop) 4 initial) = Some shop_2) as H
    by (vm_compute; reflexivity).
  destruct (no_self_loop "a" 2 one_origin (site shop) 4 shop_2 H) as [H1 H2].
  split; [exact H1|]. apply H2, site_own_url_excluded.
Defined.

(** C8 at the shop crawled to depth 3, where [e] does not load; and at a
    start URL that does not load. *)
Lemma navigation_error_aborts_witness :
  crawl "zzz" 2 one_origin (site shop) 1 0%nat 0 (started "zzz")
  = Thrown (NavigationError (url (stub "zzz"))) (refused (url (stub "zzz")) (started "zzz"))
  ∧ main "a" 3 one_origin (site shop) 5 initial = Thrown (NavigationError "e") shop_3
  ∧ ∃ log, navigations shop_3 = log ++ ["e"] ∧ "e" ∉ log.
Proof.
  split.
  - apply (proj1 (navigation_error_aborts "zzz" 2 one_origin (site shop))
             0%nat 0%nat (stub "zzz") 0 (started "zzz")).
    + cbn. lia.
    + reflexivity.
    + reflexivity.
    + reflexivity.
  - apply (proj2 (navigation_error_aborts "a" 3 one_origin (site shop)) 5%nat shop_3 "e").
    + vm_compute. reflexivity.
    + vm_compute. do 3 apply list_elem_of_further. apply list_elem_of_here.
    + reflexivity.
Defined.


(** C10 at the shop crawled to depth 1. *)
Lemma reuse_overwrites_titles_witness :
  ∃ it cs st',
    heap shop_1 !! 1%nat = Some it ∧ children it = Some cs
    ∧ crawl "a" 2 one_origin (site shop) 1 4%nat 2 shop_1 = Ok tt st'
    ∧ ∀ c, c ∈ cs →
        ∃ cn cn', heap shop_1 !! c = Some cn ∧ heap st' !! c = Some cn'
          ∧ (crawledPages shop_1 !! url cn = None → title cn' = Some "")
          ∧ (∀ j nj, crawledPages shop_1 !! url cn = Some j →
               heap shop_1 !! j = Some nj → title cn' = title nj).
Proof.
  apply (reuse_overwrites_titles "a" 2 one_origin (site shop) 0 4%nat (stub "b") 1%nat 2
           shop_1 shop_1_wf).
  - cbn. lia.
  - vm_compute. reflexivity.
  - vm_compute. reflexivity.
Defined.

(** *** The further properties at the sample sites *)

(** X5 at the shop crawled to depth 1, for the call on the object for [b]
    below [c]. *)
Lemma crawl_takes_nothing_back_witness :
  wf shop_1
  ∧ final (crawl "a" 2 one_origin (site shop) 1 4%nat 2 shop_1)
    = Some (state_of (crawl "a" 2 one_origin (site shop) 1 4%nat 2 shop_1))
  ∧ extends shop_1 (state_of (crawl "a" 2 one_origin (site shop) 1 4%nat 2 shop_1)).
Proof.
  assert (final (crawl "a" 2 one_origin (site shop) 1 4%nat 2 shop_1)
          = Some (state_of (crawl "a" 2 one_origin (site shop) 1 4%nat 2 shop_1))) as H
    by (vm_compute; reflexivity).
  split; [exact shop_1_wf|]. split; [exact H|].
  exact (crawl_takes_nothing_back "a" 2 one_origin (site shop) 1 4%nat 2 shop_1 _
           shop_1_wf H).
Defined.

(** X6 at the shop crawled to depth 2. *)
Lemma tree_shows_pages_witness :
  final (main "a" 2 one_origin (site shop) 4 initial) = Some shop_2
  ∧ ∀ l n, heap shop_2 !! l = Some n →
      (∀ t, title n = Some t →
         t = "" ∨ ∃ pg, site shop (url n) = Some pg ∧ t = document_title pg)
      ∧ (∀ cs, children n = Some cs →
           ∃ pg anchors, site shop (url n) = Some pg
             ∧ collectAllSameOriginAnchorsDeep one_origin pg = Some anchors
             ∧ title n = Some (document_title pg)
             ∧ Forall2 (λ c a, url <$> heap shop_2 !! c = Some a) cs
                 (filter (λ a, a ≠ "a") anchors)).
Proof.
  assert (final (main "a" 2 one_origin (site shop) 4 initial) = Some shop_2) as H
    by (vm_compute; reflexivity).
  split; [exact H|].
  exact (tree_shows_pages "a" 2 one_origin (site shop) 4 shop_2 H).
Defined.

(** X7 at the shop crawled to depth 3, where [e] does not load. *)
Lemma registry_is_trace_witness :
  final (main "a" 3 one_origin (site shop) 5 initial) = Some shop_3
  ∧ (∀ u, is_Some (crawledPages shop_3 !! u) →
       u ∈ navigations shop_3 ∧ is_Some (site shop u)
       ∧ ∃ pg, site shop u = Some pg
           ∧ is_Some (collectAllSameOriginAnchorsDeep one_origin pg))
  ∧ (∀ root, main "a" 3 one_origin (site shop) 5 initial = Ok root shop_3 →
       (∀ u, is_Some (crawledPages shop_3 !! u) ↔ u ∈ navigations shop_3)
       ∧ size (crawledPages shop_3) = length (navigations shop_3))
  ∧ (∀ u, main "a" 3 one_origin (site shop) 5 initial
          = Thrown (NavigationError u) shop_3 →
       S (size (crawledPages shop_3)) = length (navigations shop_3))
  ∧ (∀ u, main "a" 3 one_origin (site shop) 5 initial
          = Thrown (ScriptError u) shop_3 →
       S (size (crawledPages shop_3)) = length (navigations shop_3)).
Proof.
  assert (final (main "a" 3 one_origin (site shop) 5 initial) = Some shop_3) as H
    by (vm_compute; reflexivity).
  split; [exact H|].
  exact (registry_is_trace "a" 3 one_origin (site shop) 5 shop_3 H).
Defined.

(** X8: at the shop with depth limit -1, at a start URL that does not
    load, and crawled to depth 2; and at the page with an href that does
    not parse, where the anchor script throws. *)
Lemma run_start_witness :
  main "a" (-1) one_origin (site shop) 1 initial = Ok 0%nat (started "a")
  ∧ main "e" 2 one_origin (site shop) 1 initial
    = Thrown (NavigationError "e") (refused "e" (started "e"))
  ∧ main "a" 2 strict_origin (site broken) 1 initial
    = Thrown (ScriptError "a") (refused "a" (started "a"))
  ∧ head (navigations shop_2) = Some "a"
  ∧ crawledPages shop_2 !! "a" = Some 0%nat
  ∧ heap shop_2 !! 0%nat
    = Some (mkPageNode "a" (Some (document_title shop_a))
              (Some (seq 1 (length (filter (λ a, a ≠ "a") ["b"; "c"]))))).
Proof.
  split; [|split; [|split]].
  - apply (proj1 (run_start "a" (-1) one_origin (site shop))). cbn. lia.
  - apply (proj1 (proj2 (run_start "e" 2 one_origin (site shop))));
      [cbn; lia|reflexivity].
  - apply (proj1 (proj2 (proj2 (run_start "a" 2 strict_origin (site broken))))
             ltac:(cbn; lia) broken_a); reflexivity.
  - apply (proj2 (proj2 (proj2 (run_start "a" 2 one_origin (site shop))))
             ltac:(cbn; lia) shop_a ["b"; "c"] 4%nat);
      [reflexivity|reflexivity|vm_compute; reflexivity].
Defined.

(** X9 at the shop crawled to depth 3. *)
Lemma console_lists_loads_witness :
  final (main "a" 3 one_origin (site shop) 5 initial) = Some shop_3
  ∧ filter (λ line, is_loading line = true) (console shop_3)
    = (λ u, "Loading: " +:+ u) <$> navigations shop_3
  ∧ Forall (λ line, ∃ u, line = "Loading: " +:+ u ∨ line = "Reusing route: " +:+ u)
      (console shop_3).
Proof.
  assert (final (main "a" 3 one_origin (site shop) 5 initial) = Some shop_3) as H
    by (vm_compute; reflexivity).
  split; [exact H|].
  exact (console_lists_loads "a" 3 one_origin (site shop) 5 shop_3 H).
Defined.

(** X10 at the shop crawled to depth 2. *)
Lemma nothing_seen_is_lost_witness :
  final (main "a" 2 one_origin (site shop) 4 initial) = Some shop_2
  ∧ (∀ n, is_Some (crawledCookies shop_2 !! n) ↔
       ∃ u pg c, u ∈ navigations shop_2 ∧ site shop u = Some pg
         ∧ is_Some (collectAllSameOriginAnchorsDeep one_origin pg)
         ∧ c ∈ all_cookies pg ∧ name c = n)
  ∧ (∀ x, is_Some (crawledIframes shop_2 !! x) ↔
       ∃ u pg, u ∈ navigations shop_2 ∧ site shop u = Some pg
         ∧ is_Some (collectAllSameOriginAnchorsDeep one_origin pg)
         ∧ x ∈ findAllIframes pg)
  ∧ (∀ n r, crawledCookies shop_2 !! n = Some r → name (cookie r) = n)
  ∧ (∀ x r, crawledIframes shop_2 !! x = Some r → src r = x).
Proof.
  assert (final (main "a" 2 one_origin (site shop) 4 initial) = Some shop_2) as H
    by (vm_compute; reflexivity).
  split; [exact H|].
  exact (nothing_seen_is_lost "a" 2 one_origin (site shop) 4 shop_2 H).
Defined.

(** The set model of a file system: a made directory exists, the others
    stay, and [EEXIST] is reported for an existing path only. *)
Lemma set_mkdir_made (fs : gset string) p fs' :
  set_mkdir fs p = Made fs' →
  set_exists fs' p = true ∧ ∀ q, set_exists fs q = true → set_exists fs' q = true.
Proof.
  unfold set_mkdir, set_exists. case_decide; [done|]. intros [= <-]. split.
  - apply bool_decide_eq_true. set_solver.
  - intros q Hq%bool_decide_eq_true. apply bool_decide_eq_true. set_solver.
Qed.

Lemma set_mkdir_EEXIST (fs : gset string) p fs' :
  set_mkdir fs p = Failed "EEXIST" fs' → set_exists fs p = true.
Proof.
  unfold set_mkdir, set_exists. case_decide; [|done]. intros _.
  by apply bool_decide_eq_true.
Qed.

(** X17 for [out/x]: on a file system that has both directories, and a
    second call after a first on the empty file system. *)
Lemma mkdirSync_idempotent_witness :
  mkdirSync set_exists set_mkdir "out/x" {["out"; "out/x"]} = Made {["out"; "out/x"]}
  ∧ mkdirSync set_exists set_mkdir "out/x"
      (fs_of (mkdirSync set_exists set_mkdir "out/x" ∅))
    = Made (fs_of (mkdirSync set_exists set_mkdir "out/x" ∅)).
Proof.
  split.
  - apply (proj1 (mkdirSync_idempotent set_exists set_mkdir "out/x" {["out"; "out/x"]})).
    vm_compute. repeat constructor.
  - apply (proj2 (mkdirSync_idempotent set_exists set_mkdir "out/x" ∅) _
             set_mkdir_made set_mkdir_EEXIST).
    vm_compute. reflexivity.
Defined.

(** X18 for [out/x] on the empty file system, when another process makes
    [out] between the test and the call: [mkdirSync] returns normally and
    [out/x] has not been made. *)
Lemma mkdirSync_first_error_witness :
  mkdirSync set_exists (λ fs _, Failed "EEXIST" (fs ∪ {["out"]})) "out/x" ∅
  = (if decide ("EEXIST" ≠ "EEXIST") then Failed "EEXIST" (∅ ∪ {["out"]})
     else Made (∅ ∪ {["out"]})).
Proof.
  apply (mkdirSync_first_error set_exists (λ fs _, Failed "EEXIST" (fs ∪ {["out"]}))
           "out/x" ∅ [] "out" ["out/x"] "EEXIST" (∅ ∪ {["out"]})).
  - reflexivity.
  - constructor.
  - reflexivity.
  - reflexivity.
Defined.

(** X19 for [a/b]: a directory outside the visited paths is not made. *)
Lemma mkdirSync_only_prefixes_witness :
  "c" ∉ fs_of (mkdirSync set_exists set_mkdir "a/b" ∅).
Proof.
  apply (mkdirSync_only_prefixes set_exists set_mkdir (λ fs, "c" ∉ fs) "a/b" ∅).
  - intros fs p Hp _ Hfs. unfold set_mkdir. case_decide; [done|]. cbn [fs_of].
    change (dir_paths "a/b") with ["a"; "a/b"] in Hp.
    apply not_elem_of_union. split; [done|]. apply not_elem_of_singleton.
    intros <-. apply elem_of_cons in Hp as [?|Hp]; [done|].
    apply elem_of_cons in Hp as [?|Hp]; [done|]. by apply elem_of_nil in Hp.
  - apply not_elem_of_empty.
Defined.

(** X20 for [out/x] on the empty file system. *)
Lemma mkdirSync_creates_all_witness :
  set_exists (fs_of (mkdirSync set_exists set_mkdir "out/x" ∅)) "out/x" = true
  ∧ Forall (λ p, set_exists (fs_of (mkdirSync set_exists set_mkdir "out/x" ∅)) p = true)
      (dir_paths "out/x")
  ∧ ∀ q, set_exists ∅ q = true →
      set_exists (fs_of (mkdirSync set_exists set_mkdir "out/x" ∅)) q = true.
Proof.
  apply (mkdirSync_creates_all set_exists set_mkdir "out/x" ∅ _
           set_mkdir_made set_mkdir_EEXIST).
  vm_compute. reflexivity.
Defined.


(** X11 at the shop crawled to depth 3. *)
Lemma loads_have_a_reason_witness :
  final (main "a" 3 one_origin (site shop) 5 initial) = Some shop_3
  ∧ (∀ i u, navigations shop_3 !! i = Some u →
       u = "a" ∨ ∃ v pg anchors,
         v ∈ take i (navigations shop_3) ∧ site shop v = Some pg
         ∧ collectAllSameOriginAnchorsDeep one_origin pg = Some anchors
         ∧ u ∈ anchors)
  ∧ (∀ u, u ∈ navigations shop_3 → one_origin u = one_origin "a").
Proof.
  assert (final (main "a" 3 one_origin (site shop) 5 initial) = Some shop_3) as H
    by (vm_compute; reflexivity).
  split; [exact H|].
  destruct (loads_have_a_reason "a" 3 one_origin (site shop) 5 shop_3 H) as [H1 H2].
  split; [exact H1|]. apply H2. intros v pg _. reflexivity.
Defined.

(** X12 at the ring of three pages, with depth limit 3. *)
Lemma cyclic_result_witness :
  ∃ st, main "a" 3 one_origin (site ring) 4 initial = Ok 0%nat st
    ∧ navigations st = ["a"; "b"; "c"]
    ∧ heap st = [mkPageNode "a" (Some (document_title ring_a)) (Some [1%nat]);
                 mkPageNode "b" (Some (document_title ring_b)) (Some [2%nat]);
                 mkPageNode "c" (Some (document_title ring_c)) (Some [3%nat]);
                 mkPageNode "b" (Some (document_title ring_b)) (Some [2%nat])]
    ∧ descend (heap st) 2 [0; 0]%nat = Some 2%nat
    ∧ ∀ fuel, tree_of fuel (heap st) 0 = None.
Proof.
  apply (cyclic_result "a" 3 one_origin (site ring) "b" "c" ring_a ring_b ring_c);
    [cbn; lia|done|done|done|reflexivity..].
Defined.
